(** * A verified model of the course chatbot backend

    Shallow embedding of [chatbot.py] (entity extraction, intent
    classification, reply building with the graph synchronisation policy)
    and of [kg.py] (the Neo4j-backed graph index), with the properties of
    the specification stated and proved over the embedding.

    Scope of the model.  Python [str] values are modelled as Rocq [string]s
    whose characters are ASCII code units: [upper], [lower], [title], the
    whitespace test and the regular-expression classes [\b], [\s], [\d] are
    the ASCII restrictions of Python's Unicode-aware ones, and code units
    above 127 are treated as uncased, non-word, non-space characters.
    On ASCII strings these functions are Python's; the properties of
    entity extraction that depend on them are stated for a text, and
    where it matters a Catalog, in ASCII ([Str.isascii],
    [Shape.ascii_catalog]). *)

From Stdlib Require Import Ascii String List ZArith Lia Bool DecimalString.
From stdpp Require Import base gmap strings list sorting.

Local Open Scope nat_scope.

(** ** Characters and strings *)

Module Str.

Definition code (c : ascii) : nat := nat_of_ascii c.

Definition between (lo hi : nat) (c : ascii) : bool :=
  (lo <=? code c) && (code c <=? hi).

(** [A-Z], [a-z], [0-9]. *)
Definition is_upper : ascii -> bool := between 65 90.
Definition is_lower : ascii -> bool := between 97 122.
Definition is_digit : ascii -> bool := between 48 57.
Definition is_alpha (c : ascii) : bool := is_upper c || is_lower c.

(** A word character, as in [\w]: letter, digit or underscore. *)
Definition is_word (c : ascii) : bool :=
  is_alpha c || is_digit c || (code c =? 95).

(** [str.isspace] / [\s] on ASCII: TAB, LF, VT, FF, CR, the four
    separators FS, GS, RS, US, and the space. *)
Definition is_space (c : ascii) : bool :=
  between 9 13 c || between 28 31 c || (code c =? 32).

Definition upper_char (c : ascii) : ascii :=
  if is_lower c then ascii_of_nat (code c - 32) else c.
Definition lower_char (c : ascii) : ascii :=
  if is_upper c then ascii_of_nat (code c + 32) else c.

Fixpoint map (f : ascii -> ascii) (s : string) : string :=
  match s with
  | EmptyString => EmptyString
  | String c s' => String (f c) (map f s')
  end.

(** [s.upper()] and [s.lower()]. *)
Definition upper : string -> string := map upper_char.
Definition lower : string -> string := map lower_char.

(** [s.title()]: a cased character is upper-cased when the character
    before it is uncased (or there is none) and lower-cased otherwise. *)
Fixpoint title_from (prev_cased : bool) (s : string) : string :=
  match s with
  | EmptyString => EmptyString
  | String c s' =>
      String (if is_alpha c
              then (if prev_cased then lower_char c else upper_char c)
              else c)
             (title_from (is_alpha c) s')
  end.
Definition title : string -> string := title_from false.

(** [t.startswith(s)]. *)
Fixpoint startswith (s t : string) : bool :=
  match s, t with
  | EmptyString, _ => true
  | String a s', String b t' => if Ascii.eqb a b then startswith s' t' else false
  | String _ _, EmptyString => false
  end.

(** [s in t]: substring containment. *)
Fixpoint contains (s t : string) : bool :=
  startswith s t ||
  match t with
  | EmptyString => false
  | String _ t' => contains s t'
  end.

(** [t.endswith(s)]. *)
Fixpoint endswith (s t : string) : bool :=
  String.eqb s t ||
  match t with
  | EmptyString => false
  | String _ t' => endswith s t'
  end.

(** [any(k in t for k in ks)]. *)
Definition any_in (ks : list string) (t : string) : bool :=
  existsb (fun k => contains k t) ks.

(** [sep.join(l)]. *)
Definition join (sep : string) (l : list string) : string :=
  String.concat sep l.

(** [s.split()]: the maximal runs of non-whitespace characters.  [cur]
    holds the token being read, reversed. *)
Fixpoint split_from (cur : list ascii) (s : string) : list string :=
  let flush := match cur with
               | [] => []
               | _ => [string_of_list_ascii (rev cur)]
               end in
  match s with
  | EmptyString => flush
  | String c s' =>
      if is_space c then flush ++ split_from [] s'
      else split_from (c :: cur) s'
  end.
Definition split : string -> list string := split_from [].

(** Python truthiness of an [Optional[str]]: [None] and the empty string
    are falsy. *)
Definition truthy (o : option string) : bool :=
  match o with
  | Some (String _ _) => true
  | _ => false
  end.

(** [str(n)] for an integer. *)
Definition of_Z (z : Z) : string := NilZero.string_of_int (Z.to_int z).

(** [s.isascii()]: every character is below 128.  On such strings the
    functions above are those of Python. *)
Fixpoint isascii (s : string) : bool :=
  match s with
  | EmptyString => true
  | String c s' => (code c <? 128) && isascii s'
  end.

End Str.

(** ** Regular expressions

    A backtracking matcher for the fragment of Python's [re] that the
    program uses: character classes, literals (optionally compared without
    case), [\b], sequencing, ordered alternation, greedy [?], bounded
    repetition, greedy [+] on a class, and capture groups. *)

Module Re.

Inductive re : Type :=
| Eps
| Cls (p : ascii -> bool)
| WordB
| Seq (r1 r2 : re)
| Alt (r1 r2 : re)
| Opt (r : re)
| PlusCls (p : ascii -> bool)
| Grp (i : nat) (r : re).

(** [r{n}] *)
Definition rep (n : nat) (r : re) : re := Nat.iter n (Seq r) Eps.

(** A literal character; under IGNORECASE both sides are case-folded. *)
Definition chr (ignorecase : bool) (c : ascii) : re :=
  Cls (fun x => if ignorecase
                then Ascii.eqb (Str.lower_char x) (Str.lower_char c)
                else Ascii.eqb x c).

(** A literal string, as produced by [re.escape]. *)
Fixpoint lit (ignorecase : bool) (s : string) : re :=
  match s with
  | EmptyString => Eps
  | String c s' => Seq (chr ignorecase c) (lit ignorecase s')
  end.

(** [r1|r2|...|rn] for a non-empty list; earlier alternatives first. *)
Fixpoint alts (r : re) (rs : list re) : re :=
  match rs with
  | [] => r
  | r' :: rs' => Alt r (alts r' rs')
  end.

(** Matcher state: the character before the current position (for
    [\b]), the remaining input, and the groups captured so far. *)
Record mstate : Type := MState {
  prev : option ascii;
  rest : string;
  caps : gmap nat string
}.

Definition word_opt (o : option ascii) : bool :=
  match o with Some c => Str.is_word c | None => false end.

Definition next (s : string) : option ascii :=
  match s with String c _ => Some c | EmptyString => None end.

Definition at_boundary (st : mstate) : bool :=
  xorb (word_opt (prev st)) (word_opt (next (rest st))).

(** The text consumed between two positions of the same input. *)
Definition consumed (st st' : mstate) : string :=
  String.substring 0 (String.length (rest st) - String.length (rest st')) (rest st).

Definition set_cap (i : nat) (st st' : mstate) : mstate :=
  MState (prev st') (rest st') (<[i := consumed st st']> (caps st')).

Section Matcher.
Context {R : Type}.

(** Greedy [p+]: take as many characters as possible, give one back at
    a time while the continuation fails. *)
Fixpoint plus_cls (p : ascii -> bool) (k : mstate -> option R)
    (s : string) (cs : gmap nat string) : option R :=
  match s with
  | EmptyString => None
  | String c s' =>
      if p c then
        match plus_cls p k s' cs with
        | Some x => Some x
        | None => k (MState (Some c) s' cs)
        end
      else None
  end.

Fixpoint m (r : re) (k : mstate -> option R) (st : mstate) : option R :=
  match r with
  | Eps => k st
  | Cls p =>
      match rest st with
      | String c s' => if p c then k (MState (Some c) s' (caps st)) else None
      | EmptyString => None
      end
  | WordB => if at_boundary st then k st else None
  | Seq r1 r2 => m r1 (m r2 k) st
  | Alt r1 r2 =>
      match m r1 k st with
      | Some x => Some x
      | None => m r2 k st
      end
  | Opt r1 =>
      match m r1 k st with
      | Some x => Some x
      | None => k st
      end
  | PlusCls p => plus_cls p k (rest st) (caps st)
  | Grp i r1 => m r1 (fun st' => k (set_cap i st st')) st
  end.
End Matcher.

(** A match object: the captured groups, group 0 being the whole match. *)
Definition match_at (r : re) (pv : option ascii) (s : string) : option (gmap nat string) :=
  m (Grp 0 r) (fun st => Some (caps st)) (MState pv s ∅).

(** [r.search(text)]: the match at the leftmost position that has one. *)
Fixpoint search_from (r : re) (pv : option ascii) (s : string) : option (gmap nat string) :=
  match match_at r pv s with
  | Some mt => Some mt
  | None =>
      match s with
      | EmptyString => None
      | String c s' => search_from r (Some c) s'
      end
  end.

Definition search (r : re) (text : string) : option (gmap nat string) :=
  search_from r None text.

(** [mt.group(i)]; [None] for a group that did not take part. *)
Definition group (mt : gmap nat string) (i : nat) : option string := mt !! i.

(** *** The matches of an expression

    The states in which a match of [r] started in [st] can end, in the
    order in which the matcher tries them. *)

Fixpoint plus_ends (p : ascii -> bool) (s : string) (cs : gmap nat string)
    : list mstate :=
  match s with
  | EmptyString => []
  | String c s' =>
      if p c then plus_ends p s' cs ++ [MState (Some c) s' cs] else []
  end.

Fixpoint ends (r : re) (st : mstate) : list mstate :=
  match r with
  | Eps => [st]
  | Cls p =>
      match rest st with
      | String c s' => if p c then [MState (Some c) s' (caps st)] else []
      | EmptyString => []
      end
  | WordB => if at_boundary st then [st] else []
  | Seq r1 r2 => ends r1 st ≫= ends r2
  | Alt r1 r2 => ends r1 st ++ ends r2 st
  | Opt r1 => ends r1 st ++ [st]
  | PlusCls p => plus_ends p (rest st) (caps st)
  | Grp i r1 => set_cap i st <$> ends r1 st
  end.

(** The first state of a list that a continuation accepts. *)
Fixpoint first_some {R} (k : mstate -> option R) (l : list mstate) : option R :=
  match l with
  | [] => None
  | st :: l' =>
      match k st with
      | Some x => Some x
      | None => first_some k l'
      end
  end.

(** Every match of [r] captures group [i]. *)
Fixpoint sets (i : nat) (r : re) : bool :=
  match r with
  | Seq r1 r2 => sets i r1 || sets i r2
  | Alt r1 r2 => sets i r1 && sets i r2
  | Grp j r1 => Nat.eqb i j || sets i r1
  | _ => false
  end.

End Re.

(** COURSE_CODE_RE = re.compile(r"\b([A-Z]{3})\s?(\d{3})\b") *)
Definition COURSE_CODE_RE : Re.re :=
  Re.Seq Re.WordB
    (Re.Seq (Re.Grp 1 (Re.rep 3 (Re.Cls Str.is_upper)))
      (Re.Seq (Re.Opt (Re.Cls Str.is_space))
        (Re.Seq (Re.Grp 2 (Re.rep 3 (Re.Cls Str.is_digit)))
          Re.WordB))).

(** SEMESTER_RE =
      re.compile(r"\b(Spring|Summer|Fall|Autumn|Winter)\s+\d{4}\b", re.IGNORECASE) *)
Definition SEMESTER_RE : Re.re :=
  Re.Seq Re.WordB
    (Re.Seq (Re.Grp 1 (Re.alts (Re.lit true "Spring")
                         [Re.lit true "Summer"; Re.lit true "Fall";
                          Re.lit true "Autumn"; Re.lit true "Winter"]))
      (Re.Seq (Re.PlusCls Str.is_space)
        (Re.Seq (Re.rep 4 (Re.Cls Str.is_digit))
          Re.WordB))).

(** ** The course catalog *)

(** One record of [data/courses.json], a Python [dict] with these six
    keys; the credit is taken to be a whole number. *)
Record course_rec : Type := Course {
  course : string;
  title : string;
  teacher : string;
  dept : string;
  semester : string;
  credit : Z
}.

#[global] Instance course_rec_eq_dec : EqDecision course_rec.
Proof. solve_decision. Defined.

(** [sorted(xs, key=len, reverse=True)]: a stable sort by descending
    length; elements of equal length keep their relative order. *)
Fixpoint insert_by_len (x : string) (l : list string) : list string :=
  match l with
  | [] => [x]
  | y :: l' =>
      if String.length y <=? String.length x then x :: y :: l'
      else y :: insert_by_len x l'
  end.

Definition sorted_by_len_desc (l : list string) : list string :=
  foldr insert_by_len [] l.


(** [sorted({f(c) for c in data}, key=len, reverse=True)].  Python leaves
    the iteration order of the set unspecified; the model enumerates it in
    order of last occurrence in the catalog.  Only the relative order of
    names of equal length depends on that choice. *)
Definition names_of (f : course_rec -> string) (data : list course_rec) : list string :=
  sorted_by_len_desc (remove_dups (f <$> data)).

(** ** The chatbot: entity extraction and intent classification *)

Module Chatbot.

(** An entity bundle, a Python [dict] from field name to [Optional[str]]. *)
Abbreviation entities := (gmap string (option string)).

(** [d.get(k)]: [None] when the key is missing. *)
Definition get (d : entities) (k : string) : option string :=
  default None (d !! k).

Section WithCatalog.
Variable data : list course_rec.

(** self.by_code = {c["course"].upper(): c for c in data} *)
Definition by_code : gmap string course_rec :=
  foldl (fun acc c => <[Str.upper (course c) := c]> acc) ∅ data.

Definition teacher_names : list string := names_of teacher data.
Definition dept_names : list string := names_of dept data.
Definition semester_names : list string := names_of semester data.

(** [self.dept_re]: [None] when the joined pattern is the empty string,
    that is when there is no department name or only the empty one. *)
Definition dept_re : option Re.re :=
  match dept_names with
  | [] => None
  | [EmptyString] => None
  | n :: ns =>
      Some (Re.Seq Re.WordB
              (Re.Seq (Re.Grp 1 (Re.alts (Re.lit true n) (Re.lit true <$> ns)))
                 Re.WordB))
  end.

Fixpoint _match_from_list (text_lower : string) (candidates : list string)
    : option string :=
  match candidates with
  | [] => None
  | candidate :: candidates' =>
      if Str.contains (Str.lower candidate) text_lower then Some candidate
      else _match_from_list text_lower candidates'
  end.

(** [f"{x}"] of an optional group: the text of [None] is "None". *)
Definition fmt (o : option string) : string := default "None" o.

(** The course code of [extract_entities]. *)
Definition extract_course_code (text_upper : string) : option string :=
  match Re.search COURSE_CODE_RE text_upper with
  | Some code_match =>
      Some (fmt (Re.group code_match 1) +:+ fmt (Re.group code_match 2))
  | None => None
  end.

(** The department of [extract_entities].  The outer [option] is [None]
    when the Python code raises (a method call on a [None] group). *)
Definition extract_dept (text_upper : string) : option (option string) :=
  match dept_re with
  | Some re =>
      match Re.search re text_upper with
      | Some dept_match =>
          g ← Re.group dept_match 1; Some (Some (Str.upper g))
      | None => Some None
      end
  | None => Some None
  end.

(** The semester of [extract_entities]; the outer [option] is [None]
    when the Python code raises (a [None] group, or [split()[-1]] on an
    empty list). *)
Definition extract_semester (text : string) : option (option string) :=
  match Re.search SEMESTER_RE text with
  | Some semester_match =>
      g1 ← Re.group semester_match 1;
      g0 ← Re.group semester_match 0;
      year ← last (Str.split g0);
      Some (Some (Str.title g1 +:+ " " +:+ year))
  | None => Some None
  end.

(** [extract_entities]; [None] stands for a raised exception. *)
Definition extract_entities (text : string) : option entities :=
  let text_upper := Str.upper text in
  let text_lower := Str.lower text in
  let course_code := extract_course_code text_upper in
  let teacher := _match_from_list text_lower teacher_names in
  dept ← extract_dept text_upper;
  semester ← extract_semester text;
  Some (<["course_code" := course_code]>
         (<["teacher" := teacher]>
           (<["dept" := dept]>
             (<["semester" := semester]> ∅)))).

Definition detect_intent (text : string) (ents : entities) : string :=
  let text_lower := Str.lower text in
  if Str.any_in ["help"; "commands"; "what can you do"] text_lower then "help"
  else if Str.contains "graph" text_lower || Str.contains "kg" text_lower
  then "graph_show"
  else if Str.truthy (get ents "course_code") then
    if Str.any_in ["teacher"; "teach"; "teaches"; "instructor"] text_lower
    then "course_teacher"
    else if Str.any_in ["title"; "name"] text_lower then "course_title"
    else if Str.any_in ["credit"; "credits"] text_lower then "course_credit"
    else if Str.any_in ["semester"; "term"] text_lower then "course_semester"
    else "course_info"
  else if Str.truthy (get ents "teacher")
          && Str.any_in ["courses"; "teach"; "teaches"] text_lower
  then "teacher_courses"
  else if Str.truthy (get ents "dept")
          && Str.any_in ["department"; "dept"; "courses"] text_lower
  then "dept_courses"
  else if Str.truthy (get ents "semester")
          && Str.any_in ["courses"; "offered"] text_lower
  then "semester_courses"
  else "unknown".

End WithCatalog.

(** *** The Graph Index as the chatbot sees it

    The chatbot is handed any object with the six operations below; each
    returns a (value, optional error text) pair and may change the state
    [G] of the store behind it. *)

(** A row of a lookup: [{"code": ..., "title": ...}], both strings, as
    the rows of nodes written by [upsert_course] are. *)
Record row : Type := Row { code : string; row_title : string }.

Record GraphIndex (G : Type) : Type := {
  health : G -> (bool * option string) * G;
  upsert_course : course_rec -> G -> (bool * option string) * G;
  summary : G -> (option (Z * Z) * option string) * G;
  get_courses_by_teacher : string -> G -> (list row * option string) * G;
  get_courses_by_dept : string -> G -> (list row * option string) * G;
  get_courses_by_semester : string -> G -> (list row * option string) * G
}.
Arguments health {G}.
Arguments upsert_course {G}.
Arguments summary {G}.
Arguments get_courses_by_teacher {G}.
Arguments get_courses_by_dept {G}.
Arguments get_courses_by_semester {G}.

(** Computations that call the Graph Index thread its state. *)
Definition St (G A : Type) : Type := G -> A * G.
Definition ret {G A} (a : A) : St G A := fun g => (a, g).
Definition bind {G A B} (c : St G A) (k : A -> St G B) : St G B :=
  fun g => let (a, g') := c g in k a g'.

Notation "'let*' x := c 'in' k" := (bind c (fun x => k))
  (at level 10, x pattern, c at level 100, k at level 200).

(** [for x in xs: body(x)] *)
Fixpoint for_each {G A} (xs : list A) (body : A -> St G unit) : St G unit :=
  match xs with
  | [] => ret tt
  | x :: xs' => let* _ := body x in for_each xs' body
  end.

Definition warning_text : string := " Neo4j down, dataset result dekhacchi.".
Definition not_found_text : string := "Course code not found. (No matching course.)".

Section WithGraph.
Variable data : list course_rec.
Context {G : Type}.
Variable kg : option (GraphIndex G).

Definition _kg_status : St G (bool * option string) :=
  match kg with
  | None => ret (false, Some "KG not configured")
  | Some g => health g
  end.

Definition _try_upsert (c : course_rec) (kg_ok : bool) : St G unit :=
  match kg with
  | None => ret tt
  | Some g =>
      if negb kg_ok then ret tt
      else let* _ := upsert_course g c in ret tt
  end.

Definition _get_course (code : option string) : option course_rec :=
  match code with
  | Some (String a s) => by_code data !! Str.upper (String a s)
  | _ => None
  end.

(** The loop shared by the three lookup intents:
    [record = self.by_code.get(course["code"].upper())], upserted when
    found. *)
Definition upsert_resolved (courses : list row) (kg_ok : bool) : St G unit :=
  for_each courses (fun c =>
    match by_code data !! Str.upper (code c) with
    | Some record => _try_upsert record kg_ok
    | None => ret tt
    end).

(** [{"code": c["course"], "title": c["title"]}] *)
Definition row_of (c : course_rec) : row := Row (course c) (title c).

(** [courses, _ = self.kg.get_courses_by_...(x)] when the index is
    configured and healthy, the empty list otherwise. *)
Definition kg_lookup (kg_ok : bool)
    (q : GraphIndex G -> G -> (list row * option string) * G) : St G (list row) :=
  match kg with
  | Some g => if kg_ok then let* r := q g in ret (fst r) else ret []
  | None => ret []
  end.

Definition build_reply (intent : string) (ents : entities) : St G string :=
  let* st := _kg_status in
  let kg_ok := fst st in
  let warning :=
    match kg with
    | Some _ => if negb kg_ok then warning_text else ""
    | None => ""
    end in
  if String.eqb intent "help" then
    ret ("Commands: course teacher/title/credit/semester, teacher courses, dept courses, "
         +:+ "semester courses, graph status. (Try: 'who teaches CSE411', 'CSE dept courses')")
  else if String.eqb intent "graph_show" then
    match kg with
    | None => ret "Graph unavailable. Neo4j is not running."
    | Some g =>
        if negb kg_ok then ret "Graph unavailable. Neo4j is not running."
        else
          let* r := summary g in
          match r with
          | (Some (nodes, edges), error) =>
              if Str.truthy error then ret "Graph summary not available right now."
              else ret ("Graph summary: " +:+ Str.of_Z nodes +:+ " nodes, "
                        +:+ Str.of_Z edges +:+ " edges. "
                        +:+ "(KG has " +:+ Str.of_Z nodes +:+ " nodes and "
                        +:+ Str.of_Z edges +:+ " edges.)")
          | (None, _) => ret "Graph summary not available right now."
          end
    end
  else if String.eqb intent "course_teacher" then
    match _get_course (get ents "course_code") with
    | None => ret not_found_text
    | Some c =>
        let* _ := _try_upsert c kg_ok in
        ret (course c +:+ " course er teacher: " +:+ teacher c +:+ ". (Teacher of "
             +:+ course c +:+ " is " +:+ teacher c +:+ ".)" +:+ warning)
    end
  else if String.eqb intent "course_title" then
    match _get_course (get ents "course_code") with
    | None => ret not_found_text
    | Some c =>
        let* _ := _try_upsert c kg_ok in
        ret (course c +:+ " course er title: " +:+ title c +:+ ". (Title of "
             +:+ course c +:+ " is " +:+ title c +:+ ".)" +:+ warning)
    end
  else if String.eqb intent "course_credit" then
    match _get_course (get ents "course_code") with
    | None => ret not_found_text
    | Some c =>
        let* _ := _try_upsert c kg_ok in
        ret (course c +:+ " course er credit: " +:+ Str.of_Z (credit c)
             +:+ ". (Credits of " +:+ course c +:+ " are " +:+ Str.of_Z (credit c)
             +:+ ".)" +:+ warning)
    end
  else if String.eqb intent "course_semester" then
    match _get_course (get ents "course_code") with
    | None => ret not_found_text
    | Some c =>
        let* _ := _try_upsert c kg_ok in
        ret (course c +:+ " course offered in: " +:+ semester c +:+ ". "
             +:+ "(" +:+ course c +:+ " is offered in " +:+ semester c +:+ ".)"
             +:+ warning)
    end
  else if String.eqb intent "course_info" then
    match _get_course (get ents "course_code") with
    | None => ret not_found_text
    | Some c =>
        let* _ := _try_upsert c kg_ok in
        ret (course c +:+ ": " +:+ title c +:+ ", " +:+ teacher c +:+ ", "
             +:+ Str.of_Z (credit c) +:+ " credit, " +:+ semester c +:+ ". "
             +:+ "(" +:+ course c +:+ " course info: " +:+ title c +:+ ", teacher "
             +:+ teacher c +:+ ", " +:+ Str.of_Z (credit c) +:+ " credits, offered in "
             +:+ semester c +:+ ".)" +:+ warning)
    end
  else if String.eqb intent "teacher_courses" then
    match get ents "teacher" with
    | Some (String a s) =>
        let teacher_ := String a s in
        let* found := kg_lookup kg_ok (fun g => get_courses_by_teacher g teacher_) in
        let courses :=
          match found with
          | [] => row_of <$> filter (fun c => teacher c = teacher_) data
          | _ => found
          end in
        match courses with
        | [] => ret "No courses found for that teacher."
        | _ =>
            let* _ := upsert_resolved courses kg_ok in
            let course_list := Str.join ", " (code <$> courses) in
            ret (teacher_ +:+ " er courses: " +:+ course_list +:+ ". "
                 +:+ "(Courses taught by " +:+ teacher_ +:+ ": " +:+ course_list
                 +:+ ".)" +:+ warning)
        end
    | _ => ret "Teacher name not found. (Try a full name.)"
    end
  else if String.eqb intent "dept_courses" then
    match get ents "dept" with
    | Some (String a s) =>
        let dept_ := String a s in
        let* found := kg_lookup kg_ok (fun g => get_courses_by_dept g dept_) in
        let courses :=
          match found with
          | [] => row_of <$> filter (fun c => Str.upper (dept c) = Str.upper dept_) data
          | _ => found
          end in
        match courses with
        | [] => ret "No courses found for that department."
        | _ =>
            let* _ := upsert_resolved courses kg_ok in
            let course_list := Str.join ", " (code <$> courses) in
            ret (dept_ +:+ " department er courses: " +:+ course_list +:+ ". "
                 +:+ "(Courses in " +:+ dept_ +:+ " department: " +:+ course_list
                 +:+ ".)" +:+ warning)
        end
    | _ => ret "Department not found. (Try: CSE department courses.)"
    end
  else if String.eqb intent "semester_courses" then
    match get ents "semester" with
    | Some (String a s) =>
        let semester_ := String a s in
        let* found := kg_lookup kg_ok (fun g => get_courses_by_semester g semester_) in
        let courses :=
          match found with
          | [] => row_of <$> filter (fun c => Str.lower (semester c) = Str.lower semester_) data
          | _ => found
          end in
        match courses with
        | [] => ret "No courses found for that semester."
        | _ =>
            let* _ := upsert_resolved courses kg_ok in
            let course_list := Str.join ", " (code <$> courses) in
            ret (semester_ +:+ " er courses: " +:+ course_list +:+ ". "
                 +:+ "(Courses offered in " +:+ semester_ +:+ ": " +:+ course_list
                 +:+ ".)" +:+ warning)
        end
    | _ => ret "Semester not found. (Try: Spring 2025 courses.)"
    end
  else ret "Sorry, bujhte parini. (Sorry, I could not understand.)".

(** [process]; [None] when entity extraction raises. *)
Definition process (text : string) (g : G)
    : option ((string * string * entities) * G) :=
  ents ← extract_entities data text;
  let intent := detect_intent text ents in
  let (reply, g') := build_reply intent ents g in
  Some ((reply, intent, ents), g').

End WithGraph.

(** *** Observing the calls made to the Graph Index

    [logged kg] behaves as [kg] and records every call, oldest first, next
    to the state of the store. *)

Inductive event : Type :=
| EvHealth
| EvUpsert (c : course_rec)
| EvSummary
| EvByTeacher (t : string)
| EvByDept (d : string)
| EvBySemester (s : string).

Definition record_call {G A} (e : event) (op : G -> A * G) : St (G * list event) A :=
  fun '(g, log) => let (a, g') := op g in (a, (g', log ++ [e])).

Definition logged {G} (kg : GraphIndex G) : GraphIndex (G * list event) :=
  {| health := record_call EvHealth (health kg);
     upsert_course := fun c => record_call (EvUpsert c) (upsert_course kg c);
     summary := record_call EvSummary (summary kg);
     get_courses_by_teacher := fun t => record_call (EvByTeacher t) (get_courses_by_teacher kg t);
     get_courses_by_dept := fun d => record_call (EvByDept d) (get_courses_by_dept kg d);
     get_courses_by_semester := fun s => record_call (EvBySemester s) (get_courses_by_semester kg s) |}.

End Chatbot.

(** ** The Graph Index over Neo4j ([kg.py]) *)

Module KG.

(** What a call can do: return a value, or raise an exception (an
    instance of Python's [Exception]; [exn_text] is its [str]). *)
Record exn : Type := Exn { exn_text : string }.

Inductive outcome (A : Type) : Type :=
| Returns (a : A)
| Raises (exc : exn).
Arguments Returns {A}.
Arguments Raises {A}.

(** Values that travel to and from the database. *)
#[local] Unset Elimination Schemes.
Inductive value : Type :=
| VNull
| VInt (z : Z)
| VStr (s : string)
| VList (l : list value)
| VMap (kvs : list (string * value)).
#[local] Set Elimination Schemes.

(** A result record, indexed by column name. *)
Abbreviation record := (gmap string value).

(** The Neo4j driver, an external collaborator: any of its calls may
    raise, and each may change the world [W] (connections, the stored
    graph).  [result_rows] draws all the records of a result at once. *)
Record Neo4j (W D S Q : Type) : Type := {
  GraphDatabase_driver : string -> string * string -> W -> outcome D * W;
  driver_session : D -> option string -> W -> outcome S * W;
  driver_close : D -> W -> outcome unit * W;
  session_run : S -> string -> gmap string value -> W -> outcome Q * W;
  session_exit : S -> bool -> W -> outcome unit * W;
  result_consume : Q -> W -> outcome unit * W;
  result_single : Q -> W -> outcome (option record) * W;
  result_rows : Q -> W -> outcome (list record) * W
}.
Arguments GraphDatabase_driver {W D S Q}.
Arguments driver_session {W D S Q}.
Arguments driver_close {W D S Q}.
Arguments session_run {W D S Q}.
Arguments session_exit {W D S Q}.
Arguments result_consume {W D S Q}.
Arguments result_single {W D S Q}.
Arguments result_rows {W D S Q}.

(** The fields of a [KnowledgeGraph] object. *)
Record KnowledgeGraph (D : Type) : Type := {
  uri : string;
  user : string;
  password : string;
  database : option string;
  driver : option D
}.
Arguments uri {D}.
Arguments user {D}.
Arguments password {D}.
Arguments database {D}.
Arguments driver {D}.

Definition set_driver {D} (self : KnowledgeGraph D) (d : option D) : KnowledgeGraph D :=
  {| uri := uri self; user := user self; password := password self;
     database := database self; driver := d |}.

Section WithDriver.
Context {W D S Q : Type}.
Variable neo : Neo4j W D S Q.

(** A method runs on the object and the world and may raise. *)
Definition M (A : Type) : Type :=
  KnowledgeGraph D * W -> outcome A * (KnowledgeGraph D * W).

Definition ret {A} (a : A) : M A := fun st => (Returns a, st).
Definition raise {A} (e : exn) : M A := fun st => (Raises e, st).
Definition bind {A B} (c : M A) (k : A -> M B) : M B :=
  fun st =>
    match c st with
    | (Returns a, st') => k a st'
    | (Raises e, st') => (Raises e, st')
    end.

Notation "'do' x <- c ; k" := (bind c (fun x => k))
  (at level 10, x pattern, c at level 100, k at level 200).

(** [try: c  except Exception as exc: h(exc)] *)
Definition try_except {A} (c : M A) (h : exn -> M A) : M A :=
  fun st =>
    match c st with
    | (Returns a, st') => (Returns a, st')
    | (Raises e, st') => h e st'
    end.

(** A driver call, run on the world. *)
Definition call {A} (f : W -> outcome A * W) : M A :=
  fun '(self, w) => let (r, w') := f w in (r, (self, w')).

Definition get_self : M (KnowledgeGraph D) := fun st => (Returns (fst st), st).
Definition put_driver (d : option D) : M unit :=
  fun '(self, w) => (Returns tt, (set_driver self d, w)).

(** [row[k]]: raises [KeyError] for a missing column. *)
Definition index (row : record) (k : string) : M value :=
  match row !! k with
  | Some v => ret v
  | None => raise (Exn ("'" +:+ k +:+ "'"))
  end.

(** [for x in xs] collecting [f(x)], as a list comprehension does. *)
Fixpoint collect {A B} (f : A -> M B) (xs : list A) : M (list B) :=
  match xs with
  | [] => ret []
  | x :: xs' => do y <- f x; do ys <- collect f xs'; ret (y :: ys)
  end.

Definition connect : M unit :=
  do self <- get_self;
  match driver self with
  | None =>
      do d <- call (GraphDatabase_driver neo (uri self) (user self, password self));
      put_driver (Some d)
  | Some _ => ret tt
  end.

Definition close : M unit :=
  do self <- get_self;
  match driver self with
  | Some d => do _ <- call (driver_close neo d); put_driver None
  | None => ret tt
  end.

Definition _session : M S :=
  do self0 <- get_self;
  do _ <- match driver self0 with None => connect | Some _ => ret tt end;
  do self <- get_self;
  match driver self with
  | Some d =>
      if Str.truthy (database self)
      then call (driver_session neo d (database self))
      else call (driver_session neo d None)
  | None => raise (Exn "'NoneType' object has no attribute 'session'")
  end.

(** [with self._session() as session: body]: the session is left on
    every exit of the body, and an exception raised on leaving replaces
    the body's result. *)
Definition with_session {A} (body : S -> M A) : M A :=
  do session <- _session;
  fun st =>
    match body session st with
    | (Returns a, st') =>
        (do _ <- call (session_exit neo session false); ret a) st'
    | (Raises e, st') =>
        (do _ <- call (session_exit neo session true); raise e) st'
    end.

Definition health : M (bool * option string) :=
  try_except
    (do _ <- with_session (fun session =>
               do q <- call (session_run neo session "RETURN 1" ∅);
               call (result_consume neo q));
     ret (true, None))
    (fun exc => ret (false, Some (exn_text exc))).

Definition constraint_statements : list string :=
  [ "CREATE CONSTRAINT course_code_unique IF NOT EXISTS FOR (c:Course) REQUIRE c.code IS UNIQUE";
    "CREATE CONSTRAINT teacher_name_unique IF NOT EXISTS FOR (t:Teacher) REQUIRE t.name IS UNIQUE";
    "CREATE CONSTRAINT department_name_unique IF NOT EXISTS FOR (d:Department) REQUIRE d.name IS UNIQUE";
    "CREATE CONSTRAINT semester_name_unique IF NOT EXISTS FOR (s:Semester) REQUIRE s.name IS UNIQUE" ].

Definition ensure_constraints : M (bool * option string) :=
  try_except
    (do _ <- with_session (fun session =>
               do _ <- collect (fun stmt =>
                         do q <- call (session_run neo session stmt ∅);
                         call (result_consume neo q))
                       constraint_statements;
               ret tt);
     ret (true, None))
    (fun exc => ret (false, Some (exn_text exc))).

Definition upsert_cypher : string :=
  "
        MERGE (c:Course {code: $code})
        ON CREATE SET c.title = $title, c.credit = $credit
        ON MATCH SET c.title = $title, c.credit = $credit
        MERGE (t:Teacher {name: $teacher})
        MERGE (d:Department {name: $dept})
        MERGE (s:Semester {name: $semester})
        MERGE (c)-[:TAUGHT_BY]->(t)
        MERGE (c)-[:BELONGS_TO]->(d)
        MERGE (c)-[:OFFERED_IN]->(s)
        ".

Definition upsert_params (r : course_rec) : gmap string value :=
  <["code" := VStr (course r)]>
    (<["title" := VStr (title r)]>
      (<["credit" := VInt (credit r)]>
        (<["teacher" := VStr (teacher r)]>
          (<["dept" := VStr (dept r)]>
            (<["semester" := VStr (semester r)]> ∅))))).

Definition upsert_course (r : course_rec) : M (bool * option string) :=
  let params := upsert_params r in
  try_except
    (do _ <- with_session (fun session =>
               do q <- call (session_run neo session upsert_cypher params);
               call (result_consume neo q));
     ret (true, None))
    (fun exc => ret (false, Some (exn_text exc))).

Definition summary_cypher : string :=
  "
        MATCH (n)
        OPTIONAL MATCH ()-[r]->()
        RETURN count(DISTINCT n) AS nodes, count(r) AS rels
        ".

Definition summary : M (option (value * value) * option string) :=
  try_except
    (with_session (fun session =>
       do q <- call (session_run neo session summary_cypher ∅);
       do rcd <- call (result_single neo q);
       match rcd with
       | None => ret (Some (VInt 0, VInt 0), None)
       | Some row =>
           do nodes <- index row "nodes";
           do rels <- index row "rels";
           ret (Some (nodes, rels), None)
       end))
    (fun exc => ret (None, Some (exn_text exc))).

(** The exported graph: [{"nodes": [...], "edges": [...]}]. *)
Record graph : Type := Graph { nodes : list record; edges : list record }.

Definition export_graph : M (option graph * option string) :=
  try_except
    (do g <- with_session (fun session =>
               do node_q <- call (session_run neo session
                   "MATCH (n) RETURN id(n) AS id, labels(n)[0] AS label, properties(n) AS props" ∅);
               do node_rows <- call (result_rows neo node_q);
               do ns <- collect (fun row =>
                          do i <- index row "id";
                          do l <- index row "label";
                          do p <- index row "props";
                          ret (<["id" := i]> (<["type" := l]> (<["props" := p]> ∅))))
                        node_rows;
               do edge_q <- call (session_run neo session
                   "MATCH (a)-[r]->(b) RETURN id(r) AS id, type(r) AS type, id(a) AS source, id(b) AS target" ∅);
               do edge_rows <- call (result_rows neo edge_q);
               do es <- collect (fun row =>
                          do i <- index row "id";
                          do t <- index row "type";
                          do a <- index row "source";
                          do b <- index row "target";
                          ret (<["id" := i]> (<["type" := t]>
                                (<["source" := a]> (<["target" := b]> ∅)))))
                        edge_rows;
               ret (Graph ns es));
     ret (Some g, None))
    (fun exc => ret (None, Some (exn_text exc))).

(** The body shared by the three lookups, which differ in the query
    and the name of its parameter. *)
Definition lookup (cypher key arg : string) : M (list record * option string) :=
  try_except
    (with_session (fun session =>
       do q <- call (session_run neo session cypher (<[key := VStr arg]> ∅));
       do rows <- call (result_rows neo q);
       ret (rows, None)))
    (fun exc => ret ([], Some (exn_text exc))).

Definition get_courses_by_teacher (teacher : string) : M (list record * option string) :=
  lookup "
        MATCH (t:Teacher {name: $teacher})<-[:TAUGHT_BY]-(c:Course)
        RETURN c.code AS code, c.title AS title
        ORDER BY c.code
        " "teacher" teacher.

Definition get_courses_by_dept (dept : string) : M (list record * option string) :=
  lookup "
        MATCH (d:Department {name: $dept})<-[:BELONGS_TO]-(c:Course)
        RETURN c.code AS code, c.title AS title
        ORDER BY c.code
        " "dept" dept.

Definition get_courses_by_semester (semester : string) : M (list record * option string) :=
  lookup "
        MATCH (s:Semester {name: $semester})<-[:OFFERED_IN]-(c:Course)
        RETURN c.code AS code, c.title AS title
        ORDER BY c.code
        " "semester" semester.

End WithDriver.

(** The shape of a (status, error) pair: success without error, or
    failure with the text of an exception. *)
Definition status_pair (r : bool * option string) : Prop :=
  r = (true, None) ∨ ∃ e, r = (false, Some (exn_text e)).

(** The shape of a (value, error) pair. *)
Definition value_pair {A} (r : option A * option string) : Prop :=
  (∃ v, r = (Some v, None)) ∨ ∃ e, r = (None, Some (exn_text e)).

(** The shape of a (rows, error) pair: an error comes with no row. *)
Definition rows_pair (r : list record * option string) : Prop :=
  (∃ rows, r = (rows, None)) ∨ ∃ e, r = ([], Some (exn_text e)).

End KG.

(** ** Reference definitions, in the words of the specification *)

Module Spec.

(** Two strings are equal up to case. *)
Definition eq_nocase (a b : string) : Prop := Str.lower a = Str.lower b.

#[global] Instance eq_nocase_dec a b : Decision (eq_nocase a b).
Proof. unfold eq_nocase. apply _. Defined.

(** The codes of the Catalog's courses of a teacher (exact name), of a
    department (code up to case) and of a semester (name up to case), in
    Catalog order. *)
Definition codes_by_teacher (data : list course_rec) (t : string) : list string :=
  course <$> filter (fun c => teacher c = t) data.
Definition codes_by_dept (data : list course_rec) (d : string) : list string :=
  course <$> filter (fun c => eq_nocase (dept c) d) data.
Definition codes_by_semester (data : list course_rec) (s : string) : list string :=
  course <$> filter (fun c => eq_nocase (semester c) s) data.

(** A course code is absent from the Catalog when no record carries it,
    codes being compared in upper case as the Catalog index does. *)
Definition absent (data : list course_rec) (code : string) : Prop :=
  ∀ c, c ∈ data → Str.upper (course c) ≠ Str.upper code.

(** The keywords of the help rule. *)
Definition help_keywords : list string := ["help"; "commands"; "what can you do"].

(** The single-course intents. *)
Definition single_course_intents : list string :=
  ["course_teacher"; "course_title"; "course_credit"; "course_semester"; "course_info"].

(** The Catalog records that a list of rows resolves to. *)
Definition resolved (data : list course_rec) (rows : list Chatbot.row) : list course_rec :=
  omap (fun r => Chatbot.by_code data !! Str.upper (Chatbot.code r)) rows.

(** The three lookups, with the intent, the entity, the Graph Index
    operation and the logged call of each. *)
Inductive lookup_kind : Type := ByTeacher | ByDept | BySemester.

Definition intent_of (kind : lookup_kind) : string :=
  match kind with
  | ByTeacher => "teacher_courses"
  | ByDept => "dept_courses"
  | BySemester => "semester_courses"
  end.

Definition entity_of (kind : lookup_kind) : string :=
  match kind with
  | ByTeacher => "teacher"
  | ByDept => "dept"
  | BySemester => "semester"
  end.

Definition query_of {G} (kg : Chatbot.GraphIndex G) (kind : lookup_kind)
    : string -> G -> (list Chatbot.row * option string) * G :=
  match kind with
  | ByTeacher => Chatbot.get_courses_by_teacher kg
  | ByDept => Chatbot.get_courses_by_dept kg
  | BySemester => Chatbot.get_courses_by_semester kg
  end.

Definition event_of (kind : lookup_kind) : string -> Chatbot.event :=
  match kind with
  | ByTeacher => Chatbot.EvByTeacher
  | ByDept => Chatbot.EvByDept
  | BySemester => Chatbot.EvBySemester
  end.

(** Filtering the Catalog directly by an entity value. *)
Definition catalog_codes (data : list course_rec) (kind : lookup_kind) (x : string)
    : list string :=
  match kind with
  | ByTeacher => codes_by_teacher data x
  | ByDept => codes_by_dept data x
  | BySemester => codes_by_semester data x
  end.

(** The reply that lists the codes [codes] for the entity value [x], and
    the reply when there is none. *)
Definition listing (kind : lookup_kind) (x : string) (codes : list string) : string :=
  let course_list := Str.join ", " codes in
  match kind with
  | ByTeacher =>
      x +:+ " er courses: " +:+ course_list +:+ ". "
        +:+ "(Courses taught by " +:+ x +:+ ": " +:+ course_list +:+ ".)"
  | ByDept =>
      x +:+ " department er courses: " +:+ course_list +:+ ". "
        +:+ "(Courses in " +:+ x +:+ " department: " +:+ course_list +:+ ".)"
  | BySemester =>
      x +:+ " er courses: " +:+ course_list +:+ ". "
        +:+ "(Courses offered in " +:+ x +:+ ": " +:+ course_list +:+ ".)"
  end.

Definition no_courses (kind : lookup_kind) : string :=
  match kind with
  | ByTeacher => "No courses found for that teacher."
  | ByDept => "No courses found for that department."
  | BySemester => "No courses found for that semester."
  end.

Definition lookup_reply (kind : lookup_kind) (x : string) (codes : list string)
    (suffix : string) : string :=
  match codes with
  | [] => no_courses kind
  | _ => listing kind x codes +:+ suffix
  end.

(** The rows a lookup reply is built from: those of the Graph Index when
    it gave some, those of the Catalog otherwise. *)
Definition rows_or (found fallback : list Chatbot.row) : list Chatbot.row :=
  match found with
  | [] => fallback
  | _ => found
  end.

Definition catalog_rows (data : list course_rec) (kind : lookup_kind) (x : string)
    : list Chatbot.row :=
  match kind with
  | ByTeacher => Chatbot.row_of <$> filter (fun c => teacher c = x) data
  | ByDept => Chatbot.row_of <$> filter (fun c => eq_nocase (dept c) x) data
  | BySemester => Chatbot.row_of <$> filter (fun c => eq_nocase (semester c) x) data
  end.

(** The character that stands before a suffix of a text: the last
    character of the prefix [pre], or [pv] when the prefix is empty. *)
Fixpoint last_char (pv : option ascii) (pre : string) : option ascii :=
  match pre with
  | EmptyString => pv
  | String c pre' => last_char (Some c) pre'
  end.

(** [s] starts with a course code, [pv] being the character before it:
    three upper-case letters, at most one whitespace character, three
    digits, no word character directly before or after; [c] is the code,
    letters and digits without the separator. *)
Definition starts_code (pv : option ascii) (s c : string) : Prop :=
  ∃ l1 l2 l3 sep d1 d2 d3 post,
    s = String l1 (String l2 (String l3 (sep +:+ String d1 (String d2 (String d3 post))))) ∧
    c = String l1 (String l2 (String l3 (String d1 (String d2 (String d3 ""))))) ∧
    Str.is_upper l1 = true ∧ Str.is_upper l2 = true ∧ Str.is_upper l3 = true ∧
    (sep = "" ∨ ∃ w, Str.is_space w = true ∧ sep = String w "") ∧
    Str.is_digit d1 = true ∧ Str.is_digit d2 = true ∧ Str.is_digit d3 = true ∧
    Re.word_opt pv = false ∧ Re.word_opt (Re.next post) = false.

(** A code [c] stands in [s] right after the prefix [pre], [pv] being
    the character before [s]. *)
Definition starts_at (pv : option ascii) (s pre c : string) : Prop :=
  ∃ s', s = pre +:+ s' ∧ starts_code (last_char pv pre) s' c.



(** The same test as a function: the code that [s] starts with. *)
Definition code_here (pv : option ascii) (s : string) : option string :=
  match s with
  | String l1 (String l2 (String l3 s3)) =>
      let s4 := match s3 with
                | String w s4 => if Str.is_space w then s4 else s3
                | EmptyString => s3
                end in
      match s4 with
      | String d1 (String d2 (String d3 post)) =>
          if negb (Re.word_opt pv)
             && Str.is_upper l1 && Str.is_upper l2 && Str.is_upper l3
             && Str.is_digit d1 && Str.is_digit d2 && Str.is_digit d3
             && negb (Re.word_opt (Re.next post))
          then Some (String l1 (String l2 (String l3
                      (String d1 (String d2 (String d3 ""))))))
          else None
      | _ => None
      end
  | _ => None
  end.

(** The first code met when scanning [s] from left to right. *)
Fixpoint scan_code (pv : option ascii) (s : string) : option string :=
  match code_here pv s with
  | Some c => Some c
  | None =>
      match s with
      | EmptyString => None
      | String x s' => scan_code (Some x) s'
      end
  end.

(** The text of [f"{group(1)}{group(2)}"] for a match object. *)
Definition code_of (mt : gmap nat string) : string :=
  Chatbot.fmt (Re.group mt 1) +:+ Chatbot.fmt (Re.group mt 2).

(** The advisory suffix of a reply: present when an index is configured
    and its health probe failed. *)
Definition advisory {G} (kg : option (Chatbot.GraphIndex G)) (healthy : bool) : string :=
  match kg with
  | Some _ => if healthy then "" else Chatbot.warning_text
  | None => ""
  end.

(** The keyword families of the classifier. *)
Definition graph_keywords : list string := ["graph"; "kg"].
Definition teacher_keywords : list string := ["teacher"; "teach"; "teaches"; "instructor"].
Definition title_keywords : list string := ["title"; "name"].
Definition credit_keywords : list string := ["credit"; "credits"].
Definition semester_keywords : list string := ["semester"; "term"].
Definition teacher_courses_keywords : list string := ["courses"; "teach"; "teaches"].
Definition dept_courses_keywords : list string := ["department"; "dept"; "courses"].
Definition semester_courses_keywords : list string := ["courses"; "offered"].

(** The rules of the classifier in their precedence order: whether the
    rule applies to the utterance and its entities, and the intent it
    gives.  Rule 3 of the specification, the dispatch on a course code, is
    written as its five cases. *)
Definition rules (text : string) (ents : Chatbot.entities) : list (bool * string) :=
  let present e := Str.truthy (Chatbot.get ents e) in
  let keyword ks := Str.any_in ks (Str.lower text) in
  [ (keyword help_keywords, "help");
    (keyword graph_keywords, "graph_show");
    (present "course_code" && keyword teacher_keywords, "course_teacher");
    (present "course_code" && keyword title_keywords, "course_title");
    (present "course_code" && keyword credit_keywords, "course_credit");
    (present "course_code" && keyword semester_keywords, "course_semester");
    (present "course_code", "course_info");
    (present "teacher" && keyword teacher_courses_keywords, "teacher_courses");
    (present "dept" && keyword dept_courses_keywords, "dept_courses");
    (present "semester" && keyword semester_courses_keywords, "semester_courses") ].

(** The first rule that applies wins. *)
Fixpoint first_match (rs : list (bool * string)) (otherwise : string) : string :=
  match rs with
  | [] => otherwise
  | (applies, intent) :: rs' => if applies then intent else first_match rs' otherwise
  end.

Definition classify (text : string) (ents : Chatbot.entities) : string :=
  first_match (rules text ents) "unknown".

End Spec.

(** ** Shapes of entities, intents and logs *)

Module Shape.

(** A course code in canonical form: three upper-case letters followed by
    three digits. *)
Definition canonical_code (c : string) : Prop :=
  ∃ l1 l2 l3 d1 d2 d3,
    c = String l1 (String l2 (String l3 (String d1 (String d2 (String d3 ""))))) ∧
    Str.is_upper l1 = true ∧ Str.is_upper l2 = true ∧ Str.is_upper l3 = true ∧
    Str.is_digit d1 = true ∧ Str.is_digit d2 = true ∧ Str.is_digit d3 = true.

(** The seasons of [SEMESTER_RE], as written there. *)
Definition seasons : list string := ["Spring"; "Summer"; "Fall"; "Autumn"; "Winter"].

(** A semester in canonical form: a season, one space, four digits. *)
Definition canonical_semester (s : string) : Prop :=
  ∃ season d1 d2 d3 d4,
    season ∈ seasons ∧
    s = season +:+ " " +:+ String d1 (String d2 (String d3 (String d4 ""))) ∧
    Str.is_digit d1 = true ∧ Str.is_digit d2 = true ∧
    Str.is_digit d3 = true ∧ Str.is_digit d4 = true.

(** A record of the Catalog whose texts are ASCII. *)
Definition ascii_record (c : course_rec) : bool :=
  Str.isascii (course c) && Str.isascii (title c) && Str.isascii (teacher c)
  && Str.isascii (dept c) && Str.isascii (semester c).

(** A Catalog in ASCII. *)
Definition ascii_catalog (data : list course_rec) : bool := forallb ascii_record data.

(** The intents that [detect_intent] can return. *)
Definition intents : list string :=
  ["help"; "graph_show"; "course_teacher"; "course_title"; "course_credit";
   "course_semester"; "course_info"; "teacher_courses"; "dept_courses";
   "semester_courses"; "unknown"].

(** A call that may follow the health probe of a request: never a second
    probe, and an upsert only of a record of the Catalog. *)
Definition follows_probe (data : list course_rec) (e : Chatbot.event) : Prop :=
  match e with
  | Chatbot.EvHealth => False
  | Chatbot.EvUpsert c => c ∈ data
  | _ => True
  end.

End Shape.

(** ** Observing the calls made to the Neo4j driver *)

Module Trace.

(** A call to the driver: creating the driver, opening a session (with the
    session obtained, if any), closing the driver, running a query on a
    session, reading a result, leaving a session. *)
Inductive dev (S : Type) : Type :=
| DConnect
| DOpen (s : option S)
| DClose
| DRun (s : S) (cypher : string)
| DFetch
| DExit (s : S).
Arguments DConnect {S}.
Arguments DOpen {S}.
Arguments DClose {S}.
Arguments DRun {S}.
Arguments DFetch {S}.
Arguments DExit {S}.

Definition returned {A} (r : KG.outcome A) : option A :=
  match r with
  | KG.Returns a => Some a
  | KG.Raises _ => None
  end.

(** Run a driver call and record it, oldest call first. *)
Definition note {W S A} (e : KG.outcome A -> dev S) (f : W -> KG.outcome A * W)
    : W * list (dev S) -> KG.outcome A * (W * list (dev S)) :=
  fun '(w, log) => let (r, w') := f w in (r, (w', log ++ [e r])).

(** [traced neo] behaves as [neo] and records every call. *)
Definition traced {W D S Q} (neo : KG.Neo4j W D S Q) : KG.Neo4j (W * list (dev S)) D S Q :=
  {| KG.GraphDatabase_driver := fun u a => note (fun _ => DConnect) (KG.GraphDatabase_driver neo u a);
     KG.driver_session := fun d db => note (fun r => DOpen (returned r)) (KG.driver_session neo d db);
     KG.driver_close := fun d => note (fun _ => DClose) (KG.driver_close neo d);
     KG.session_run := fun s c p => note (fun _ => DRun s c) (KG.session_run neo s c p);
     KG.session_exit := fun s b => note (fun _ => DExit s) (KG.session_exit neo s b);
     KG.result_consume := fun q => note (fun _ => DFetch) (KG.result_consume neo q);
     KG.result_single := fun q => note (fun _ => DFetch) (KG.result_single neo q);
     KG.result_rows := fun q => note (fun _ => DFetch) (KG.result_rows neo q) |}.

(** The calls made within a session [s]: queries on [s] and reads. *)
Definition within {S} (s : S) (e : dev S) : Prop :=
  match e with
  | DRun s' _ => s' = s
  | DFetch => True
  | _ => False
  end.

(** The calls of one operation of the Graph Index: the driver is created
    at most once and first; then either no session is obtained, or one is,
    the queries run on it, and leaving it is the last call. *)
Definition one_session {S} (evs : list (dev S)) : Prop :=
  ∃ pre, (pre = [] ∨ pre = [DConnect]) ∧
    (evs = pre ∨ evs = pre ++ [DOpen None] ∨
     ∃ s mid, evs = pre ++ [DOpen (Some s)] ++ mid ++ [DExit s] ∧ Forall (within s) mid).

(** A computation that, whatever happens, only makes calls within the
    session [s]. *)
Definition quiet_on {W D S A} (s : S)
    (c : KG.M (D:=D) (W:=W * list (dev S)) A) : Prop :=
  ∀ self w log, ∃ evs,
    snd (snd (snd (c (self, (w, log))))) = log ++ evs ∧ Forall (within s) evs.

(** An operation whose calls, in every world, are those of one scoped
    session, with no driver created when the object holds one. *)
Definition scoped {W D S A} (c : KG.M (D:=D) (W:=W * list (dev S)) A) : Prop :=
  ∀ self w log, ∃ evs,
    snd (snd (snd (c (self, (w, log))))) = log ++ evs ∧ one_session evs ∧
    (is_Some (KG.driver self) → DConnect ∉ evs).

End Trace.

(** ** Observing what the Neo4j driver answers *)

Module Watch.

(** What is seen of the driver during an operation: an exception raised
    by one of its calls, a query that was run, the record or the records
    that a result gave. *)
Inductive obs : Type :=
| Raised (exc : KG.exn)
| Ran (cypher : string) (params : gmap string KG.value)
| Single (rcd : option KG.record)
| Rows (rows : list KG.record).

(** The exceptions that the driver raised, oldest first. *)
Definition raised (evs : list obs) : list KG.exn :=
  omap (fun o => match o with Raised e => Some e | _ => None end) evs.

(** The last exception that the driver raised, if it raised any. *)
Definition failure (evs : list obs) : option KG.exn := last (raised evs).

(** Run a driver call and record what is seen of it. *)
Definition note {W A} (seen : A -> list obs) (f : W -> KG.outcome A * W)
    : W * list obs -> KG.outcome A * (W * list obs) :=
  fun '(w, log) =>
    let (r, w') := f w in
    (r, (w', log ++ match r with
                    | KG.Returns a => seen a
                    | KG.Raises e => [Raised e]
                    end)).

(** [watched neo] behaves as [neo] and records its exceptions, the
    queries it ran and the records it gave. *)
Definition watched {W D S Q} (neo : KG.Neo4j W D S Q) : KG.Neo4j (W * list obs) D S Q :=
  {| KG.GraphDatabase_driver := fun u a => note (fun _ => []) (KG.GraphDatabase_driver neo u a);
     KG.driver_session := fun d db => note (fun _ => []) (KG.driver_session neo d db);
     KG.driver_close := fun d => note (fun _ => []) (KG.driver_close neo d);
     KG.session_run := fun s c p => note (fun _ => [Ran c p]) (KG.session_run neo s c p);
     KG.session_exit := fun s b => note (fun _ => []) (KG.session_exit neo s b);
     KG.result_consume := fun q => note (fun _ => []) (KG.result_consume neo q);
     KG.result_single := fun q => note (fun r => [Single r]) (KG.result_single neo q);
     KG.result_rows := fun q => note (fun rows => [Rows rows]) (KG.result_rows neo q) |}.

(** A computation over a watched driver that returns, with a result and
    observations that satisfy [P]. *)
Definition returns {W D A} (c : KG.M (D:=D) (W:=W * list obs) A)
    (self : KG.KnowledgeGraph D) (w : W) (log : list obs)
    (P : A -> list obs -> Prop) : Prop :=
  ∃ r self' w' evs,
    c (self, (w, log)) = (KG.Returns r, (self', (w', log ++ evs))) ∧ P r evs.

(** A computation over a watched driver tracks the driver: when it
    returns the driver raised nothing and [good] holds; when it raises,
    the exception is the last that the driver raised, or the driver raised
    nothing and the exception is one of its own, for which [bad] holds. *)
Definition tracks {W D A} (c : KG.M (D:=D) (W:=W * list obs) A)
    (good : A -> list obs -> Prop) (bad : KG.exn -> list obs -> Prop) : Prop :=
  ∀ self w log, ∃ evs,
    snd (snd (snd (c (self, (w, log))))) = log ++ evs ∧
    match fst (c (self, (w, log))) with
    | KG.Returns a => raised evs = [] ∧ good a evs
    | KG.Raises e => failure evs = Some e ∨ (raised evs = [] ∧ bad e evs)
    end.

(** The report of a (status, error) operation that runs [queries]:
    success exactly when the driver raised nothing, and then all the
    queries were run; otherwise failure with the text of the last
    exception of the driver. *)
Definition status_report (queries : list obs) (r : bool * option string)
    (evs : list obs) : Prop :=
  match failure evs with
  | None => r = (true, None) ∧ evs = queries
  | Some e => r = (false, Some (KG.exn_text e))
  end.

(** The report of a lookup with the parameters [params]: the records that
    the driver gave for the query when it raised nothing; otherwise the
    empty list with the text of the last exception of the driver. *)
Definition rows_report (params : gmap string KG.value)
    (r : list KG.record * option string) (evs : list obs) : Prop :=
  match failure evs with
  | None => ∃ cypher, evs = [Ran cypher params; Rows (fst r)] ∧ snd r = None
  | Some e => r = ([], Some (KG.exn_text e))
  end.

(** [str(KeyError(k))] *)
Definition key_error (k : string) : string := "'" +:+ k +:+ "'".

(** What [summary] makes of the record that the query gave. *)
Definition summary_of (rcd : option KG.record)
    : option (KG.value * KG.value) * option string :=
  match rcd with
  | None => (Some (KG.VInt 0, KG.VInt 0), None)
  | Some row =>
      match row !! "nodes", row !! "rels" with
      | Some n, Some e => (Some (n, e), None)
      | None, _ => (None, Some (key_error "nodes"))
      | Some _, None => (None, Some (key_error "rels"))
      end
  end.

Definition summary_report (r : option (KG.value * KG.value) * option string)
    (evs : list obs) : Prop :=
  match failure evs with
  | None => ∃ rcd, evs = [Ran KG.summary_cypher ∅; Single rcd] ∧ r = summary_of rcd
  | Some e => r = (None, Some (KG.exn_text e))
  end.

(** The node and the edge that [export_graph] makes of a row; [None] when
    a column is missing. *)
Definition node_of (row : KG.record) : option KG.record :=
  i ← row !! "id"; l ← row !! "label"; p ← row !! "props";
  Some (<["id" := i]> (<["type" := l]> (<["props" := p]> ∅))).

Definition edge_of (row : KG.record) : option KG.record :=
  i ← row !! "id"; t ← row !! "type"; a ← row !! "source"; b ← row !! "target";
  Some (<["id" := i]> (<["type" := t]> (<["source" := a]> (<["target" := b]> ∅)))).

Definition node_query : string :=
  "MATCH (n) RETURN id(n) AS id, labels(n)[0] AS label, properties(n) AS props".
Definition edge_query : string :=
  "MATCH (a)-[r]->(b) RETURN id(r) AS id, type(r) AS type, id(a) AS source, id(b) AS target".

(** The report of [export_graph]: when the driver raised nothing, the
    graph made of the rows of the two queries, or the text of a key error
    when a row misses a column (the edges are then not asked for when it
    is a node row); otherwise the text of the last exception of the
    driver. *)
Definition export_report (r : option KG.graph * option string) (evs : list obs) : Prop :=
  match failure evs with
  | None =>
      ∃ nrows,
        match mapM node_of nrows with
        | None => evs = [Ran node_query ∅; Rows nrows] ∧
                  ∃ k, r = (None, Some (key_error k))
        | Some ns =>
            ∃ erows,
              evs = [Ran node_query ∅; Rows nrows; Ran edge_query ∅; Rows erows] ∧
              match mapM edge_of erows with
              | None => ∃ k, r = (None, Some (key_error k))
              | Some es => r = (Some (KG.Graph ns es), None)
              end
        end
  | Some e => r = (None, Some (KG.exn_text e))
  end.

End Watch.

(** ** The state of a [KnowledgeGraph] object across calls *)

(** [self'] has the settings of [self], and the driver of [self] if it had
    one. *)
Definition settled {D} (self self' : KG.KnowledgeGraph D) : Prop :=
  KG.uri self' = KG.uri self ∧ KG.user self' = KG.user self ∧
  KG.password self' = KG.password self ∧ KG.database self' = KG.database self ∧
  ∀ d, KG.driver self = Some d → KG.driver self' = Some d.

(** A method that leaves the object settled, in every world. *)
Definition keeps {W D A} (c : KG.M (D:=D) (W:=W) A) : Prop :=
  ∀ st, settled (fst st) (fst (snd (c st))).

(** ** The service routes ([app.py]) *)

Module App.

Section WithDriver.
Context {W D S Q : Type}.
Variable neo : KG.Neo4j W D S Q.

Local Notation "'do' x <- c ; k" := (KG.bind c (fun x => k))
  (at level 10, x pattern, c at level 100, k at level 200).

(** An optional error text in a JSON response. *)
Definition json_opt (o : option string) : KG.value :=
  match o with
  | Some s => KG.VStr s
  | None => KG.VNull
  end.

Definition json_record (r : KG.record) : KG.value := KG.VMap (map_to_list r).

(** GET /health *)
Definition health : KG.M (D:=D) (W:=W) (gmap string KG.value) :=
  do r <- KG.health neo;
  KG.ret (<["status" := KG.VStr "ok"]>
           (<["neo4j" := KG.VStr (if fst r then "ok" else "down")]>
             (<["error" := json_opt (snd r)]> ∅))).

(** [{"nodes": 0, "edges": 0, "error": error}] *)
Definition no_summary (error : option string) : gmap string KG.value :=
  <["nodes" := KG.VInt 0]> (<["edges" := KG.VInt 0]> (<["error" := json_opt error]> ∅)).

(** GET /graph/summary *)
Definition graph_summary : KG.M (D:=D) (W:=W) (gmap string KG.value) :=
  do r <- KG.health neo;
  if negb (fst r) then KG.ret (no_summary (snd r))
  else
    do s <- KG.summary neo;
    match s with
    | (Some (n, e), err) =>
        if Str.truthy err then KG.ret (no_summary err)
        else KG.ret (<["nodes" := n]> (<["edges" := e]> ∅))
    | (None, err) => KG.ret (no_summary err)
    end.

(** [{"nodes": [], "edges": [], "error": error}] *)
Definition no_graph (error : option string) : gmap string KG.value :=
  <["nodes" := KG.VList []]> (<["edges" := KG.VList []]> (<["error" := json_opt error]> ∅)).

(** GET /graph/export *)
Definition graph_export : KG.M (D:=D) (W:=W) (gmap string KG.value) :=
  do r <- KG.health neo;
  if negb (fst r) then KG.ret (no_graph (snd r))
  else
    do x <- KG.export_graph neo;
    match x with
    | (Some g, err) =>
        if Str.truthy err then KG.ret (no_graph err)
        else KG.ret (<["nodes" := KG.VList (json_record <$> KG.nodes g)]>
                      (<["edges" := KG.VList (json_record <$> KG.edges g)]> ∅))
    | (None, err) => KG.ret (no_graph err)
    end.

(** The shutdown hook. *)
Definition shutdown_event : KG.M (D:=D) (W:=W) unit := KG.close neo.

End WithDriver.

End App.

(** ** The seeding script ([seed_neo4j.py]) *)

Module Seed.

Section WithDriver.
Context {W D S Q : Type}.
Variable neo : KG.Neo4j W D S Q.

Local Notation "'do' x <- c ; k" := (KG.bind c (fun x => k))
  (at level 10, x pattern, c at level 100, k at level 200).

(** The script runs in a world that also holds what it has printed. *)
Definition lift {A} (f : W -> KG.outcome A * W)
    : W * list string -> KG.outcome A * (W * list string) :=
  fun '(w, out) => let (r, w') := f w in (r, (w', out)).

Definition with_stdout : KG.Neo4j (W * list string) D S Q :=
  {| KG.GraphDatabase_driver := fun u a => lift (KG.GraphDatabase_driver neo u a);
     KG.driver_session := fun d db => lift (KG.driver_session neo d db);
     KG.driver_close := fun d => lift (KG.driver_close neo d);
     KG.session_run := fun s c p => lift (KG.session_run neo s c p);
     KG.session_exit := fun s b => lift (KG.session_exit neo s b);
     KG.result_consume := fun q => lift (KG.result_consume neo q);
     KG.result_single := fun q => lift (KG.result_single neo q);
     KG.result_rows := fun q => lift (KG.result_rows neo q) |}.

(** [print(line)] *)
Definition print (line : string) : KG.M (D:=D) (W:=W * list string) unit :=
  fun '(self, (w, out)) => (KG.Returns tt, (self, (w, out ++ [line]))).

(** The loop over the courses, from the count of successes so far. *)
Fixpoint seed_loop (courses : list course_rec) (success_count : nat)
    : KG.M (D:=D) (W:=W * list string) nat :=
  match courses with
  | [] => KG.ret success_count
  | c :: courses' =>
      do r <- KG.upsert_course with_stdout c;
      if fst r then seed_loop courses' (success_count + 1)
      else
        do _ <- print ("Failed to upsert " +:+ course c +:+ ": " +:+ Chatbot.fmt (snd r));
        seed_loop courses' success_count
  end.

Definition seeded_line (success_count : nat) : string :=
  "Seeded " +:+ Str.of_Z (Z.of_nat success_count) +:+ " courses into Neo4j.".

(** [main], given the courses that [load_courses] returned. *)
Definition main (courses : list course_rec) : KG.M (D:=D) (W:=W * list string) unit :=
  do r <- KG.ensure_constraints with_stdout;
  do _ <- (if negb (fst r)
           then print ("Failed to apply constraints: " +:+ Chatbot.fmt (snd r))
           else KG.ret tt);
  do success_count <- seed_loop courses 0;
  do _ <- print (seeded_line success_count);
  KG.close with_stdout.

End WithDriver.

(** A computation that prints nothing. *)
Definition silent {W D A} (c : KG.M (D:=D) (W:=W * list string) A) : Prop :=
  forall self w out, snd (snd (snd (c (self, (w, out))))) = out.

(** [c'], run by the script, does what [c] does and leaves the output as
    it is. *)
Definition lifts {W D A} (c' : KG.M (D:=D) (W:=W * list string) A)
    (c : KG.M (D:=D) (W:=W) A) : Prop :=
  forall self w out,
    c' (self, (w, out)) = let '(r, (self', w')) := c (self, w) in (r, (self', (w', out))).

(** The line that the script prints about the constraints, given what was
    seen of the driver while they were applied: none when the driver
    raised nothing. *)
Definition constraints_lines (seen : list Watch.obs) : list string :=
  match Watch.failure seen with
  | None => []
  | Some e => ["Failed to apply constraints: " +:+ KG.exn_text e]
  end.

(** The line that the script prints about a course, given what was seen
    of the driver during its upsert: none when the driver raised nothing. *)
Definition upsert_lines (c : course_rec) (seen : list Watch.obs) : list string :=
  match Watch.failure seen with
  | None => []
  | Some e => ["Failed to upsert " +:+ course c +:+ ": " +:+ KG.exn_text e]
  end.

(** The lines about the courses, in their order. *)
Fixpoint report (courses : list course_rec) (seen : list (list Watch.obs)) : list string :=
  match courses, seen with
  | c :: courses', s :: seen' => upsert_lines c s ++ report courses' seen'
  | _, _ => []
  end.

(** The number of upserts during which the driver raised nothing. *)
Fixpoint written (seen : list (list Watch.obs)) : nat :=
  match seen with
  | [] => 0
  | s :: seen' =>
      match Watch.failure s with
      | None => 1 + written seen'
      | Some _ => written seen'
      end
  end.

(** What is seen during the upsert of a course when the driver raises
    nothing: the upsert query with the fields of the course. *)
Definition upserted (c : course_rec) (s : list Watch.obs) : Prop :=
  Watch.failure s = None -> s = [Watch.Ran KG.upsert_cypher (KG.upsert_params c)].

End Seed.

(** ** Test doubles *)

Definition catalog_ex : list course_rec :=
  [ Course "CSE411" "Algorithms" "Dr. A" "CSE" "Fall 2024" 3;
    Course "CSE101" "Programming" "Jane Smith" "CSE" "Spring 2025" 3;
    Course "EEE201" "Circuits" "Jane" "EEE" "Fall 2024" 4 ].

(** A Graph Index double: fixed answers, the state counts the calls. *)
Definition fixed_kg (ok : bool) (rows : list Chatbot.row) (err : option string)
    : Chatbot.GraphIndex nat :=
  {| Chatbot.health := fun n => ((ok, if ok then None else Some "down"), S n);
     Chatbot.upsert_course := fun _ n => ((true, None), S n);
     Chatbot.summary := fun n => ((Some (7%Z, 9%Z), None), S n);
     Chatbot.get_courses_by_teacher := fun _ n => ((rows, err), S n);
     Chatbot.get_courses_by_dept := fun _ n => ((rows, err), S n);
     Chatbot.get_courses_by_semester := fun _ n => ((rows, err), S n) |}.

(** [kg] with its upsert replaced. *)
Definition with_upsert {G} (kg : Chatbot.GraphIndex G)
    (u : course_rec -> G -> (bool * option string) * G) : Chatbot.GraphIndex G :=
  {| Chatbot.health := Chatbot.health kg;
     Chatbot.upsert_course := u;
     Chatbot.summary := Chatbot.summary kg;
     Chatbot.get_courses_by_teacher := Chatbot.get_courses_by_teacher kg;
     Chatbot.get_courses_by_dept := Chatbot.get_courses_by_dept kg;
     Chatbot.get_courses_by_semester := Chatbot.get_courses_by_semester kg |}.


(** A Neo4j driver that is down: opening a session raises. *)
Definition neo_down : KG.Neo4j unit unit unit unit :=
  {| KG.GraphDatabase_driver := fun _ _ w => (KG.Returns tt, w);
     KG.driver_session := fun _ _ w => (KG.Raises (KG.Exn "connection refused"), w);
     KG.driver_close := fun _ w => (KG.Returns tt, w);
     KG.session_run := fun _ _ _ w => (KG.Returns tt, w);
     KG.session_exit := fun _ _ w => (KG.Returns tt, w);
     KG.result_consume := fun _ w => (KG.Returns tt, w);
     KG.result_single := fun _ w => (KG.Returns None, w);
     KG.result_rows := fun _ w => (KG.Returns [], w) |}.

Definition kg_obj : KG.KnowledgeGraph unit :=
  {| KG.uri := "bolt://localhost:7687"; KG.user := "neo4j"; KG.password := "password";
     KG.database := None; KG.driver := None |}.

(** * Properties *)

(** ** Worked examples *)

Example upper_ex : Str.upper "Cse 411" = "CSE 411".
Proof. reflexivity. Qed.
Example title_ex : Str.title "sPRING" = "Spring".
Proof. reflexivity. Qed.
Example split_ex : Str.split "Fall  2024" = ["Fall"; "2024"].
Proof. reflexivity. Qed.
Example contains_ex : Str.contains "kg" "background" = true.
Proof. reflexivity. Qed.
Example of_Z_ex : Str.of_Z 3 = "3".
Proof. reflexivity. Qed.

Example course_code_re_ex :
  Re.search COURSE_CODE_RE "WHO TEACHES CSE 411?"
  = Some (<[2 := "411"]> (<[1 := "CSE"]> (<[0 := "CSE 411"]> ∅))).
Proof. vm_compute. reflexivity. Qed.
Example semester_re_ex :
  Re.search SEMESTER_RE "courses in fall  2024 please"
  = Some (<[1 := "fall"]> (<[0 := "fall  2024"]> ∅)).
Proof. vm_compute. reflexivity. Qed.

Example extract_ex :
  Chatbot.extract_entities catalog_ex "Which cse courses does jane smith teach in fall 2024?"
  = Some (<["course_code" := None]>
           (<["teacher" := Some "Jane Smith"]>
             (<["dept" := Some "CSE"]>
               (<["semester" := Some "Fall 2024"]> ∅)))).
Proof. vm_compute. reflexivity. Qed.

Example detect_ex :
  Chatbot.detect_intent "who teaches CSE411"
    (default ∅ (Chatbot.extract_entities catalog_ex "who teaches CSE411"))
  = "course_teacher".
Proof. vm_compute. reflexivity. Qed.

(** End-to-end scenario 1 of the specification. *)
Example process_ex1 :
  Chatbot.process catalog_ex (Some (Chatbot.logged (fixed_kg true [] None)))
    "who teaches CSE411" (0, [])
  = Some (("CSE411 course er teacher: Dr. A. (Teacher of CSE411 is Dr. A.)",
           "course_teacher",
           <["course_code" := Some "CSE411"]>
             (<["teacher" := None]> (<["dept" := None]> (<["semester" := None]> ∅)))),
          (2, [Chatbot.EvHealth;
               Chatbot.EvUpsert (Course "CSE411" "Algorithms" "Dr. A" "CSE" "Fall 2024" 3)])).
Proof. vm_compute. reflexivity. Qed.

(** End-to-end scenario 2, with the index down. *)
Example process_ex2 :
  fst <$> Chatbot.process catalog_ex (Some (fixed_kg false [] None))
    "CSE department courses" 0
  = Some ("CSE department er courses: CSE411, CSE101. (Courses in CSE department: CSE411, CSE101.) Neo4j down, dataset result dekhacchi.",
          "dept_courses",
          <["course_code" := None]>
             (<["teacher" := None]> (<["dept" := Some "CSE"]> (<["semester" := None]> ∅)))).
Proof. vm_compute. reflexivity. Qed.

(** End-to-end scenario 3: no index configured. *)
Example process_ex3 :
  fst <$> Chatbot.process (G:=unit) catalog_ex None "graph status" tt
  = Some ("Graph unavailable. Neo4j is not running.", "graph_show",
          <["course_code" := None]>
             (<["teacher" := None]> (<["dept" := None]> (<["semester" := None]> ∅)))).
Proof. vm_compute. reflexivity. Qed.

Example kg_down_ex :
  fst (KG.get_courses_by_teacher neo_down "Dr. A" (kg_obj, tt))
  = KG.Returns ([], Some "connection refused").
Proof. vm_compute. reflexivity. Qed.

(** ** Strings *)

Section StringFacts.

Lemma startswith_map f s t :
  Str.startswith s t = true → Str.startswith (Str.map f s) (Str.map f t) = true.
Proof.
  revert t. induction s as [|a s IH]; intros [|b t]; simpl; try done.
  destruct (Ascii.eqb_spec a b) as [->|]; [|done].
  rewrite Ascii.eqb_refl. apply IH.
Qed.

Lemma contains_map f s t :
  Str.contains s t = true → Str.contains (Str.map f s) (Str.map f t) = true.
Proof.
  induction t as [|b t IH]; simpl.
  - rewrite !orb_false_r. apply (startswith_map f s "").
  - intros [H|H]%orb_true_iff.
    + apply (startswith_map f) in H. simpl in H. by rewrite H.
    + rewrite (IH H). apply orb_true_r.
Qed.

(** Containment survives lower-casing both sides. *)
Lemma contains_lower s t :
  Str.contains s t = true → Str.contains (Str.lower s) (Str.lower t) = true.
Proof. apply contains_map. Qed.





Lemma lower_upper_char c : Str.lower_char (Str.upper_char c) = Str.lower_char c.
Proof. destruct c as [[] [] [] [] [] [] [] []]; reflexivity. Qed.

Lemma upper_lower_char c : Str.upper_char (Str.lower_char c) = Str.upper_char c.
Proof. destruct c as [[] [] [] [] [] [] [] []]; reflexivity. Qed.

Lemma lower_upper s : Str.lower (Str.upper s) = Str.lower s.
Proof.
  induction s as [|a s IH]; [done|].
  change (String (Str.lower_char (Str.upper_char a)) (Str.lower (Str.upper s))
          = String (Str.lower_char a) (Str.lower s)).
  by rewrite lower_upper_char, IH.
Qed.

Lemma upper_lower s : Str.upper (Str.lower s) = Str.upper s.
Proof.
  induction s as [|a s IH]; [done|].
  change (String (Str.upper_char (Str.lower_char a)) (Str.upper (Str.lower s))
          = String (Str.upper_char a) (Str.upper s)).
  by rewrite upper_lower_char, IH.
Qed.

(** Comparing in upper case is comparing in lower case. *)
Lemma upper_eq_iff_lower_eq a b :
  Str.upper a = Str.upper b ↔ Str.lower a = Str.lower b.
Proof.
  split; intros H.
  - rewrite <- (lower_upper a), <- (lower_upper b). by rewrite H.
  - rewrite <- (upper_lower a), <- (upper_lower b). by rewrite H.
Qed.

Lemma append_cons a s t : String a s +:+ t = String a (s +:+ t).
Proof. reflexivity. Qed.

Lemma endswith_refl s : Str.endswith s s = true.
Proof. destruct s; cbn [Str.endswith]; by rewrite String.eqb_refl. Qed.

Lemma endswith_append s t : Str.endswith t (s +:+ t) = true.
Proof.
  induction s as [|a s IH].
  - apply endswith_refl.
  - rewrite append_cons. cbn [Str.endswith]. rewrite IH. apply orb_true_r.
Qed.

End StringFacts.

(** ** Intent classification *)

(** C4.  The classifier applies its rules in the fixed order, the first
    rule that applies giving the intent and [unknown] being given when
    none applies: [detect_intent] is the first match over the rules of
    the specification in their order.  In particular the help rule comes
    first: an utterance that contains a help keyword (as typed, or once
    put in lower case) is classified [help] whatever else it contains and
    whatever entities were extracted, so a mention of "graph", "kg" or a
    course code does not matter. *)
Theorem detect_intent_help_first (text : string) (ents : Chatbot.entities) :
  Chatbot.detect_intent text ents = Spec.classify text ents ∧
  ∀ k, k ∈ Spec.help_keywords →
    Str.contains k text = true ∨ Str.contains k (Str.lower text) = true →
    Chatbot.detect_intent text ents = "help".
Proof.
  split.
  - unfold Spec.classify, Spec.rules, Chatbot.detect_intent.
    cbn [Spec.first_match].
    change (Str.any_in Spec.graph_keywords (Str.lower text))
      with (Str.contains "graph" (Str.lower text)
            || (Str.contains "kg" (Str.lower text) || false)).
    rewrite orb_false_r.
    fold Spec.help_keywords.
    destruct (Str.any_in Spec.help_keywords _); [done|].
    destruct (_ || _); [done|].
    destruct (Str.truthy (Chatbot.get ents "course_code")); cbn [andb]; [done|].
    reflexivity.
  - intros k Hk Hin.
    assert (Hl : Str.contains k (Str.lower text) = true).
    { destruct Hin as [H|H]; [|done].
      apply contains_lower in H.
      unfold Spec.help_keywords in Hk.
      repeat (apply elem_of_cons in Hk as [->|Hk]; [exact H|]).
      by apply elem_of_nil in Hk. }
    assert (Hany : Str.any_in Spec.help_keywords (Str.lower text) = true).
    { unfold Str.any_in. apply existsb_exists. exists k. split; [|done].
      by apply list_elem_of_In. }
    unfold Chatbot.detect_intent. fold Spec.help_keywords. by rewrite Hany.
Qed.

(** "help me with the graph", with a course code thrown in, is [help]. *)
Lemma detect_intent_help_first_witness :
  Str.contains "graph" "help me with the graph for CSE411" = true ∧
  Chatbot.detect_intent "help me with the graph for CSE411"
    (<["course_code" := Some "CSE411"]> ∅) = "help".
Proof.
  split; [reflexivity|].
  apply (proj2 (detect_intent_help_first _ _) "help").
  - unfold Spec.help_keywords. apply elem_of_cons. by left.
  - left. reflexivity.
Defined.

Example help_me_with_the_graph (ents : Chatbot.entities) :
  Chatbot.detect_intent "help me with the graph" ents = "help".
Proof. reflexivity. Qed.

(** C9.  Keywords are looked for as raw substrings of the lower-cased
    text: "kg" or "graph" anywhere, even inside a longer word, gives
    [graph_show] when no help keyword occurs, and "help" anywhere, even
    inside a longer word, gives [help]. *)
Theorem detect_intent_substring (text : string) (ents : Chatbot.entities) :
  (Str.any_in Spec.help_keywords (Str.lower text) = false →
   Str.contains "kg" (Str.lower text) = true ∨ Str.contains "graph" (Str.lower text) = true →
   Chatbot.detect_intent text ents = "graph_show") ∧
  (Str.contains "help" (Str.lower text) = true →
   Chatbot.detect_intent text ents = "help").
Proof.
  split.
  - intros Hno Hg. unfold Chatbot.detect_intent. fold Spec.help_keywords. rewrite Hno.
    destruct Hg as [-> | ->]; [by rewrite orb_true_r | done].
  - intros Hh. unfold Chatbot.detect_intent. simpl. by rewrite Hh.
Qed.

(** "background" holds "kg", "helpful" holds "help". *)
Lemma detect_intent_substring_witness :
  Chatbot.detect_intent "some background" ∅ = "graph_show" ∧
  Chatbot.detect_intent "that was helpful" ∅ = "help".
Proof.
  split.
  - apply (proj1 (detect_intent_substring "some background" ∅)).
    + reflexivity.
    + left. reflexivity.
  - apply (proj2 (detect_intent_substring "that was helpful" ∅)). reflexivity.
Defined.

(** ** The Graph Index never raises *)

Section KGFacts.
Context {W D S Q : Type}.
Variable neo : KG.Neo4j W D S Q.

(** A [try] whose handler only returns a value always returns: the value
    of the body, or the handler's value for the exception raised. *)
Lemma try_except_returns {A} (c : KG.M (D:=D) (W:=W) A) (f : KG.exn → A) st :
  ∃ a st', KG.try_except c (fun e => KG.ret (f e)) st = (KG.Returns a, st') ∧
           (fst (c st) = KG.Returns a ∨ ∃ e, fst (c st) = KG.Raises e ∧ a = f e).
Proof.
  unfold KG.try_except, KG.ret. destruct (c st) as [[a|e] st'] eqn:E; simpl.
  - exists a, st'. split; [done|]. by left.
  - exists (f e), st'. split; [done|]. right. by exists e.
Qed.

Lemma bind_returns_inv {A B} (c : KG.M (D:=D) (W:=W) A) (k : A → KG.M B) st b :
  fst (KG.bind c k st) = KG.Returns b →
  ∃ a st', c st = (KG.Returns a, st') ∧ fst (k a st') = KG.Returns b.
Proof.
  unfold KG.bind. destruct (c st) as [[a|e] st'] eqn:E; simpl; [|done].
  intros H. by exists a, st'.
Qed.

Lemma ret_returns_inv {A} (a b : A) (st : KG.KnowledgeGraph D * W) :
  fst (KG.ret a st) = KG.Returns b → a = b.
Proof. unfold KG.ret. simpl. congruence. Qed.

(** What a [with] block returns is what its body returned. *)
Lemma with_session_returns_inv {A} (body : S → KG.M (D:=D) (W:=W) A) st a :
  fst (KG.with_session neo body st) = KG.Returns a →
  ∃ session st1, fst (body session st1) = KG.Returns a.
Proof.
  unfold KG.with_session. intros (session & st1 & _ & H)%bind_returns_inv.
  exists session, st1.
  destruct (body session st1) as [[x|e] st2] eqn:E; simpl in *.
  - apply bind_returns_inv in H as (_ & st3 & _ & H).
    apply ret_returns_inv in H. by subst.
  - apply bind_returns_inv in H as (_ & st3 & _ & H). done.
Qed.

Lemma status_op_returns (c : KG.M (D:=D) (W:=W) unit) st :
  ∃ r st', KG.try_except (KG.bind c (fun _ => KG.ret (true, None)))
             (fun exc => KG.ret (false, Some (KG.exn_text exc))) st
           = (KG.Returns r, st') ∧ KG.status_pair r.
Proof.
  destruct (try_except_returns (KG.bind c (fun _ => KG.ret (true, None)))
              (fun exc => (false, Some (KG.exn_text exc))) st)
    as (r & st' & Heq & Hr).
  exists r, st'. split; [done|].
  destruct Hr as [Hr | (e & _ & ->)].
  - left. apply bind_returns_inv in Hr as (_ & st1 & _ & Hr).
    by apply ret_returns_inv in Hr.
  - right. by exists e.
Qed.

Lemma lookup_returns cypher key arg st :
  ∃ r st', KG.lookup neo cypher key arg st = (KG.Returns r, st') ∧ KG.rows_pair r.
Proof.
  unfold KG.lookup.
  match goal with |- context [KG.try_except ?c _ _] =>
    destruct (try_except_returns c (fun exc => ([], Some (KG.exn_text exc))) st)
      as (r & st' & Heq & Hr) end.
  exists r, st'. split; [done|].
  destruct Hr as [Hr | (e & _ & ->)].
  - left. apply with_session_returns_inv in Hr as (session & st1 & Hr).
    apply bind_returns_inv in Hr as (q & st2 & _ & Hr).
    apply bind_returns_inv in Hr as (rows & st3 & _ & Hr).
    apply ret_returns_inv in Hr. by exists rows.
  - right. by exists e.
Qed.

End KGFacts.

(** ** What the operations report *)

Lemma raised_app a b : Watch.raised (a ++ b) = Watch.raised a ++ Watch.raised b.
Proof. unfold Watch.raised. apply omap_app. Qed.

Lemma failure_quiet evs : Watch.raised evs = [] → Watch.failure evs = None.
Proof. unfold Watch.failure. by intros ->. Qed.

Lemma failure_app_quiet a b :
  Watch.raised b = [] → Watch.failure (a ++ b) = Watch.failure a.
Proof. unfold Watch.failure. rewrite raised_app. intros ->. by rewrite app_nil_r. Qed.

Lemma failure_quiet_app a b :
  Watch.raised a = [] → Watch.failure (a ++ b) = Watch.failure b.
Proof. unfold Watch.failure. rewrite raised_app. by intros ->. Qed.

Lemma failure_app_Some a b e :
  Watch.failure b = Some e → Watch.failure (a ++ b) = Some e.
Proof.
  unfold Watch.failure. rewrite raised_app.
  destruct (Watch.raised b) as [|x l] using rev_ind; [done|].
  rewrite app_assoc, !last_snoc. done.
Qed.

Lemma failure_snoc a e : Watch.failure (a ++ [Watch.Raised e]) = Some e.
Proof. by apply failure_app_Some. Qed.

Section WatchFacts.
Context {W D S Q : Type}.
Variable neo : KG.Neo4j W D S Q.

Local Abbreviation MW := (KG.M (D:=D) (W:=W * list Watch.obs)).

Lemma tracks_mono {A} (c : MW A) (g g' : A → list Watch.obs → Prop)
    (b b' : KG.exn → list Watch.obs → Prop) :
  Watch.tracks c g b →
  (∀ a evs, g a evs → g' a evs) → (∀ e evs, b e evs → b' e evs) →
  Watch.tracks c g' b'.
Proof.
  intros Hc Hg Hb self w log. destruct (Hc self w log) as (evs & E & H).
  exists evs. split; [done|].
  destruct (fst (c (self, (w, log)))) as [a|e].
  - destruct H as [H1 H2]. split; [done|]. by apply Hg.
  - destruct H as [H|[H1 H2]]; [by left|]. right. split; [done|]. by apply Hb.
Qed.

Lemma tracks_ret {A} (a : A) :
  Watch.tracks (KG.ret a : MW A) (fun a' evs => a' = a ∧ evs = []) (fun _ _ => False).
Proof. intros self w log. exists []. cbn. by rewrite app_nil_r. Qed.

Lemma tracks_raise {A} e (g : A → list Watch.obs → Prop) (b : KG.exn → list Watch.obs → Prop) :
  b e [] → Watch.tracks (KG.raise e : MW A) g b.
Proof. intros Hb self w log. exists []. cbn. rewrite app_nil_r. split; [done|]. by right. Qed.

Lemma tracks_call {A} (seen : A → list Watch.obs) (f : W → KG.outcome A * W) :
  (∀ a, Watch.raised (seen a) = []) →
  Watch.tracks (KG.call (Watch.note seen f) : MW A) (fun a evs => evs = seen a)
    (fun _ _ => False).
Proof.
  intros Hs self w log. unfold KG.call, Watch.note.
  destruct (f w) as [[a|e] w']; cbn.
  - exists (seen a). by repeat split.
  - exists [Watch.Raised e]. split; [done|]. by left.
Qed.

Lemma tracks_bind {A B} (c : MW A) (k : A → MW B) g1 b1 g2 b2 :
  Watch.tracks c g1 b1 → (∀ a, Watch.tracks (k a) (g2 a) (b2 a)) →
  Watch.tracks (KG.bind c k)
    (fun r evs => ∃ a e1 e2, evs = e1 ++ e2 ∧ g1 a e1 ∧ g2 a r e2)
    (fun e evs => b1 e evs ∨ ∃ a e1 e2, evs = e1 ++ e2 ∧ g1 a e1 ∧ b2 a e e2).
Proof.
  intros Hc Hk self w log. unfold KG.bind.
  destruct (Hc self w log) as (e1 & E1 & H1).
  destruct (c (self, (w, log))) as [[a|e] [self1 [w1 log1]]]; cbn [fst snd] in *.
  - destruct H1 as [R1 G1]. subst log1.
    destruct (Hk a self1 w1 (log ++ e1)) as (e2 & E2 & H2).
    exists (e1 ++ e2). rewrite E2, app_assoc. split; [done|].
    destruct (fst (k a (self1, (w1, log ++ e1)))) as [r|e].
    + destruct H2 as [R2 G2]. split; [by rewrite raised_app, R1, R2|].
      by exists a, e1, e2.
    + destruct H2 as [H2|[R2 B2]].
      * left. by apply failure_app_Some.
      * right. split; [by rewrite raised_app, R1, R2|]. right. by exists a, e1, e2.
  - exists e1. split; [done|]. destruct H1 as [H1|[R1 B1]]; [by left|].
    right. split; [done|]. by left.
Qed.

Lemma tracks_index row k :
  Watch.tracks (KG.index row k : MW _)
    (fun v evs => row !! k = Some v ∧ evs = [])
    (fun e evs => row !! k = None ∧ e = KG.Exn (Watch.key_error k) ∧ evs = []).
Proof.
  unfold KG.index. destruct (row !! k) as [v|] eqn:E.
  - eapply tracks_mono; [apply tracks_ret| |by intros ? ? []]. by intros a evs [-> ->].
  - by apply tracks_raise.
Qed.

(** A loop whose steps run queries. *)
Lemma tracks_collect_run {A B} (f : A → MW B) (seen : A → list Watch.obs) xs :
  (∀ x, Watch.tracks (f x) (fun _ evs => evs = seen x) (fun _ _ => False)) →
  Watch.tracks (KG.collect f xs) (fun _ evs => evs = concat (seen <$> xs))
    (fun _ _ => False).
Proof.
  intros Hf. induction xs as [|x xs IH]; cbn [KG.collect].
  - eapply tracks_mono; [apply tracks_ret| |done]. by intros a evs [_ ->].
  - eapply tracks_mono.
    + eapply tracks_bind; [apply Hf|]. intros y.
      eapply tracks_bind; [apply IH|]. intros ys. apply tracks_ret.
    + intros r evs (y & e1 & e2 & -> & -> & ys & e3 & e4 & -> & -> & _ & ->).
      cbn. by rewrite app_nil_r.
    + intros e evs [[]|(y & e1 & e2 & _ & _ & [[]|(ys & e3 & e4 & _ & _ & [])])].
Qed.

(** A loop whose steps read the columns of a row. *)
Lemma tracks_collect_rows {A B} (f : A → MW B) (g : A → option B) xs :
  (∀ x, Watch.tracks (f x) (fun b evs => g x = Some b ∧ evs = [])
          (fun e evs => (∃ k, e = KG.Exn (Watch.key_error k)) ∧ g x = None ∧ evs = [])) →
  Watch.tracks (KG.collect f xs) (fun bs evs => mapM g xs = Some bs ∧ evs = [])
    (fun e evs => (∃ k, e = KG.Exn (Watch.key_error k)) ∧ mapM g xs = None ∧ evs = []).
Proof.
  intros Hf. induction xs as [|x xs IH]; cbn [KG.collect].
  - eapply tracks_mono; [apply tracks_ret| |by intros ? ? []]. by intros a evs [-> ->].
  - eapply tracks_mono.
    + eapply tracks_bind; [apply Hf|]. intros y.
      eapply tracks_bind; [apply IH|]. intros ys. apply tracks_ret.
    + intros r evs (y & e1 & e2 & -> & [Hy ->] & ys & e3 & e4 & -> & [Hys ->] & -> & ->).
      split; [|done]. cbn. by rewrite Hy, Hys.
    + intros e evs [(Hk & Hx & ->)|(y & e1 & e2 & -> & [Hy ->] & H)].
      * split; [done|]. split; [|done]. cbn. by rewrite Hx.
      * destruct H as [(Hk & Hxs & ->)|(ys & e3 & e4 & _ & _ & [])].
        split; [done|]. split; [|done]. cbn. by rewrite Hy, Hxs.
Qed.

Lemma tracks_intro {A} (c : MW A) g b :
  (∀ self w log,
     let '(r, (_, (_, log'))) := c (self, (w, log)) in
     ∃ evs, log' = log ++ evs ∧
       match r with
       | KG.Returns a => Watch.raised evs = [] ∧ g a evs
       | KG.Raises e => Watch.failure evs = Some e ∨ (Watch.raised evs = [] ∧ b e evs)
       end) →
  Watch.tracks c g b.
Proof.
  intros H self w log. specialize (H self w log).
  by destruct (c (self, (w, log))) as [r [self' [w' log']]].
Qed.

(** Obtaining a session: it is returned when the driver raised nothing. *)
Lemma tracks_session :
  Watch.tracks (KG._session (Watch.watched neo)) (fun _ evs => evs = [])
    (fun _ _ => False).
Proof.
  apply tracks_intro. intros self w log.
  unfold KG._session, KG.bind, KG.get_self. cbn [fst snd].
  destruct (KG.driver self) as [d|] eqn:Ed.
  - cbn [KG.ret fst]. rewrite Ed.
    destruct (Str.truthy (KG.database self));
      unfold KG.call; cbn [Watch.watched KG.driver_session Watch.note];
      match goal with |- context [KG.driver_session neo ?a ?b ?c] =>
        destruct (KG.driver_session neo a b c) as [[s|e] w'] end;
      eexists; (split; [reflexivity|]); first [by split | by left].
  - unfold KG.connect, KG.bind, KG.get_self. cbn [fst snd]. rewrite Ed.
    unfold KG.call at 1. cbn [Watch.watched KG.GraphDatabase_driver Watch.note].
    destruct (KG.GraphDatabase_driver neo _ _ w) as [[d|e] w'].
    2: { eexists. split; [reflexivity|]. by left. }
    cbn [KG.put_driver KG.set_driver fst snd KG.driver KG.database].
    destruct (Str.truthy (KG.database self));
      unfold KG.call; cbn [Watch.watched KG.driver_session Watch.note];
      match goal with |- context [KG.driver_session neo ?a ?b ?c] =>
        destruct (KG.driver_session neo a b c) as [[s|e] w''] end;
      rewrite <- ?app_assoc;
      eexists; (split; [reflexivity|]); first [by split | by left].
Qed.

(** A [with] block tracks the driver as its body does. *)
Lemma tracks_with_session {A} (body : S → MW A) g b :
  (∀ s, Watch.tracks (body s) g b) →
  Watch.tracks (KG.with_session (Watch.watched neo) body) g b.
Proof.
  intros Hb. apply tracks_intro. intros self w log.
  unfold KG.with_session. unfold KG.bind at 1.
  destruct (tracks_session self w log) as (es & Es & Hs).
  destruct (KG._session (Watch.watched neo) (self, (w, log)))
    as [[s|e] [self1 [w1 log1]]]; cbn [fst snd] in Es, Hs.
  2: { exists es. split; [done|]. destruct Hs as [Hs|[_ []]]. by left. }
  destruct Hs as [_ ->]. rewrite app_nil_r in Es. subst log1.
  destruct (Hb s self1 w1 log) as (eb & Eb & Hbody).
  destruct (body s (self1, (w1, log))) as [[a|e] [self2 [w2 log2]]];
    cbn [fst snd] in Eb, Hbody; subst log2;
    unfold KG.bind, KG.call; cbn [Watch.watched KG.session_exit Watch.note];
    match goal with |- context [KG.session_exit neo ?x ?y ?z] =>
      destruct (KG.session_exit neo x y z) as [[u|e'] w3] end;
    cbn [KG.ret KG.raise].
  - exists eb. rewrite app_nil_r. by split.
  - exists (eb ++ [Watch.Raised e']). rewrite app_assoc. split; [done|].
    left. apply failure_snoc.
  - exists eb. rewrite app_nil_r. by split.
  - exists (eb ++ [Watch.Raised e']). rewrite app_assoc. split; [done|].
    left. apply failure_snoc.
Qed.

Lemma tracks_run s cypher params :
  Watch.tracks (KG.call (KG.session_run (Watch.watched neo) s cypher params) : MW _)
    (fun _ evs => evs = [Watch.Ran cypher params]) (fun _ _ => False).
Proof. apply (tracks_call (fun _ => [Watch.Ran cypher params])). done. Qed.

Lemma tracks_consume q :
  Watch.tracks (KG.call (KG.result_consume (Watch.watched neo) q) : MW _) (fun _ evs => evs = [])
    (fun _ _ => False).
Proof. apply (tracks_call (fun _ => [])). done. Qed.

Lemma tracks_single q :
  Watch.tracks (KG.call (KG.result_single (Watch.watched neo) q) : MW _)
    (fun r evs => evs = [Watch.Single r]) (fun _ _ => False).
Proof. apply (tracks_call (fun r => [Watch.Single r])). done. Qed.

Lemma tracks_rows q :
  Watch.tracks (KG.call (KG.result_rows (Watch.watched neo) q) : MW _)
    (fun r evs => evs = [Watch.Rows r]) (fun _ _ => False).
Proof. apply (tracks_call (fun r => [Watch.Rows r])). done. Qed.

Lemma tracks_run_consume s cypher params :
  Watch.tracks
    (KG.bind (KG.call (KG.session_run (Watch.watched neo) s cypher params))
       (fun q => KG.call (KG.result_consume (Watch.watched neo) q)) : MW _)
    (fun _ evs => evs = [Watch.Ran cypher params]) (fun _ _ => False).
Proof.
  eapply tracks_mono.
  - eapply tracks_bind; [apply tracks_run|]. intros q. apply tracks_consume.
  - by intros r evs (q & e1 & e2 & -> & -> & ->).
  - intros e evs [H|(q & e1 & e2 & _ & _ & H)]; exact H.
Qed.

(** A [try] whose handler returns: the operation returns, with the result
    of its body when the driver raised nothing and the body raised nothing
    of its own, and with what the handler makes of the exception
    otherwise. *)
Lemma try_tracks {A} (c : MW A) (f : KG.exn → A) g b self w log :
  Watch.tracks c g b →
  Watch.returns (KG.try_except c (fun e => KG.ret (f e))) self w log
    (fun r evs =>
       (Watch.raised evs = [] ∧ g r evs) ∨
       ∃ e, r = f e ∧ (Watch.failure evs = Some e ∨ (Watch.raised evs = [] ∧ b e evs))).
Proof.
  intros Hc. destruct (Hc self w log) as (evs & E & H).
  unfold Watch.returns, KG.try_except.
  destruct (c (self, (w, log))) as [[a|e] [self1 [w1 log1]]]; cbn [fst snd] in *; subst log1.
  - exists a, self1, w1, evs. split; [done|]. by left.
  - exists (f e), self1, w1, evs. split; [done|]. right. by exists e.
Qed.

(** The three operations that give a status. *)
Lemma status_tracks (c : MW unit) queries self w log :
  Watch.tracks c (fun _ evs => evs = queries) (fun _ _ => False) →
  Watch.returns
    (KG.try_except (KG.bind c (fun _ => KG.ret (true, None)))
       (fun exc => KG.ret (false, Some (KG.exn_text exc))))
    self w log (Watch.status_report queries).
Proof.
  intros Hc.
  destruct (try_tracks (KG.bind c (fun _ => KG.ret (true, None)))
              (fun exc => (false, Some (KG.exn_text exc))) _ _ self w log
              (tracks_bind c _ _ _ _ _ Hc (fun a => tracks_ret _)))
    as (r & self' & w' & evs & Heq & H).
  exists r, self', w', evs. split; [exact Heq|]. unfold Watch.status_report.
  destruct H as [[R (u & e1 & e2 & -> & -> & -> & ->)]|(e & -> & [F|[_ H]])].
  - rewrite (failure_quiet _ R). by rewrite app_nil_r.
  - by rewrite F.
  - destruct H as [[]|(u & e1 & e2 & _ & _ & [])].
Qed.

Lemma health_tracks self w log :
  Watch.returns (KG.health (Watch.watched neo)) self w log
    (Watch.status_report [Watch.Ran "RETURN 1" ∅]).
Proof.
  apply status_tracks, tracks_with_session. intros s. apply tracks_run_consume.
Qed.

Lemma upsert_course_tracks c self w log :
  Watch.returns (KG.upsert_course (Watch.watched neo) c) self w log
    (Watch.status_report [Watch.Ran KG.upsert_cypher (KG.upsert_params c)]).
Proof.
  apply status_tracks, tracks_with_session. intros s. apply tracks_run_consume.
Qed.

Lemma ensure_constraints_tracks self w log :
  Watch.returns (KG.ensure_constraints (Watch.watched neo)) self w log
    (Watch.status_report ((fun stmt => Watch.Ran stmt ∅) <$> KG.constraint_statements)).
Proof.
  apply status_tracks, tracks_with_session. intros s.
  eapply tracks_mono.
  - eapply tracks_bind; [|intros u; apply tracks_ret].
    apply (tracks_collect_run _ (fun stmt => [Watch.Ran stmt ∅])).
    intros stmt. apply tracks_run_consume.
  - by intros r evs (u & e1 & e2 & -> & -> & _ & ->).
  - intros e evs [[]|(u & e1 & e2 & _ & _ & [])].
Qed.

Lemma lookup_tracks cypher key arg self w log :
  Watch.returns (KG.lookup (Watch.watched neo) cypher key arg) self w log
    (Watch.rows_report (<[key := KG.VStr arg]> ∅)).
Proof.
  unfold KG.lookup.
  match goal with |- Watch.returns (KG.try_except ?c _) _ _ _ _ =>
    destruct (try_tracks c (fun exc => ([], Some (KG.exn_text exc)))
                (fun r evs => evs = [Watch.Ran cypher (<[key := KG.VStr arg]> ∅);
                                     Watch.Rows (fst r)] ∧ snd r = None)
                (fun _ _ => False) self w log)
      as (r & self' & w' & evs & Heq & H) end.
  { apply tracks_with_session. intros s. eapply tracks_mono.
    - eapply tracks_bind; [apply tracks_run|]. intros q.
      eapply tracks_bind; [apply tracks_rows|]. intros rows. apply tracks_ret.
    - by intros r evs (q & e1 & e2 & -> & -> & rows & e3 & e4 & -> & -> & -> & ->).
    - intros e evs [H|(q & e1 & e2 & _ & _ & [H|(rows & e3 & e4 & _ & _ & H)])]; exact H. }
  exists r, self', w', evs. split; [exact Heq|]. unfold Watch.rows_report.
  destruct H as [[R [-> Hn]]|(e & -> & [F|[_ []]])].
  - cbn. by exists cypher.
  - by rewrite F.
Qed.

Lemma summary_tracks self w log :
  Watch.returns (KG.summary (Watch.watched neo)) self w log Watch.summary_report.
Proof.
  unfold KG.summary.
  match goal with |- Watch.returns (KG.try_except ?c _) _ _ _ _ =>
    destruct (try_tracks c (fun exc => (None, Some (KG.exn_text exc)))
                (fun r evs => ∃ rcd, evs = [Watch.Ran KG.summary_cypher ∅; Watch.Single rcd] ∧
                                     r = Watch.summary_of rcd)
                (fun e evs => ∃ rcd, evs = [Watch.Ran KG.summary_cypher ∅; Watch.Single rcd] ∧
                                     (None, Some (KG.exn_text e)) = Watch.summary_of rcd)
                self w log)
      as (r & self' & w' & evs & Heq & H) end.
  { apply tracks_with_session. intros s. eapply tracks_mono.
    - eapply tracks_bind; [apply tracks_run|]. intros q.
      eapply (tracks_bind _ _ _ _
                (fun rcd r evs => evs = [] ∧ r = Watch.summary_of rcd)
                (fun rcd e evs => evs = [] ∧
                   (None, Some (KG.exn_text e)) = Watch.summary_of rcd));
        [apply tracks_single|].
      intros [row|].
      + eapply tracks_mono.
        * eapply tracks_bind; [apply tracks_index|]. intros n.
          eapply tracks_bind; [apply tracks_index|]. intros e. apply tracks_ret.
        * intros r evs (n & e5 & e6 & -> & [Hn ->] & e & e7 & e8 & -> & [He ->] & -> & ->).
          split; [done|]. cbn. by rewrite Hn, He.
        * intros e evs [(Hn & -> & ->)|(n & e5 & e6 & -> & [Hn ->] & H)].
          { split; [done|]. cbn. by rewrite Hn. }
          destruct H as [(Hr & -> & ->)|(x & e7 & e8 & _ & _ & [])].
          split; [done|]. cbn. by rewrite Hn, Hr.
      + eapply tracks_mono; [apply tracks_ret| |by intros ? ? []].
        by intros r evs [-> ->].
    - intros r evs (q & e1 & e2 & -> & -> & rcd & e3 & e4 & -> & -> & -> & ->).
      by exists rcd.
    - intros e evs [[]|(q & e1 & e2 & -> & -> & [[]|(rcd & e3 & e4 & -> & -> & -> & H)])].
      by exists rcd. }
  exists r, self', w', evs. split; [exact Heq|]. unfold Watch.summary_report.
  destruct H as [[R H]|(e & -> & [F|[R H]])].
  - by rewrite (failure_quiet _ R).
  - by rewrite F.
  - by rewrite (failure_quiet _ R).
Qed.

Lemma node_tracks (row : KG.record) :
  Watch.tracks
    (KG.bind (KG.index row "id") (fun i =>
     KG.bind (KG.index row "label") (fun l =>
     KG.bind (KG.index row "props") (fun p =>
     KG.ret (<["id" := i]> (<["type" := l]> (<["props" := p]> ∅)))))) : MW _)
    (fun b evs => Watch.node_of row = Some b ∧ evs = [])
    (fun e evs => (∃ k, e = KG.Exn (Watch.key_error k)) ∧ Watch.node_of row = None ∧ evs = []).
Proof.
  eapply tracks_mono.
  - eapply tracks_bind; [apply tracks_index|]. intros i.
    eapply tracks_bind; [apply tracks_index|]. intros l.
    eapply tracks_bind; [apply tracks_index|]. intros p. apply tracks_ret.
  - intros r evs (i & e1 & e2 & -> & [Hi ->] & l & e3 & e4 & -> & [Hl ->]
                  & p & e5 & e6 & -> & [Hp ->] & -> & ->).
    split; [|done]. unfold Watch.node_of. by simplify_option_eq.
  - intros e evs H. unfold Watch.node_of.
    destruct H as [(Hi & -> & ->)|(i & e1 & e2 & -> & [Hi ->] & H)].
    { split; [by eexists|]. split; [|done]. by simplify_option_eq. }
    destruct H as [(Hl & -> & ->)|(l & e3 & e4 & -> & [Hl ->] & H)].
    { split; [by eexists|]. split; [|done]. by simplify_option_eq. }
    destruct H as [(Hp & -> & ->)|(p & e5 & e6 & _ & _ & [])].
    split; [by eexists|]. split; [|done]. by simplify_option_eq.
Qed.

Lemma edge_tracks (row : KG.record) :
  Watch.tracks
    (KG.bind (KG.index row "id") (fun i =>
     KG.bind (KG.index row "type") (fun t =>
     KG.bind (KG.index row "source") (fun a =>
     KG.bind (KG.index row "target") (fun b =>
     KG.ret (<["id" := i]> (<["type" := t]> (<["source" := a]> (<["target" := b]> ∅)))))))) : MW _)
    (fun b evs => Watch.edge_of row = Some b ∧ evs = [])
    (fun e evs => (∃ k, e = KG.Exn (Watch.key_error k)) ∧ Watch.edge_of row = None ∧ evs = []).
Proof.
  eapply tracks_mono.
  - eapply tracks_bind; [apply tracks_index|]. intros i.
    eapply tracks_bind; [apply tracks_index|]. intros t.
    eapply tracks_bind; [apply tracks_index|]. intros a.
    eapply tracks_bind; [apply tracks_index|]. intros b. apply tracks_ret.
  - intros r evs (i & e1 & e2 & -> & [Hi ->] & t & e3 & e4 & -> & [Ht ->]
                  & a & e5 & e6 & -> & [Ha ->] & b & e7 & e8 & -> & [Hb ->] & -> & ->).
    split; [|done]. unfold Watch.edge_of. by simplify_option_eq.
  - intros e evs H. unfold Watch.edge_of.
    destruct H as [(Hi & -> & ->)|(i & e1 & e2 & -> & [Hi ->] & H)].
    { split; [by eexists|]. split; [|done]. by simplify_option_eq. }
    destruct H as [(Ht & -> & ->)|(t & e3 & e4 & -> & [Ht ->] & H)].
    { split; [by eexists|]. split; [|done]. by simplify_option_eq. }
    destruct H as [(Ha & -> & ->)|(a & e5 & e6 & -> & [Ha ->] & H)].
    { split; [by eexists|]. split; [|done]. by simplify_option_eq. }
    destruct H as [(Hb & -> & ->)|(b & e7 & e8 & _ & _ & [])].
    split; [by eexists|]. split; [|done]. by simplify_option_eq.
Qed.

Lemma export_graph_tracks self w log :
  Watch.returns (KG.export_graph (Watch.watched neo)) self w log Watch.export_report.
Proof.
  unfold KG.export_graph.
  match goal with |- Watch.returns (KG.try_except ?c _) _ _ _ _ =>
    destruct (try_tracks c (fun exc => (None, Some (KG.exn_text exc)))
      (fun r evs => ∃ nrows erows ns es,
         evs = [Watch.Ran Watch.node_query ∅; Watch.Rows nrows;
                Watch.Ran Watch.edge_query ∅; Watch.Rows erows] ∧
         mapM Watch.node_of nrows = Some ns ∧ mapM Watch.edge_of erows = Some es ∧
         r = (Some (KG.Graph ns es), None))
      (fun e evs => (∃ k, e = KG.Exn (Watch.key_error k)) ∧ ∃ nrows,
         (mapM Watch.node_of nrows = None ∧
          evs = [Watch.Ran Watch.node_query ∅; Watch.Rows nrows]) ∨
         (∃ ns erows, mapM Watch.node_of nrows = Some ns ∧
            evs = [Watch.Ran Watch.node_query ∅; Watch.Rows nrows;
                   Watch.Ran Watch.edge_query ∅; Watch.Rows erows] ∧
            mapM Watch.edge_of erows = None))
      self w log)
      as (r & self' & w' & evs & Heq & H) end.
  { eapply tracks_mono.
    - eapply tracks_bind; [|intros g; apply tracks_ret].
      apply tracks_with_session. intros s.
      eapply tracks_bind; [apply tracks_run|]. intros nq.
      eapply tracks_bind; [apply tracks_rows|]. intros nrows.
      eapply tracks_bind; [apply (tracks_collect_rows _ Watch.node_of), node_tracks|].
      intros ns.
      eapply tracks_bind; [apply tracks_run|]. intros eq.
      eapply tracks_bind; [apply tracks_rows|]. intros erows.
      eapply tracks_bind; [apply (tracks_collect_rows _ Watch.edge_of), edge_tracks|].
      intros es. apply tracks_ret.
    - intros r evs (g & e1 & e2 & -> & H & -> & ->).
      destruct H as (nq & e3 & e4 & -> & -> & nrows & e5 & e6 & -> & -> &
                     ns & e7 & e8 & -> & [Hns ->] & eq & e9 & e10 & -> & -> &
                     erows & e11 & e12 & -> & -> & es & e13 & e14 & -> & [Hes ->] & -> & ->).
      by exists nrows, erows, ns, es.
    - intros e evs [H|(g & e1 & e2 & _ & _ & [])].
      destruct H as [[]|(nq & e3 & e4 & -> & -> & H)].
      destruct H as [[]|(nrows & e5 & e6 & -> & -> & H)].
      destruct H as [(Hk & Hn & ->)|(ns & e7 & e8 & -> & [Hns ->] & H)].
      { split; [done|]. exists nrows. by left. }
      destruct H as [[]|(eq & e9 & e10 & -> & -> & H)].
      destruct H as [[]|(erows & e11 & e12 & -> & -> & H)].
      destruct H as [(Hk & He & ->)|(es & e13 & e14 & _ & _ & [])].
      split; [done|]. exists nrows. right. by exists ns, erows. }
  exists r, self', w', evs. split; [exact Heq|]. unfold Watch.export_report.
  destruct H as [[R H]|(e & -> & [F|[R H]])].
  - rewrite (failure_quiet _ R).
    destruct H as (nrows & erows & ns & es & -> & Hn & He & ->).
    exists nrows. rewrite Hn. exists erows. by rewrite He.
  - by rewrite F.
  - rewrite (failure_quiet _ R).
    destruct H as ([k ->] & nrows & [[Hn ->]|(ns & erows & Hn & -> & He)]).
    + exists nrows. rewrite Hn. split; [done|]. by exists k.
    + exists nrows. rewrite Hn. exists erows. split; [done|]. rewrite He. by exists k.
Qed.

End WatchFacts.

(** C8.  No operation of the Graph Index raises, whatever the driver
    does: each returns a pair.  [health], [ensure_constraints] and
    [upsert_course] return success without error or failure with the text
    of an exception (the text that [str] gives for the exception),
    [summary] and [export_graph] a value without error or no value with
    the text, and each lookup its rows without error or the empty list
    with the text of the exception.

    The pair reports what the driver did.  Over a watched driver: when no
    call of the driver raised, the operation ran its queries and returns
    success ([health], [ensure_constraints], [upsert_course]), the records
    that the driver gave for the query, without error (the lookups), or
    what it makes of these records ([summary], [export_graph], where a
    record that misses a column gives the text of the key error); when a
    call of the driver raised, it returns the failure value (false, no
    value, the empty list) together with the text of the last exception
    that the driver raised. *)
Theorem kg_operations_never_raise {W D S Q : Type} (neo : KG.Neo4j W D S Q)
    (st : KG.KnowledgeGraph D * W) (log : list Watch.obs) :
  ((∃ r st', KG.health neo st = (KG.Returns r, st') ∧ KG.status_pair r) ∧
   (∃ r st', KG.ensure_constraints neo st = (KG.Returns r, st') ∧ KG.status_pair r) ∧
   (∀ c, ∃ r st', KG.upsert_course neo c st = (KG.Returns r, st') ∧ KG.status_pair r) ∧
   (∃ r st', KG.summary neo st = (KG.Returns r, st') ∧ KG.value_pair r) ∧
   (∃ r st', KG.export_graph neo st = (KG.Returns r, st') ∧ KG.value_pair r) ∧
   (∀ x, ∃ r st', KG.get_courses_by_teacher neo x st = (KG.Returns r, st') ∧ KG.rows_pair r) ∧
   (∀ x, ∃ r st', KG.get_courses_by_dept neo x st = (KG.Returns r, st') ∧ KG.rows_pair r) ∧
   (∀ x, ∃ r st', KG.get_courses_by_semester neo x st = (KG.Returns r, st') ∧ KG.rows_pair r)) ∧
  Watch.returns (KG.health (Watch.watched neo)) (fst st) (snd st) log
    (Watch.status_report [Watch.Ran "RETURN 1" ∅]) ∧
  Watch.returns (KG.ensure_constraints (Watch.watched neo)) (fst st) (snd st) log
    (Watch.status_report ((fun stmt => Watch.Ran stmt ∅) <$> KG.constraint_statements)) ∧
  (∀ c, Watch.returns (KG.upsert_course (Watch.watched neo) c) (fst st) (snd st) log
          (Watch.status_report [Watch.Ran KG.upsert_cypher (KG.upsert_params c)])) ∧
  Watch.returns (KG.summary (Watch.watched neo)) (fst st) (snd st) log
    Watch.summary_report ∧
  Watch.returns (KG.export_graph (Watch.watched neo)) (fst st) (snd st) log
    Watch.export_report ∧
  (∀ x, Watch.returns (KG.get_courses_by_teacher (Watch.watched neo) x) (fst st) (snd st) log
          (Watch.rows_report (<["teacher" := KG.VStr x]> ∅))) ∧
  (∀ x, Watch.returns (KG.get_courses_by_dept (Watch.watched neo) x) (fst st) (snd st) log
          (Watch.rows_report (<["dept" := KG.VStr x]> ∅))) ∧
  (∀ x, Watch.returns (KG.get_courses_by_semester (Watch.watched neo) x) (fst st) (snd st) log
          (Watch.rows_report (<["semester" := KG.VStr x]> ∅))).
Proof.
  split.
  { repeat split.
    - apply status_op_returns.
    - apply status_op_returns.
    - intros c. apply status_op_returns.
    - unfold KG.summary.
      match goal with |- context [KG.try_except ?c _ _] =>
        destruct (try_except_returns c (fun exc => (None, Some (KG.exn_text exc))) st)
          as (r & st' & Heq & Hr) end.
      exists r, st'. split; [done|].
      destruct Hr as [Hr | (e & _ & ->)]; [|right; by exists e].
      left. apply with_session_returns_inv in Hr as (session & st1 & Hr).
      apply bind_returns_inv in Hr as (q & st2 & _ & Hr).
      apply bind_returns_inv in Hr as ([row|] & st3 & _ & Hr).
      + apply bind_returns_inv in Hr as (n & st4 & _ & Hr).
        apply bind_returns_inv in Hr as (e & st5 & _ & Hr).
        apply ret_returns_inv in Hr. by exists (n, e).
      + apply ret_returns_inv in Hr. by exists (KG.VInt 0, KG.VInt 0).
    - unfold KG.export_graph.
      match goal with |- context [KG.try_except ?c _ _] =>
        destruct (try_except_returns c (fun exc => (None, Some (KG.exn_text exc))) st)
          as (r & st' & Heq & Hr) end.
      exists r, st'. split; [done|].
      destruct Hr as [Hr | (e & _ & ->)]; [|right; by exists e].
      left. apply bind_returns_inv in Hr as (g & st1 & _ & Hr).
      apply ret_returns_inv in Hr. by exists g.
    - intros x. apply lookup_returns.
    - intros x. apply lookup_returns.
    - intros x. apply lookup_returns. }
  split; [apply health_tracks|].
  split; [apply ensure_constraints_tracks|].
  split; [intros c; apply upsert_course_tracks|].
  split; [apply summary_tracks|].
  split; [apply export_graph_tracks|].
  split; [intros x; apply lookup_tracks|].
  split; intros x; apply lookup_tracks.
Qed.

(** ** The Catalog index *)

Section CatalogFacts.
Variable data : list course_rec.

Lemma by_code_from_None (l : list course_rec) (acc : gmap string course_rec) k :
  foldl (fun acc c => <[Str.upper (course c) := c]> acc) acc l !! k = None ↔
  acc !! k = None ∧ ∀ c, c ∈ l → Str.upper (course c) ≠ k.
Proof.
  revert acc. induction l as [|c l IH]; intros acc; simpl.
  - split; [intros H; split; [done|]|by intros [H _]].
    intros c Hc. by apply elem_of_nil in Hc.
  - rewrite IH. split.
    + intros [H1 H2].
      apply lookup_insert_None in H1 as [H1 Hne].
      split; [done|]. intros c' [->|Hc']%elem_of_cons; [done|by apply H2].
    + intros [H1 H2]. split.
      * apply lookup_insert_None. split; [done|]. apply H2, elem_of_cons. by left.
      * intros c' Hc'. apply H2, elem_of_cons. by right.
Qed.

(** A key is missing from the index exactly when no record carries it. *)
Lemma by_code_None k :
  Chatbot.by_code data !! k = None ↔ ∀ c, c ∈ data → Str.upper (course c) ≠ k.
Proof.
  unfold Chatbot.by_code. rewrite by_code_from_None.
  split; [by intros [_ H]|intros H; split; [apply lookup_empty|done]].
Qed.

Lemma by_code_from_Some (l : list course_rec) (acc : gmap string course_rec) k c :
  foldl (fun acc c => <[Str.upper (course c) := c]> acc) acc l !! k = Some c →
  acc !! k = Some c ∨ (c ∈ l ∧ Str.upper (course c) = k).
Proof.
  revert acc. induction l as [|c' l IH]; intros acc; simpl; [by left|].
  intros [H|[H1 H2]]%IH.
  - apply lookup_insert_Some in H as [[<- <-]|[_ H]]; [|by left].
    right. split; [|done]. apply elem_of_cons. by left.
  - right. split; [|done]. apply elem_of_cons. by right.
Qed.

(** A record found in the index is a record of the Catalog with that key. *)
Lemma by_code_Some k c :
  Chatbot.by_code data !! k = Some c → c ∈ data ∧ Str.upper (course c) = k.
Proof.
  intros [H|H]%by_code_from_Some; [|done]. by rewrite lookup_empty in H.
Qed.

Lemma get_course_absent code :
  Spec.absent data code → Chatbot._get_course data (Some code) = None.
Proof.
  intros H. destruct code as [|a s]; [done|].
  unfold Chatbot._get_course. by apply by_code_None.
Qed.

End CatalogFacts.

(** ** Reply building *)

Section ReplyFacts.
Variable data : list course_rec.
Context {G : Type}.

Lemma status_logged (k : Chatbot.GraphIndex G) g log :
  Chatbot._kg_status (Some (Chatbot.logged k)) (g, log)
  = (fst (Chatbot.health k g), (snd (Chatbot.health k g), log ++ [Chatbot.EvHealth])).
Proof.
  unfold Chatbot._kg_status. simpl. unfold Chatbot.record_call.
  by destruct (Chatbot.health k g).
Qed.

Lemma try_upsert_off (kg : option (Chatbot.GraphIndex G)) c g :
  Chatbot._try_upsert kg c false g = (tt, g).
Proof. unfold Chatbot._try_upsert. by destruct kg. Qed.

Lemma try_upsert_none c ok (g : G) :
  Chatbot._try_upsert None c ok g = (tt, g).
Proof. done. Qed.

Lemma try_upsert_logged (k : Chatbot.GraphIndex G) c g log :
  Chatbot._try_upsert (Some (Chatbot.logged k)) c true (g, log)
  = (tt, (snd (Chatbot.upsert_course k c g), log ++ [Chatbot.EvUpsert c])).
Proof.
  unfold Chatbot._try_upsert, Chatbot.bind. simpl. unfold Chatbot.record_call.
  by destruct (Chatbot.upsert_course k c g).
Qed.

(** With the index absent or unhealthy the upsert loop does nothing. *)
Lemma upsert_resolved_off (kg : option (Chatbot.GraphIndex G)) rows ok g :
  kg = None ∨ ok = false →
  Chatbot.upsert_resolved data kg rows ok g = (tt, g).
Proof.
  intros H. unfold Chatbot.upsert_resolved.
  induction rows as [|r rows IH]; simpl; [done|].
  unfold Chatbot.bind.
  assert (E : ∀ c, Chatbot._try_upsert kg c ok g = (tt, g)).
  { intros c. destruct H as [-> | ->]; [done|apply try_upsert_off]. }
  destruct (Chatbot.by_code data !! Str.upper (Chatbot.code r)); [rewrite E|]; apply IH.
Qed.

Lemma resolved_cons r rows :
  Spec.resolved data (r :: rows)
  = match Chatbot.by_code data !! Str.upper (Chatbot.code r) with
    | Some c => c :: Spec.resolved data rows
    | None => Spec.resolved data rows
    end.
Proof. reflexivity. Qed.

(** With a healthy index the loop upserts the resolved records, in the
    order of the rows. *)
Lemma upsert_resolved_logged (k : Chatbot.GraphIndex G) rows g log :
  snd (snd (Chatbot.upsert_resolved data (Some (Chatbot.logged k)) rows true (g, log)))
  = log ++ (Chatbot.EvUpsert <$> Spec.resolved data rows).
Proof.
  unfold Chatbot.upsert_resolved.
  revert g log. induction rows as [|r rows IH]; intros g log.
  - simpl. by rewrite app_nil_r.
  - cbn [Chatbot.for_each]. unfold Chatbot.bind at 1. rewrite resolved_cons.
    destruct (Chatbot.by_code data !! Str.upper (Chatbot.code r)) as [c|].
    + rewrite try_upsert_logged. rewrite IH. rewrite fmap_cons.
      by rewrite <- app_assoc.
    + unfold Chatbot.ret at 1. apply IH.
Qed.

End ReplyFacts.

Ltac single_intent H :=
  unfold Spec.single_course_intents in H;
  repeat (apply elem_of_cons in H as [->|H]); [..|by apply elem_of_nil in H].

(** C7.  For a single-course intent whose course code is not in the
    Catalog, [build_reply] returns the fixed not-found reply after the
    health probe alone: the log of a logged index gains the probe and no
    upsert.  When the intent and the entities come from an utterance,
    [process] returns that reply together with the detected intent and the
    entities. *)
Theorem unknown_code_not_found (data : list course_rec) {G : Type}
    (kg : option (Chatbot.GraphIndex G)) (intent : string)
    (ents : Chatbot.entities) (code : string) (g : G) :
  intent ∈ Spec.single_course_intents →
  Chatbot.get ents "course_code" = Some code →
  Spec.absent data code →
  Chatbot.build_reply data kg intent ents g
    = (Chatbot.not_found_text, snd (Chatbot._kg_status kg g)) ∧
  (∀ k log, kg = Some k →
     snd (snd (Chatbot.build_reply data (Some (Chatbot.logged k)) intent ents (g, log)))
     = log ++ [Chatbot.EvHealth]) ∧
  (∀ text, Chatbot.extract_entities data text = Some ents →
     Chatbot.detect_intent text ents = intent →
     Chatbot.process data kg text g
     = Some ((Chatbot.not_found_text, intent, ents), snd (Chatbot._kg_status kg g))).
Proof.
  intros Hi Hget Habs.
  assert (Hnone : Chatbot._get_course data (Chatbot.get ents "course_code") = None).
  { rewrite Hget. by apply get_course_absent. }
  assert (Hall : ∀ G' (kg' : option (Chatbot.GraphIndex G')) g',
    Chatbot.build_reply data kg' intent ents g'
    = (Chatbot.not_found_text, snd (Chatbot._kg_status kg' g'))).
  { intros G' kg' g'. unfold Chatbot.build_reply, Chatbot.bind.
    destruct (Chatbot._kg_status kg' g') as [[ok e] g1].
    single_intent Hi; cbn [String.eqb Ascii.eqb Bool.eqb fst snd]; by rewrite Hnone. }
  split; [apply Hall|]. split.
  - intros k log _. rewrite Hall. by rewrite status_logged.
  - intros text He Hd. unfold Chatbot.process. rewrite He. simpl.
    rewrite Hd. by rewrite Hall.
Qed.

(** "who teaches ZZZ999": not in the example Catalog. *)
Lemma unknown_code_not_found_witness :
  Chatbot.process catalog_ex (Some (Chatbot.logged (fixed_kg true [] None)))
    "who teaches ZZZ999" (0, [])
  = Some ((Chatbot.not_found_text, "course_teacher",
           <["course_code" := Some "ZZZ999"]>
             (<["teacher" := None]> (<["dept" := None]> (<["semester" := None]> ∅)))),
          (1, [Chatbot.EvHealth])).
Proof.
  refine (proj2 (proj2 (unknown_code_not_found catalog_ex _ "course_teacher" _ "ZZZ999" _ _ _ _))
            "who teaches ZZZ999" _ _).
  - unfold Spec.single_course_intents. apply elem_of_cons. by left.
  - reflexivity.
  - intros c Hc. unfold catalog_ex in Hc.
    repeat (apply elem_of_cons in Hc as [->|Hc]; [by vm_compute|]).
    by apply elem_of_nil in Hc.
  - vm_compute. reflexivity.
  - vm_compute. reflexivity.
Defined.

(** ** Lookups fall back to the Catalog *)

Lemma append_assoc (a b c : string) : (a +:+ b) +:+ c = a +:+ (b +:+ c).
Proof.
  induction a as [|x a IH]; [done|].
  rewrite !append_cons. by rewrite IH.
Qed.

Ltac lookup_finish :=
  match goal with |- context [match ?f with [] => ?fb | _ :: _ => ?f end] =>
    change (match f with [] => fb | _ :: _ => f end) with (Spec.rows_or f fb);
    destruct (Spec.rows_or f fb) as [|r rows]
  end;
  [ reflexivity
  | unfold Chatbot.bind, Chatbot.ret;
    match goal with |- context [Chatbot.upsert_resolved ?a ?b ?c ?d ?e] =>
      destruct (Chatbot.upsert_resolved a b c d e) as [[] g3] end;
    unfold Spec.listing, Spec.advisory; cbn [snd];
    match goal with
    | |- context [match ?kg with Some _ => _ | None => _ end] => destruct kg
    | _ => idtac
    end;
    try match goal with |- context [negb ?ok] => destruct ok end;
    cbn [negb]; rewrite ?append_assoc; reflexivity ].

Section LookupFacts.
Variable data : list course_rec.
Context {G : Type}.

Lemma codes_of_rows (l : list course_rec) :
  Chatbot.code <$> (Chatbot.row_of <$> l) = course <$> l.
Proof. induction l as [|c l IH]; [done|]. rewrite !fmap_cons. by rewrite IH. Qed.

(** The Catalog scan of [build_reply] is the filter of the
    specification: comparing departments in upper case is comparing
    them up to case. *)
Lemma scan_dept x :
  filter (fun c => Str.upper (dept c) = Str.upper x) data
  = filter (fun c => Spec.eq_nocase (dept c) x) data.
Proof. apply list_filter_iff. intros c. apply upper_eq_iff_lower_eq. Qed.

Lemma scan_semester x :
  filter (fun c => Str.lower (semester c) = Str.lower x) data
  = filter (fun c => Spec.eq_nocase (semester c) x) data.
Proof. by apply list_filter_iff. Qed.

Lemma catalog_rows_codes kind x :
  Chatbot.code <$> Spec.catalog_rows data kind x = Spec.catalog_codes data kind x.
Proof. destruct kind; apply codes_of_rows. Qed.

(** Without a healthy index no lookup is sent. *)
Lemma kg_lookup_off (kg : option (Chatbot.GraphIndex G)) ok q g :
  kg = None ∨ ok = false →
  Chatbot.kg_lookup kg ok q g = ([], g).
Proof. intros [-> | ->]; [done|]. unfold Chatbot.kg_lookup. by destruct kg. Qed.

Lemma kg_lookup_logged (k : Chatbot.GraphIndex G) kind x g log :
  Chatbot.kg_lookup (Some (Chatbot.logged k)) true
    (fun kg => Spec.query_of kg kind x) (g, log)
  = (fst (fst (Spec.query_of k kind x g)),
     (snd (Spec.query_of k kind x g), log ++ [Spec.event_of kind x])).
Proof.
  unfold Chatbot.kg_lookup, Chatbot.bind.
  destruct kind; simpl; unfold Chatbot.record_call;
    match goal with |- context [let (_, _) := ?c in _] => by destruct c end.
Qed.

(** [build_reply] on a lookup intent, in terms of the rows it gets from
    the index: the rows of the Catalog when the index gave none, the
    upsert loop, and the listing. *)
Lemma build_reply_lookup (kg : option (Chatbot.GraphIndex G)) kind ents x g :
  Chatbot.get ents (Spec.entity_of kind) = Some x → x ≠ "" →
  Chatbot.build_reply data kg (Spec.intent_of kind) ents g
  = let '(st, g1) := Chatbot._kg_status kg g in
    let '(found, g2) :=
      Chatbot.kg_lookup kg (fst st) (fun kg => Spec.query_of kg kind x) g1 in
    let rows := Spec.rows_or found (Spec.catalog_rows data kind x) in
    match rows with
    | [] => (Spec.no_courses kind, g2)
    | _ => (Spec.listing kind x (Chatbot.code <$> rows) +:+ Spec.advisory kg (fst st),
            snd (Chatbot.upsert_resolved data kg rows (fst st) g2))
    end.
Proof.
  intros Hget Hx. destruct x as [|a x]; [done|].
  unfold Chatbot.build_reply. unfold Chatbot.bind at 1.
  destruct (Chatbot._kg_status kg g) as [[ok e] g1].
  destruct kind;
    cbn [Spec.intent_of Spec.entity_of String.eqb Ascii.eqb Bool.eqb fst snd] in *;
    rewrite Hget; unfold Chatbot.bind at 1; cbn [Spec.query_of];
    match goal with |- context [Chatbot.kg_lookup ?a ?b ?c ?d] =>
      destruct (Chatbot.kg_lookup a b c d) as [found g2] end.
  - change (Chatbot.row_of <$> filter (fun c => teacher c = String a x) data)
      with (Spec.catalog_rows data Spec.ByTeacher (String a x)).
    lookup_finish.
  - rewrite (list_filter_iff (fun c => Str.upper (dept c) = Str.upper (String a x))
               (fun c => Spec.eq_nocase (dept c) (String a x)) data)
      by (intros c; apply upper_eq_iff_lower_eq).
    change (Chatbot.row_of <$> filter (fun c => Spec.eq_nocase (dept c) (String a x)) data)
      with (Spec.catalog_rows data Spec.ByDept (String a x)).
    lookup_finish.
  - change (Chatbot.row_of <$> filter (fun c => Str.lower (semester c) = Str.lower (String a x)) data)
      with (Spec.catalog_rows data Spec.BySemester (String a x)).
    lookup_finish.
Qed.

(** With the probe reporting no healthy index, a lookup intent is answered
    from the Catalog scan alone. *)
Lemma build_reply_catalog_lookup (kg : option (Chatbot.GraphIndex G)) kind ents x g :
  Chatbot.get ents (Spec.entity_of kind) = Some x → x ≠ "" →
  fst (fst (Chatbot._kg_status kg g)) = false →
  Chatbot.build_reply data kg (Spec.intent_of kind) ents g
  = (Spec.lookup_reply kind x (Spec.catalog_codes data kind x) (Spec.advisory kg false),
     snd (Chatbot._kg_status kg g)).
Proof.
  intros Hget Hx Hok. rewrite (build_reply_lookup kg kind ents x g Hget Hx).
  destruct (Chatbot._kg_status kg g) as [[ok e] g1]. simpl in Hok. subst ok.
  cbn [fst snd]. rewrite kg_lookup_off by (by right).
  unfold Spec.rows_or, Spec.lookup_reply. rewrite <- catalog_rows_codes.
  destruct (Spec.catalog_rows data kind x) as [|r rows]; [done|].
  rewrite upsert_resolved_off by (by right). done.
Qed.

End LookupFacts.

(** C1.  Fallback equivalence.  For a lookup intent whose entity is
    present, when the Graph Index is absent or its health probe fails, the
    reply lists exactly the codes obtained by filtering the Catalog by the
    entity value (teacher by exact name, department and semester up to
    case), in Catalog order, or says that there is none; the index
    receives no call besides the probe. *)
Theorem fallback_equivalence (data : list course_rec) {G : Type}
    (kg : option (Chatbot.GraphIndex G)) (kind : Spec.lookup_kind)
    (ents : Chatbot.entities) (x : string) (g : G) :
  Chatbot.get ents (Spec.entity_of kind) = Some x → x ≠ "" →
  kg = None ∨ (∃ k, kg = Some k ∧ fst (fst (Chatbot.health k g)) = false) →
  Chatbot.build_reply data kg (Spec.intent_of kind) ents g
  = (Spec.lookup_reply kind x (Spec.catalog_codes data kind x) (Spec.advisory kg false),
     snd (Chatbot._kg_status kg g)).
Proof.
  intros Hget Hx Hkg. apply build_reply_catalog_lookup; [done|done|].
  destruct Hkg as [-> | (k & -> & Hk)].
  - reflexivity.
  - exact Hk.
Qed.

(** The department lookup on the example Catalog with the index down. *)
Lemma fallback_equivalence_witness :
  Chatbot.build_reply catalog_ex (Some (fixed_kg false [] None)) "dept_courses"
    (<["dept" := Some "cse"]> ∅) 0
  = ("cse department er courses: CSE411, CSE101. (Courses in cse department: CSE411, CSE101.) Neo4j down, dataset result dekhacchi.",
     1).
Proof.
  apply (fallback_equivalence catalog_ex (Some (fixed_kg false [] None)) Spec.ByDept
           (<["dept" := Some "cse"]> ∅) "cse" 0).
  - reflexivity.
  - done.
  - right. exists (fixed_kg false [] None). split; reflexivity.
Defined.

(** ** Write-through *)

Ltac split_intent intent :=
  destruct (String.eqb intent "help");
  [| destruct (String.eqb intent "graph_show");
  [| destruct (String.eqb intent "course_teacher");
  [| destruct (String.eqb intent "course_title");
  [| destruct (String.eqb intent "course_credit");
  [| destruct (String.eqb intent "course_semester");
  [| destruct (String.eqb intent "course_info");
  [| destruct (String.eqb intent "teacher_courses");
  [| destruct (String.eqb intent "dept_courses");
  [| destruct (String.eqb intent "semester_courses") ]]]]]]]]].

Section WriteThroughFacts.
Variable data : list course_rec.
Context {G : Type}.

(** A healthy index: a single-course intent upserts the course found. *)
Lemma single_course_upsert (k : Chatbot.GraphIndex G) intent ents c g log :
  fst (fst (Chatbot.health k g)) = true →
  intent ∈ Spec.single_course_intents →
  Chatbot._get_course data (Chatbot.get ents "course_code") = Some c →
  snd (snd (Chatbot.build_reply data (Some (Chatbot.logged k)) intent ents (g, log)))
  = log ++ [Chatbot.EvHealth; Chatbot.EvUpsert c].
Proof.
  intros Hh Hi Hc. unfold Chatbot.build_reply. unfold Chatbot.bind at 1.
  rewrite status_logged. destruct (Chatbot.health k g) as [[ok e] g1].
  simpl in Hh. subst ok.
  single_intent Hi; cbn [String.eqb Ascii.eqb Bool.eqb fst snd]; rewrite Hc;
    unfold Chatbot.bind; rewrite try_upsert_logged; cbn [Chatbot.ret snd];
    by rewrite <- app_assoc.
Qed.

(** A healthy index: a lookup intent upserts the records its rows
    resolve to, after the lookup. *)
Lemma lookup_upsert (k : Chatbot.GraphIndex G) kind ents x g log :
  fst (fst (Chatbot.health k g)) = true →
  Chatbot.get ents (Spec.entity_of kind) = Some x → x ≠ "" →
  let rows := Spec.rows_or (fst (fst (Spec.query_of k kind x (snd (Chatbot.health k g)))))
                (Spec.catalog_rows data kind x) in
  rows ≠ [] →
  snd (snd (Chatbot.build_reply data (Some (Chatbot.logged k)) (Spec.intent_of kind)
              ents (g, log)))
  = log ++ [Chatbot.EvHealth; Spec.event_of kind x]
        ++ (Chatbot.EvUpsert <$> Spec.resolved data rows).
Proof.
  intros Hh Hget Hx. cbv zeta.
  rewrite (build_reply_lookup data _ kind ents x _ Hget Hx).
  rewrite status_logged. destruct (Chatbot.health k g) as [[ok e] g1].
  simpl in Hh. subst ok. cbn [fst snd]. rewrite kg_lookup_logged.
  destruct (Spec.rows_or _ _) as [|r rows]; [intros H; by destruct H|]. intros _.
  cbn [snd]. rewrite upsert_resolved_logged. by rewrite <- !app_assoc.
Qed.

(** An unhealthy index gets the probe and nothing else. *)
Lemma unhealthy_probe_only (k : Chatbot.GraphIndex G) intent ents g log :
  fst (fst (Chatbot.health k g)) = false →
  snd (Chatbot.build_reply data (Some (Chatbot.logged k)) intent ents (g, log))
  = (snd (Chatbot.health k g), log ++ [Chatbot.EvHealth]).
Proof.
  intros Hh. unfold Chatbot.build_reply. unfold Chatbot.bind at 1.
  rewrite status_logged. destruct (Chatbot.health k g) as [[ok e] g1].
  simpl in Hh. subst ok. cbn [fst snd negb].
  split_intent intent; try reflexivity;
    repeat match goal with
    | |- context [Chatbot._get_course ?d ?o] => destruct (Chatbot._get_course d o)
    | |- context [Chatbot.get ents ?key] => destruct (Chatbot.get ents key) as [[|? ?]|]
    end; try reflexivity;
    unfold Chatbot.bind;
    rewrite ?try_upsert_off, ?kg_lookup_off by (by right); try reflexivity;
    match goal with |- context [match ?l with [] => _ | _ :: _ => _ end] =>
      destruct l end; try reflexivity;
    rewrite upsert_resolved_off by (by right); reflexivity.
Qed.

(** No index: the state is left as it was. *)
Lemma unconfigured_no_call intent ents (g : G) :
  snd (Chatbot.build_reply data None intent ents g) = g.
Proof.
  unfold Chatbot.build_reply. unfold Chatbot.bind at 1. cbn [Chatbot._kg_status Chatbot.ret fst snd].
  split_intent intent; try reflexivity;
    repeat match goal with
    | |- context [Chatbot._get_course ?d ?o] => destruct (Chatbot._get_course d o)
    | |- context [Chatbot.get ents ?key] => destruct (Chatbot.get ents key) as [[|? ?]|]
    end; try reflexivity;
    unfold Chatbot.bind;
    rewrite ?try_upsert_none, ?kg_lookup_off by (by left); try reflexivity;
    match goal with |- context [match ?l with [] => _ | _ :: _ => _ end] =>
      destruct l end; try reflexivity;
    rewrite upsert_resolved_off by (by left); reflexivity.
Qed.

(** The reply does not depend on what the upsert does or returns. *)
Lemma reply_ignores_upsert (k : Chatbot.GraphIndex G) u u' intent ents g :
  fst (Chatbot.build_reply data (Some (with_upsert k u)) intent ents g)
  = fst (Chatbot.build_reply data (Some (with_upsert k u')) intent ents g).
Proof.
  unfold Chatbot.build_reply, Chatbot.bind.
  cbn [Chatbot._kg_status with_upsert Chatbot.health].
  destruct (Chatbot.health k g) as [[ok e] g1]. cbn [fst snd].
  split_intent intent; try reflexivity;
    repeat match goal with
    | |- context [Chatbot._get_course ?d ?o] => destruct (Chatbot._get_course d o)
    | |- context [Chatbot.get ents ?key] => destruct (Chatbot.get ents key) as [[|? ?]|]
    end; try reflexivity;
    unfold Chatbot.kg_lookup, Chatbot.bind, Chatbot.ret;
    cbn [with_upsert Chatbot.get_courses_by_teacher Chatbot.get_courses_by_dept
         Chatbot.get_courses_by_semester];
    destruct ok; cbn [negb];
    repeat match goal with
    | |- context [Chatbot._try_upsert ?a ?b ?c ?d] =>
        destruct (Chatbot._try_upsert a b c d) as [[] ?]
    | |- context [Chatbot.get_courses_by_teacher ?a ?b ?c] =>
        destruct (Chatbot.get_courses_by_teacher a b c) as [[? ?] ?]
    | |- context [Chatbot.get_courses_by_dept ?a ?b ?c] =>
        destruct (Chatbot.get_courses_by_dept a b c) as [[? ?] ?]
    | |- context [Chatbot.get_courses_by_semester ?a ?b ?c] =>
        destruct (Chatbot.get_courses_by_semester a b c) as [[? ?] ?]
    end; cbn [fst snd]; try reflexivity;
    repeat match goal with |- context [match ?l with [] => _ | _ :: _ => _ end] =>
      destruct l end; try reflexivity;
    repeat match goal with
    | |- context [Chatbot.upsert_resolved ?a ?b ?c ?d ?e] =>
        destruct (Chatbot.upsert_resolved a b c d e) as [[] ?]
    end; reflexivity.
Qed.

End WriteThroughFacts.

(** C2.  Write-through.  With a healthy index, the course found by a
    single-course intent is upserted after the probe, and a lookup intent
    upserts, after its lookup and in the order of its rows, every Catalog
    record that a row resolves to.  With the probe failing only the probe
    reaches the index, and with no index configured nothing is called.  The
    reply text is the same whatever the upsert operation does or returns. *)
Theorem write_through (data : list course_rec) {G : Type} (k : Chatbot.GraphIndex G)
    (intent : string) (ents : Chatbot.entities) (g : G) (log : list Chatbot.event) :
  let healthy := fst (fst (Chatbot.health k g)) in
  let events :=
    snd (snd (Chatbot.build_reply data (Some (Chatbot.logged k)) intent ents (g, log))) in
  (healthy = true →
     (∀ c, intent ∈ Spec.single_course_intents →
           Chatbot._get_course data (Chatbot.get ents "course_code") = Some c →
           events = log ++ [Chatbot.EvHealth; Chatbot.EvUpsert c]) ∧
     (∀ kind x, intent = Spec.intent_of kind →
           Chatbot.get ents (Spec.entity_of kind) = Some x → x ≠ "" →
           let rows :=
             Spec.rows_or (fst (fst (Spec.query_of k kind x (snd (Chatbot.health k g)))))
               (Spec.catalog_rows data kind x) in
           rows ≠ [] →
           events = log ++ [Chatbot.EvHealth; Spec.event_of kind x]
                        ++ (Chatbot.EvUpsert <$> Spec.resolved data rows))) ∧
  (healthy = false → events = log ++ [Chatbot.EvHealth]) ∧
  (∀ g0 : G, snd (Chatbot.build_reply data None intent ents g0) = g0) ∧
  (∀ u u', fst (Chatbot.build_reply data (Some (with_upsert k u)) intent ents g)
           = fst (Chatbot.build_reply data (Some (with_upsert k u')) intent ents g)).
Proof.
  cbv zeta. split; [|split; [|split]].
  - intros Hh. split.
    + intros c Hi Hc. by apply single_course_upsert.
    + intros kind x -> Hget Hx Hrows. by apply lookup_upsert.
  - intros Hh. by rewrite unhealthy_probe_only.
  - intros g0. apply (unconfigured_no_call data intent ents g0).
  - intros u u'. apply (reply_ignores_upsert data k u u' intent ents g).
Qed.

(** "CSE department courses" against an index that answers with one row:
    the row's record is upserted after the probe and the lookup. *)
Lemma write_through_witness :
  snd (snd (Chatbot.build_reply catalog_ex
              (Some (Chatbot.logged (fixed_kg true [Chatbot.Row "cse101" "Programming"] None)))
              "dept_courses" (<["dept" := Some "CSE"]> ∅) (0, [])))
  = [Chatbot.EvHealth; Chatbot.EvByDept "CSE";
     Chatbot.EvUpsert (Course "CSE101" "Programming" "Jane Smith" "CSE" "Spring 2025" 3)].
Proof.
  refine (proj2 (proj1 (write_through catalog_ex
            (fixed_kg true [Chatbot.Row "cse101" "Programming"] None)
            "dept_courses" (<["dept" := Some "CSE"]> ∅) 0 []) _)
            Spec.ByDept "CSE" _ _ _ _).
  - reflexivity.
  - reflexivity.
  - reflexivity.
  - done.
  - done.
Defined.

(** ** The advisory suffix *)

Section AdvisoryFacts.

Lemma endswith_append_r w a b :
  Str.endswith w b = true → Str.endswith w (a +:+ b) = true.
Proof.
  intros H. induction a as [|x a IH]; [done|].
  rewrite append_cons. cbn [Str.endswith]. rewrite IH. apply orb_true_r.
Qed.

End AdvisoryFacts.

(** C3, as the code has it.  With an index configured and its health
    probe failing, the reply about a course found by a single-course intent
    ends with the advisory suffix, and the reply of a lookup that finds
    courses is the listing of the Catalog's codes followed by the suffix.
    When the probe succeeds and the lookup call then fails (no row, an
    error text), the reply is still built from the Catalog, with no
    suffix. *)
Theorem advisory_on_failed_probe (data : list course_rec) {G : Type}
    (k : Chatbot.GraphIndex G) (ents : Chatbot.entities) (g : G) :
  (fst (fst (Chatbot.health k g)) = false →
     (∀ intent c, intent ∈ Spec.single_course_intents →
        Chatbot._get_course data (Chatbot.get ents "course_code") = Some c →
        Str.endswith Chatbot.warning_text
          (fst (Chatbot.build_reply data (Some k) intent ents g)) = true) ∧
     (∀ kind x, Chatbot.get ents (Spec.entity_of kind) = Some x → x ≠ "" →
        Spec.catalog_codes data kind x ≠ [] →
        fst (Chatbot.build_reply data (Some k) (Spec.intent_of kind) ents g)
        = Spec.listing kind x (Spec.catalog_codes data kind x) +:+ Chatbot.warning_text ∧
        Str.endswith Chatbot.warning_text
          (fst (Chatbot.build_reply data (Some k) (Spec.intent_of kind) ents g)) = true)) ∧
  (fst (fst (Chatbot.health k g)) = true →
     ∀ kind x err, Chatbot.get ents (Spec.entity_of kind) = Some x → x ≠ "" →
        fst (Spec.query_of k kind x (snd (Chatbot.health k g))) = ([], Some err) →
        fst (Chatbot.build_reply data (Some k) (Spec.intent_of kind) ents g)
        = Spec.lookup_reply kind x (Spec.catalog_codes data kind x) "").
Proof.
  split; [intros Hh; split|intros Hh].
  - intros intent c Hi Hc. unfold Chatbot.build_reply. unfold Chatbot.bind at 1.
    cbn [Chatbot._kg_status]. destruct (Chatbot.health k g) as [[ok e] g1].
    simpl in Hh. subst ok.
    single_intent Hi; cbn [String.eqb Ascii.eqb Bool.eqb fst snd negb]; rewrite Hc;
      unfold Chatbot.bind; rewrite try_upsert_off; cbn [Chatbot.ret fst];
      repeat apply endswith_append_r; apply endswith_refl.
  - intros kind x Hget Hx Hne.
    assert (E : fst (Chatbot.build_reply data (Some k) (Spec.intent_of kind) ents g)
                = Spec.listing kind x (Spec.catalog_codes data kind x) +:+ Chatbot.warning_text).
    { rewrite (build_reply_catalog_lookup data (Some k) kind ents x g Hget Hx Hh).
      cbn [fst]. unfold Spec.lookup_reply.
      by destruct (Spec.catalog_codes data kind x). }
    split; [exact E|]. rewrite E. apply endswith_append.
  - intros kind x err Hget Hx Hq.
    rewrite (build_reply_lookup data _ kind ents x _ Hget Hx).
    cbn [Chatbot._kg_status]. destruct (Chatbot.health k g) as [[ok e] g1].
    simpl in Hh. subst ok. cbn [fst snd] in *.
    unfold Chatbot.kg_lookup, Chatbot.bind.
    destruct (Spec.query_of k kind x g1) as [r g2]. simpl in Hq. subst r.
    cbn [Chatbot.ret fst Spec.rows_or]. unfold Spec.lookup_reply.
    rewrite <- catalog_rows_codes.
    destruct (Spec.catalog_rows data kind x) as [|r rows]; [done|].
    cbn [fst Spec.advisory]. by rewrite fmap_cons.
Qed.

(** The probe fails: the title reply carries the suffix. *)
Lemma advisory_on_failed_probe_witness :
  Str.endswith Chatbot.warning_text
    (fst (Chatbot.build_reply catalog_ex (Some (fixed_kg false [] None)) "course_title"
            (<["course_code" := Some "CSE411"]> ∅) 0)) = true.
Proof.
  refine (proj1 (proj1 (advisory_on_failed_probe catalog_ex (fixed_kg false [] None)
            (<["course_code" := Some "CSE411"]> ∅) 0) _) "course_title"
            (Course "CSE411" "Algorithms" "Dr. A" "CSE" "Fall 2024" 3) _ _).
  - reflexivity.
  - unfold Spec.single_course_intents. apply elem_of_cons. right. apply elem_of_cons. by left.
  - vm_compute. reflexivity.
Defined.

(** The property as the specification words it fails: the probe succeeds, the
    lookup call fails with an error text, the reply falls back to the
    Catalog and carries no advisory suffix. *)
Lemma advisory_on_failed_call_counterexample :
  fst (Chatbot.health (fixed_kg true [] (Some "ServiceUnavailable")) 0) = (true, None) ∧
  fst (Chatbot.get_courses_by_teacher (fixed_kg true [] (Some "ServiceUnavailable")) "Dr. A" 1)
  = ([], Some "ServiceUnavailable") ∧
  fst (Chatbot.build_reply catalog_ex (Some (fixed_kg true [] (Some "ServiceUnavailable")))
         "teacher_courses" (<["teacher" := Some "Dr. A"]> ∅) 0)
  = "Dr. A er courses: CSE411. (Courses taught by Dr. A: CSE411.)" ∧
  Str.endswith Chatbot.warning_text
    (fst (Chatbot.build_reply catalog_ex (Some (fixed_kg true [] (Some "ServiceUnavailable")))
            "teacher_courses" (<["teacher" := Some "Dr. A"]> ∅) 0)) = false.
Proof. vm_compute. repeat split. Qed.

(** ** The matcher *)

Section MatcherFacts.

Lemma first_some_app {R} (k : Re.mstate → option R) l1 l2 :
  Re.first_some k (l1 ++ l2)
  = match Re.first_some k l1 with
    | Some x => Some x
    | None => Re.first_some k l2
    end.
Proof.
  induction l1 as [|st l1 IH]; simpl; [done|].
  destruct (k st); [done|apply IH].
Qed.

Lemma first_some_ext {R} (k k' : Re.mstate → option R) l :
  (∀ st, k st = k' st) → Re.first_some k l = Re.first_some k' l.
Proof.
  intros H. induction l as [|st l IH]; simpl; [done|]. by rewrite H, IH.
Qed.

Lemma first_some_bind {R} (k : Re.mstate → option R) (f : Re.mstate → list Re.mstate) l :
  Re.first_some k (l ≫= f) = Re.first_some (fun st => Re.first_some k (f st)) l.
Proof.
  induction l as [|st l IH]; [done|].
  rewrite bind_cons, first_some_app. simpl. by rewrite IH.
Qed.

Lemma first_some_fmap {R} (k : Re.mstate → option R) (f : Re.mstate → Re.mstate) l :
  Re.first_some k (f <$> l) = Re.first_some (fun st => k (f st)) l.
Proof.
  induction l as [|st l IH]; [done|].
  rewrite fmap_cons. simpl. by rewrite IH.
Qed.

Lemma plus_cls_ends {R} p (k : Re.mstate → option R) s cs :
  Re.plus_cls p k s cs = Re.first_some k (Re.plus_ends p s cs).
Proof.
  induction s as [|c s IH]; simpl; [done|].
  destruct (p c); [|done].
  rewrite first_some_app, IH. simpl.
  destruct (Re.first_some k (Re.plus_ends p s cs)); [done|].
  by destruct (k _).
Qed.

(** The matcher returns what its continuation makes of the first end
    state that it accepts. *)
Theorem m_ends {R} r (k : Re.mstate → option R) st :
  Re.m r k st = Re.first_some k (Re.ends r st).
Proof.
  revert k st. induction r as [|p| |r1 IH1 r2 IH2|r1 IH1 r2 IH2|r1 IH1|p|i r1 IH1];
    intros k st; simpl.
  - by destruct (k st).
  - destruct (Re.rest st) as [|c s]; [done|]. destruct (p c); [|done].
    simpl. by destruct (k _).
  - destruct (Re.at_boundary st); [|done]. simpl. by destruct (k st).
  - rewrite IH1, first_some_bind. apply first_some_ext. intros st'. apply IH2.
  - rewrite first_some_app, IH1, IH2. done.
  - rewrite first_some_app, IH1. simpl.
    destruct (Re.first_some k (Re.ends r1 st)); [done|]. by destruct (k st).
  - apply plus_cls_ends.
  - rewrite IH1, first_some_fmap. done.
Qed.

(** A match object is the captures of the first end state. *)
Lemma match_at_ends r pv s :
  Re.match_at r pv s
  = Re.caps <$> head (Re.ends (Re.Grp 0 r) (Re.MState pv s ∅)).
Proof.
  unfold Re.match_at. rewrite m_ends.
  by destruct (Re.ends (Re.Grp 0 r) (Re.MState pv s ∅)).
Qed.

(** A search result is a match at some position of the text. *)
Lemma search_from_match r pv s mt :
  Re.search_from r pv s = Some mt →
  ∃ pv' s', Re.match_at r pv' s' = Some mt.
Proof.
  revert pv. induction s as [|c s IH]; intros pv; simpl.
  - destruct (Re.match_at r pv "") eqn:E; [|done]. intros [= <-]. eauto.
  - destruct (Re.match_at r pv (String c s)) eqn:E.
    + intros [= <-]. eauto.
    + apply IH.
Qed.

Lemma plus_ends_length p s cs st' :
  st' ∈ Re.plus_ends p s cs → String.length (Re.rest st') < String.length s.
Proof.
  revert st'. induction s as [|c s IH]; intros st'; simpl.
  - by intros ?%elem_of_nil.
  - destruct (p c); [|by intros ?%elem_of_nil].
    intros [H|H]%elem_of_app.
    + apply IH in H. lia.
    + apply list_elem_of_singleton in H. subst. simpl. lia.
Qed.

Lemma plus_ends_caps p s cs st' :
  st' ∈ Re.plus_ends p s cs → Re.caps st' = cs.
Proof.
  revert st'. induction s as [|c s IH]; intros st'; simpl.
  - by intros ?%elem_of_nil.
  - destruct (p c); [|by intros ?%elem_of_nil].
    intros [H|H]%elem_of_app; [by apply IH|].
    apply list_elem_of_singleton in H. by subst.
Qed.

(** A match never moves backwards. *)
Lemma ends_length r st st' :
  st' ∈ Re.ends r st → String.length (Re.rest st') ≤ String.length (Re.rest st).
Proof.
  revert st st'. induction r as [|p| |r1 IH1 r2 IH2|r1 IH1 r2 IH2|r1 IH1|p|i r1 IH1];
    intros st st'; simpl.
  - intros ->%list_elem_of_singleton. done.
  - destruct (Re.rest st) as [|c s]; [by intros ?%elem_of_nil|].
    destruct (p c); [|by intros ?%elem_of_nil].
    intros ->%list_elem_of_singleton. simpl. lia.
  - destruct (Re.at_boundary st); [|by intros ?%elem_of_nil].
    intros ->%list_elem_of_singleton. done.
  - intros (st1 & H2 & H1)%list_elem_of_bind.
    apply IH1 in H1. apply IH2 in H2. lia.
  - intros [H|H]%elem_of_app; [by apply IH1|by apply IH2].
  - intros [H|H]%elem_of_app; [by apply IH1|].
    apply list_elem_of_singleton in H. by subst.
  - intros H%plus_ends_length. lia.
  - intros (st1 & -> & H)%list_elem_of_fmap. simpl. by apply IH1.
Qed.

(** Captured groups stay captured. *)
Lemma ends_caps_mono r st st' i :
  st' ∈ Re.ends r st → is_Some (Re.caps st !! i) → is_Some (Re.caps st' !! i).
Proof.
  revert st st'. induction r as [|p| |r1 IH1 r2 IH2|r1 IH1 r2 IH2|r1 IH1|p|j r1 IH1];
    intros st st'; simpl.
  - intros ->%list_elem_of_singleton. done.
  - destruct (Re.rest st) as [|c s]; [by intros ?%elem_of_nil|].
    destruct (p c); [|by intros ?%elem_of_nil].
    intros ->%list_elem_of_singleton. done.
  - destruct (Re.at_boundary st); [|by intros ?%elem_of_nil].
    intros ->%list_elem_of_singleton. done.
  - intros (st1 & H2 & H1)%list_elem_of_bind Hi. eauto.
  - intros [H|H]%elem_of_app; eauto.
  - intros [H|H]%elem_of_app; [eauto|].
    apply list_elem_of_singleton in H. by subst.
  - intros H%plus_ends_caps. by rewrite H.
  - intros (st1 & -> & H)%list_elem_of_fmap Hi. simpl.
    destruct (decide (j = i)) as [->|Hne].
    + rewrite lookup_insert_eq. eauto.
    + rewrite lookup_insert_ne by done. eauto.
Qed.

(** A group that every match goes through is captured at the end. *)
Lemma ends_sets r st st' i :
  Re.sets i r = true → st' ∈ Re.ends r st → is_Some (Re.caps st' !! i).
Proof.
  revert st st'. induction r as [|p| |r1 IH1 r2 IH2|r1 IH1 r2 IH2|r1 IH1|p|j r1 IH1];
    intros st st'; simpl; try done.
  - intros [Hs|Hs]%orb_true_iff (st1 & H2 & H1)%list_elem_of_bind.
    + eapply ends_caps_mono; eauto.
    + eauto.
  - intros [Hs1 Hs2]%andb_true_iff [H|H]%elem_of_app; eauto.
  - intros Hs (st1 & -> & H)%list_elem_of_fmap. simpl.
    destruct (decide (j = i)) as [->|Hne].
    + rewrite lookup_insert_eq. eauto.
    + rewrite lookup_insert_ne by done.
      apply orb_true_iff in Hs as [Hs|Hs]; [|eauto].
      apply Nat.eqb_eq in Hs. by subst.
Qed.

End MatcherFacts.

(** ** Entity extraction is total *)

Section ExtractFacts.

Lemma match_at_sets r pv s mt i :
  Re.sets i (Re.Grp 0 r) = true → Re.match_at r pv s = Some mt → is_Some (mt !! i).
Proof.
  intros Hs. rewrite match_at_ends.
  destruct (Re.ends (Re.Grp 0 r) (Re.MState pv s ∅)) as [|st' l] eqn:E; [done|].
  intros [= <-]. apply (ends_sets (Re.Grp 0 r) (Re.MState pv s ∅)); [done|].
  rewrite E. apply elem_of_cons. by left.
Qed.

Lemma search_sets r text mt i :
  Re.sets i (Re.Grp 0 r) = true → Re.search r text = Some mt → is_Some (Re.group mt i).
Proof.
  intros Hs (pv & s & H)%search_from_match. by eapply match_at_sets.
Qed.

Lemma split_from_nonempty cur s : cur ≠ [] → Str.split_from cur s ≠ [].
Proof.
  revert cur. induction s as [|c s IH]; intros cur Hcur; simpl.
  - by destruct cur.
  - destruct (Str.is_space c); [by destruct cur|].
    by apply IH.
Qed.

Lemma space_lower_char x : Str.is_space (Str.lower_char x) = Str.is_space x.
Proof. destruct x as [[] [] [] [] [] [] [] []]; reflexivity. Qed.

(** A match of a non-empty literal consumes a first character equal to
    the literal's, up to case under IGNORECASE. *)
Lemma lit_first ic c w st st' :
  st' ∈ Re.ends (Re.lit ic (String c w)) st →
  ∃ x s2, Re.rest st = String x s2 ∧
          (if ic then Str.lower_char x = Str.lower_char c else x = c) ∧
          String.length (Re.rest st') ≤ String.length s2.
Proof.
  simpl. intros (st1 & H2 & H1)%list_elem_of_bind.
  destruct (Re.rest st) as [|x s2]; [by apply elem_of_nil in H1|].
  exists x, s2. split; [done|].
  destruct ic.
  - destruct (Ascii.eqb_spec (Str.lower_char x) (Str.lower_char c)) as [E|];
      [|by apply elem_of_nil in H1].
    apply list_elem_of_singleton in H1. subst st1.
    split; [done|]. by apply ends_length in H2.
  - destruct (Ascii.eqb_spec x c) as [E|]; [|by apply elem_of_nil in H1].
    apply list_elem_of_singleton in H1. subst st1.
    split; [done|]. by apply ends_length in H2.
Qed.

(** A semester match starts with a character that is not whitespace. *)
Lemma semester_first st st' :
  st' ∈ Re.ends SEMESTER_RE st →
  ∃ x s2, Re.rest st = String x s2 ∧ Str.is_space x = false ∧
          String.length (Re.rest st') ≤ String.length s2.
Proof.
  unfold SEMESTER_RE.
  remember (Re.Seq (Re.PlusCls Str.is_space) _) as tail eqn:Etail. clear Etail.
  remember (Re.alts _ _) as seasons eqn:Eseasons.
  cbn [Re.ends].
  intros (st0 & H & H0)%list_elem_of_bind.
  destruct (Re.at_boundary st); [|by apply elem_of_nil in H0].
  apply list_elem_of_singleton in H0. subst st0.
  apply list_elem_of_bind in H as (st1 & H & H1).
  apply ends_length in H.
  apply list_elem_of_fmap in H1 as (st2 & -> & H1). cbn [Re.set_cap Re.rest] in H.
  subst seasons. cbn [Re.alts Re.ends] in H1.
  assert (Hlit : ∃ c w, Str.is_space c = false ∧
                        st2 ∈ Re.ends (Re.lit true (String c w)) st).
  { repeat (apply elem_of_app in H1 as [H1|H1];
            [eexists _, _; split; [|exact H1]; reflexivity|]).
    eexists _, _; split; [|exact H1]; reflexivity. }
  destruct Hlit as (c & w & Hc & Hlit).
  apply lit_first in Hlit as (x & s2 & Hr & Hx & Hlen).
  exists x, s2. split; [done|]. split; [|lia].
  by rewrite <- space_lower_char, Hx, space_lower_char.
Qed.

(** [split()[-1]] of a semester match never fails. *)
Lemma semester_match_year pv s mt :
  Re.match_at SEMESTER_RE pv s = Some mt →
  ∃ g1 g0 year, Re.group mt 1 = Some g1 ∧ Re.group mt 0 = Some g0 ∧
                last (Str.split g0) = Some year.
Proof.
  intros Hm.
  destruct (match_at_sets SEMESTER_RE pv s mt 1 eq_refl Hm) as [g1 Hg1].
  rewrite match_at_ends in Hm. cbn [Re.ends] in Hm.
  destruct (Re.ends SEMESTER_RE (Re.MState pv s ∅)) as [|st1 l] eqn:E; [done|].
  rewrite fmap_cons in Hm. injection Hm as <-.
  assert (Hin : st1 ∈ Re.ends SEMESTER_RE (Re.MState pv s ∅)).
  { rewrite E. apply elem_of_cons. by left. }
  apply semester_first in Hin as (x & s2 & Hr & Hx & Hlen). simpl in Hr. subst s.
  exists g1. eexists. 
  assert (Hg0 : Re.group (Re.caps (Re.set_cap 0 (Re.MState pv (String x s2) ∅) st1)) 0
                = Some (String x (String.substring 0
                     (String.length s2 - String.length (Re.rest st1)) s2))).
  { unfold Re.group. cbn [Re.set_cap Re.caps]. rewrite lookup_insert_eq.
    unfold Re.consumed. cbn [Re.rest String.length].
    by rewrite Nat.sub_succ_l. }
  assert (Hl : is_Some (last (Str.split (String x (String.substring 0
                     (String.length s2 - String.length (Re.rest st1)) s2))))).
  { apply last_is_Some. unfold Str.split. cbn [Str.split_from]. rewrite Hx.
    by apply split_from_nonempty. }
  destruct Hl as [year Hl]. exists year. done.
Qed.

Variable data : list course_rec.

Lemma extract_semester_total text : is_Some (Chatbot.extract_semester text).
Proof.
  unfold Chatbot.extract_semester.
  destruct (Re.search SEMESTER_RE text) as [mt|] eqn:E; [|done].
  apply search_from_match in E as (pv & s & Hm).
  apply semester_match_year in Hm as (g1 & g0 & year & -> & -> & Hy).
  simpl. rewrite Hy. done.
Qed.

Lemma extract_dept_total text_upper : is_Some (Chatbot.extract_dept data text_upper).
Proof.
  unfold Chatbot.extract_dept.
  destruct (Chatbot.dept_re data) as [re|] eqn:Ere; [|done].
  destruct (Re.search re text_upper) as [mt|] eqn:E; [|done].
  assert (Hs : Re.sets 1 (Re.Grp 0 re) = true).
  { unfold Chatbot.dept_re in Ere.
    destruct (Chatbot.dept_names data) as [|n ns]; [done|].
    destruct n as [|a n]; [destruct ns; [done|]|]; by injection Ere as <-. }
  destruct (search_sets re text_upper mt 1 Hs E) as [g ->]. done.
Qed.

(** [extract_entities] never raises. *)
Lemma extract_entities_total text :
  ∃ dept semester,
    Chatbot.extract_entities data text
    = Some (<["course_code" := Chatbot.extract_course_code (Str.upper text)]>
             (<["teacher" := Chatbot._match_from_list (Str.lower text)
                               (Chatbot.teacher_names data)]>
               (<["dept" := dept]> (<["semester" := semester]> ∅)))).
Proof.
  unfold Chatbot.extract_entities.
  destruct (extract_dept_total (Str.upper text)) as [d ->].
  destruct (extract_semester_total text) as [s ->].
  by exists d, s.
Qed.

End ExtractFacts.

(** C10.  For every text, [extract_entities] returns (it does not raise)
    a dictionary whose keys are exactly course_code, teacher, dept and
    semester, each mapped to a string or to [None]; so the entity bundle
    that [process] returns has the four fields. *)
Theorem extract_entities_four_keys (data : list course_rec) (text : string) :
  ∃ ents : Chatbot.entities,
    Chatbot.extract_entities data text = Some ents ∧
    dom ents = {["course_code"; "teacher"; "dept"; "semester"]} ∧
    (∀ key, key ∈ ["course_code"; "teacher"; "dept"; "semester"] →
       ∃ v : option string, ents !! key = Some v) ∧
    (∀ G (kg : option (Chatbot.GraphIndex G)) (g : G),
       ∃ reply intent g', Chatbot.process data kg text g = Some ((reply, intent, ents), g')).
Proof.
  destruct (extract_entities_total data text) as (d & s & He).
  eexists. split; [exact He|]. split; [|split].
  - rewrite !dom_insert_L, dom_empty_L. set_solver.
  - intros key Hk.
    repeat (apply elem_of_cons in Hk as [->|Hk]; [by eexists|]).
    by apply elem_of_nil in Hk.
  - intros G kg g. unfold Chatbot.process. rewrite He. simpl.
    destruct (Chatbot.build_reply _ _ _ _ _) as [reply g']. by eexists _, _, _.
Qed.

(** ** Course codes *)

Section CourseCodeFacts.

Lemma consumed_same p s c p' c' :
  Re.consumed (Re.MState p s c) (Re.MState p' s c') = "".
Proof. unfold Re.consumed. simpl. rewrite Nat.sub_diag. by destruct s. Qed.

Lemma consumed_cons p a s c st' :
  String.length (Re.rest st') ≤ String.length s →
  Re.consumed (Re.MState p (String a s) c) st'
  = String a (Re.consumed (Re.MState (Some a) s c) st').
Proof.
  intros H. unfold Re.consumed. cbn [Re.rest String.length].
  by rewrite Nat.sub_succ_l.
Qed.

(** Three characters of a class. *)
Lemma m_rep3 {R} p (k : Re.mstate → option R) st :
  Re.m (Re.rep 3 (Re.Cls p)) k st
  = match Re.rest st with
    | String a (String b (String c s')) =>
        if p a && p b && p c then k (Re.MState (Some c) s' (Re.caps st)) else None
    | _ => None
    end.
Proof.
  unfold Re.rep, Nat.iter. cbn [nat_rect Re.m Re.rest Re.caps].
  destruct (Re.rest st) as [|a [|b [|c s']]]; try reflexivity;
    destruct (p a); try reflexivity; destruct (p b); try reflexivity;
    destruct (p c); reflexivity.
Qed.

Lemma space_not_digit w : Str.is_space w = true → Str.is_digit w = false.
Proof. destruct w as [[] [] [] [] [] [] [] []]; by vm_compute. Qed.

Lemma upper_is_word c : Str.is_upper c = true → Str.is_word c = true.
Proof. unfold Str.is_word, Str.is_alpha. by intros ->. Qed.

Lemma digit_is_word c : Str.is_digit c = true → Str.is_word c = true.
Proof. unfold Str.is_word. intros ->. by rewrite orb_true_r. Qed.

(** The digits, the closing boundary and the result, from the state
    [st] reached after the separator; [g1] is group 1. *)
Lemma digits_tail pv0 s0 st g1 :
  Re.caps st = <[1 := g1]> ∅ →
  Spec.code_of <$>
    Re.m (Re.Seq (Re.Grp 2 (Re.rep 3 (Re.Cls Str.is_digit))) Re.WordB)
      (fun st' => Some (<[0 := Re.consumed (Re.MState pv0 s0 ∅) st']> (Re.caps st'))) st
  = match Re.rest st with
    | String d1 (String d2 (String d3 post)) =>
        if Str.is_digit d1 && Str.is_digit d2 && Str.is_digit d3
           && negb (Re.word_opt (Re.next post))
        then Some (g1 +:+ String d1 (String d2 (String d3 "")))
        else None
    | _ => None
    end.
Proof.
  intros Hc. cbn [Re.m]. rewrite m_rep3.
  destruct st as [p s cs]. cbn [Re.rest Re.caps] in *. subst cs.
  destruct s as [|d1 [|d2 [|d3 post]]]; try reflexivity.
  destruct (Str.is_digit d1) eqn:E1; [|done].
  destruct (Str.is_digit d2) eqn:E2; [|done].
  destruct (Str.is_digit d3) eqn:E3; [|done].
  cbn [andb]. unfold Re.at_boundary. cbn [Re.set_cap Re.prev Re.rest Re.caps Re.word_opt].
  rewrite (digit_is_word d3 E3). cbn [xorb].
  destruct (Re.word_opt (Re.next post)); [done|].
  cbn [negb fmap option_fmap option_map]. f_equal.
  unfold Spec.code_of, Re.group.
  rewrite lookup_insert_ne by done. rewrite lookup_insert_ne by done.
  rewrite lookup_insert_eq.
  rewrite lookup_insert_ne by done. rewrite lookup_insert_eq.
  cbn [Chatbot.fmt default]. f_equal.
  rewrite !consumed_cons by (simpl; lia). by rewrite consumed_same.
Qed.

Lemma match_code_here pv s :
  Spec.code_of <$> Re.match_at COURSE_CODE_RE pv s = Spec.code_here pv s.
Proof.
  unfold Re.match_at, COURSE_CODE_RE.
  set (tail := Re.Seq (Re.Grp 2 _) Re.WordB).
  cbn [Re.m]. unfold Re.at_boundary at 1. cbn [Re.rest Re.prev].
  rewrite m_rep3. cbn [Re.rest Re.caps Re.set_cap].
  destruct s as [|l1 [|l2 [|l3 s3]]];
    try (by destruct (xorb _ _)).
  rewrite !consumed_cons by (simpl; lia). rewrite consumed_same.
  cbn [Re.next Re.word_opt Spec.code_here].
  destruct (Str.is_upper l1) eqn:E1; cycle 1.
  { cbn [andb]. rewrite !andb_false_r. cbn [andb].
    destruct (xorb _ _); repeat case_match; done. }
  rewrite (upper_is_word l1 E1).
  destruct (Re.word_opt pv); cbn [xorb negb andb];
    [repeat case_match; done|].
  destruct (Str.is_upper l2); cbn [andb]; [|repeat case_match; done].
  destruct (Str.is_upper l3); cbn [andb]; [|repeat case_match; done].
  unfold Re.set_cap. cbn [Re.rest Re.caps Re.prev].
  rewrite ?consumed_cons by (simpl; lia). rewrite ?consumed_same.
  assert (Htail : ∀ st, Re.caps st = <[1 := String l1 (String l2 (String l3 ""))]> ∅ →
    Spec.code_of <$> Re.m tail
      (fun st' => Some (<[0 := Re.consumed
         (Re.MState pv (String l1 (String l2 (String l3 s3))) ∅) st']> (Re.caps st'))) st
    = match Re.rest st with
      | String d1 (String d2 (String d3 post)) =>
          if Str.is_digit d1 && Str.is_digit d2 && Str.is_digit d3
             && negb (Re.word_opt (Re.next post))
          then Some (String l1 (String l2 (String l3
                      (String d1 (String d2 (String d3 ""))))))
          else None
      | _ => None
      end).
  { intros st Hst. subst tail. by rewrite (digits_tail _ _ _ _ Hst). }
  destruct s3 as [|w s4].
  - by rewrite Htail.
  - destruct (Str.is_space w) eqn:Ew.
    + match goal with |- context [Re.m tail ?k (Re.MState (Some w) s4 ?cs)] =>
        pose proof (Htail (Re.MState (Some w) s4 cs) eq_refl) as Ha;
        destruct (Re.m tail k (Re.MState (Some w) s4 cs)) as [x|]
      end.
      * exact Ha.
      * rewrite Htail by done. cbn [Re.rest] in *.
        rewrite (space_not_digit w Ew). cbn [andb]. rewrite <- Ha.
        by repeat case_match.
    + by rewrite Htail.
Qed.

(** The extraction is the scan for the first code. *)
Lemma search_scan_code pv s :
  Spec.code_of <$> Re.search_from COURSE_CODE_RE pv s = Spec.scan_code pv s.
Proof.
  revert pv. induction s as [|x s IH]; intros pv; cbn [Re.search_from Spec.scan_code];
    rewrite <- match_code_here;
    destruct (Re.match_at COURSE_CODE_RE pv _); try done; apply IH.
Qed.

Lemma extract_course_code_scan u :
  Chatbot.extract_course_code u = Spec.scan_code None u.
Proof.
  unfold Chatbot.extract_course_code. rewrite <- search_scan_code.
  unfold Re.search. by destruct (Re.search_from COURSE_CODE_RE None u).
Qed.

End CourseCodeFacts.

Section CodeSpecFacts.

Lemma digit_not_space d : Str.is_digit d = true → Str.is_space d = false.
Proof. destruct d as [[] [] [] [] [] [] [] []]; by vm_compute. Qed.

(** [code_here] decides [starts_code]. *)
Lemma code_here_spec pv s c :
  Spec.code_here pv s = Some c ↔ Spec.starts_code pv s c.
Proof.
  split.
  - unfold Spec.code_here.
    destruct s as [|l1 [|l2 [|l3 s3]]]; try done.
    destruct s3 as [|w s4]; [done|].
    destruct (Str.is_space w) eqn:Ew.
    + destruct s4 as [|d1 [|d2 [|d3 post]]]; try done.
      destruct (_ && _) eqn:E; [|done]. intros [= <-].
      repeat (apply andb_true_iff in E as [E ?]).
      exists l1, l2, l3, (String w ""), d1, d2, d3, post.
      repeat split; try done.
      * right. by exists w.
      * by apply negb_true_iff.
      * by apply negb_true_iff.
    + destruct s4 as [|d2 [|d3 post]]; try done.
      destruct (_ && _) eqn:E; [|done]. intros [= <-].
      repeat (apply andb_true_iff in E as [E ?]).
      exists l1, l2, l3, "", w, d2, d3, post.
      repeat split; try done.
      * by left.
      * by apply negb_true_iff.
      * by apply negb_true_iff.
  - intros (l1 & l2 & l3 & sep & d1 & d2 & d3 & post & -> & -> & H1 & H2 & H3
            & Hsep & H4 & H5 & H6 & Hb & Ha).
    destruct Hsep as [-> | (w & Hw & ->)].
    + change (Spec.code_here pv (String l1 (String l2 (String l3
                (String d1 (String d2 (String d3 post))))))
              = Some (String l1 (String l2 (String l3
                        (String d1 (String d2 (String d3 ""))))))).
      unfold Spec.code_here. rewrite (digit_not_space d1 H4).
      by rewrite Hb, H1, H2, H3, H4, H5, H6, Ha.
    + change (Spec.code_here pv (String l1 (String l2 (String l3
                (String w (String d1 (String d2 (String d3 post)))))))
              = Some (String l1 (String l2 (String l3
                        (String d1 (String d2 (String d3 ""))))))).
      unfold Spec.code_here. rewrite Hw.
      by rewrite Hb, H1, H2, H3, H4, H5, H6, Ha.
Qed.

Lemma starts_at_nil pv s c :
  Spec.starts_at pv s "" c ↔ Spec.code_here pv s = Some c.
Proof.
  rewrite code_here_spec. unfold Spec.starts_at. split.
  - by intros (s' & -> & H).
  - intros H. by exists s.
Qed.

Lemma starts_at_cons pv x s y pre c :
  Spec.starts_at pv (String x s) (String y pre) c ↔ y = x ∧ Spec.starts_at (Some x) s pre c.
Proof.
  unfold Spec.starts_at. split.
  - intros (s' & E & H). rewrite append_cons in E. injection E as <- ->.
    split; [done|]. by exists s'.
  - intros [-> (s' & -> & H)]. by exists s'.
Qed.

Lemma starts_at_empty pv pre c :
  Spec.starts_at pv "" pre c → False.
Proof.
  destruct pre as [|y pre].
  - by intros H%starts_at_nil.
  - by intros (s' & E & _).
Qed.

(** The scan finds the first code. *)
Lemma scan_code_Some pv s c :
  Spec.scan_code pv s = Some c ↔
  ∃ pre, Spec.starts_at pv s pre c ∧
         ∀ pre' c', Spec.starts_at pv s pre' c' → String.length pre ≤ String.length pre'.
Proof.
  revert pv. induction s as [|x s IH]; intros pv.
  - change (Spec.scan_code pv "") with (@None string).
    split; [done|]. intros (pre & H & _). by apply starts_at_empty in H.
  - cbn [Spec.scan_code]. destruct (Spec.code_here pv (String x s)) as [c0|] eqn:E.
    + split.
      * intros [= <-]. exists "". split; [by apply starts_at_nil|].
        intros pre' c' _. simpl. lia.
      * intros (pre & H & Hmin).
        pose proof (Hmin "" c0 (proj2 (starts_at_nil _ _ _) E)) as Hl.
        destruct pre; [|simpl in Hl; lia].
        apply starts_at_nil in H. congruence.
    + rewrite IH. split.
      * intros (pre & H & Hmin). exists (String x pre). split.
        { by apply starts_at_cons. }
        intros [|y pre'] c' H'.
        { apply starts_at_nil in H'. congruence. }
        apply starts_at_cons in H' as [-> H']. apply Hmin in H'. simpl. lia.
      * intros ([|y pre] & H & Hmin).
        { apply starts_at_nil in H. congruence. }
        apply starts_at_cons in H as [-> H]. exists pre. split; [done|].
        intros pre' c' H'.
        assert (H2 : Spec.starts_at pv (String x s) (String x pre') c')
          by by apply starts_at_cons.
        apply Hmin in H2. simpl in H2. lia.
Qed.


End CodeSpecFacts.




(** ** Teacher names *)

Section TeacherFacts.

Lemma insert_by_len_elem x y l : y ∈ insert_by_len x l ↔ y = x ∨ y ∈ l.
Proof.
  induction l as [|z l IH]; simpl.
  - rewrite list_elem_of_singleton. split; [by left|].
    intros [H|H]; [done|by apply elem_of_nil in H].
  - destruct (String.length z <=? String.length x).
    + by rewrite elem_of_cons.
    + rewrite !elem_of_cons, IH. tauto.
Qed.


Lemma sorted_by_len_desc_elem y l : y ∈ sorted_by_len_desc l ↔ y ∈ l.
Proof.
  unfold sorted_by_len_desc. induction l as [|x l IH]; simpl; [done|].
  by rewrite insert_by_len_elem, elem_of_cons, IH.
Qed.


(** The candidate names are the values of the field in the Catalog. *)
Lemma names_of_elem f data y : y ∈ names_of f data ↔ y ∈ f <$> data.
Proof. unfold names_of. by rewrite sorted_by_len_desc_elem, elem_of_remove_dups. Qed.


End TeacherFacts.




(** * Further properties *)

(** ** The Catalog index, continued *)

Section IndexFacts.
Variable data : list course_rec.

Lemma by_code_from_other (l : list course_rec) (acc : gmap string course_rec) k :
  (∀ c, c ∈ l → Str.upper (course c) ≠ k) →
  foldl (fun acc c => <[Str.upper (course c) := c]> acc) acc l !! k = acc !! k.
Proof.
  revert acc. induction l as [|c l IH]; intros acc H; simpl; [done|].
  rewrite IH.
  - apply lookup_insert_ne. apply H, elem_of_cons. by left.
  - intros c' Hc'. apply H, elem_of_cons. by right.
Qed.

Lemma by_code_last l1 c l2 :
  (∀ c', c' ∈ l2 → Str.upper (course c') ≠ Str.upper (course c)) →
  Chatbot.by_code (l1 ++ c :: l2) !! Str.upper (course c) = Some c.
Proof.
  intros H. unfold Chatbot.by_code. rewrite foldl_app. simpl.
  rewrite by_code_from_other by done. apply lookup_insert_eq.
Qed.

End IndexFacts.

(** X1.  Looking a course up by code ignores the case of the code and
    returns the last record of the Catalog that carries it; whatever it
    returns is a record of the Catalog with that code. *)
Theorem get_course_last_record (l1 l2 : list course_rec) (c : course_rec) (code : string) :
  code ≠ "" → Str.upper code = Str.upper (course c) →
  (∀ c', c' ∈ l2 → Str.upper (course c') ≠ Str.upper (course c)) →
  Chatbot._get_course (l1 ++ c :: l2) (Some code) = Some c ∧
  (∀ data c', Chatbot._get_course data (Some code) = Some c' →
     c' ∈ data ∧ Str.upper (course c') = Str.upper code).
Proof.
  intros Hne Hup Hlast. destruct code as [|a code]; [done|]. split.
  - unfold Chatbot._get_course. rewrite Hup. by apply by_code_last.
  - intros data c' H. unfold Chatbot._get_course in H. by apply by_code_Some in H.
Qed.

Lemma get_course_last_record_witness :
  Chatbot._get_course catalog_ex (Some "cse101")
  = Some (Course "CSE101" "Programming" "Jane Smith" "CSE" "Spring 2025" 3).
Proof.
  refine (proj1 (get_course_last_record
            [Course "CSE411" "Algorithms" "Dr. A" "CSE" "Fall 2024" 3]
            [Course "EEE201" "Circuits" "Jane" "EEE" "Fall 2024" 4]
            (Course "CSE101" "Programming" "Jane Smith" "CSE" "Spring 2025" 3)
            "cse101" _ _ _)).
  - done.
  - reflexivity.
  - intros c' Hc'. apply list_elem_of_singleton in Hc'. subst. by vm_compute.
Defined.

(** ** Teacher extraction *)

Lemma match_from_list_Some text_lower candidates r :
  Chatbot._match_from_list text_lower candidates = Some r →
  r ∈ candidates ∧ Str.contains (Str.lower r) text_lower = true.
Proof.
  induction candidates as [|c cs IH]; cbn [Chatbot._match_from_list]; [done|].
  destruct (Str.contains (Str.lower c) text_lower) eqn:E.
  - intros [= <-]. split; [apply elem_of_cons; by left|done].
  - intros [H1 H2]%IH. split; [apply elem_of_cons; by right|done].
Qed.

Lemma match_from_list_None text_lower candidates :
  Chatbot._match_from_list text_lower candidates = None ↔
  ∀ c, c ∈ candidates → Str.contains (Str.lower c) text_lower = false.
Proof.
  induction candidates as [|c cs IH]; cbn [Chatbot._match_from_list].
  - split; [|done]. intros _ c Hc. by apply elem_of_nil in Hc.
  - destruct (Str.contains (Str.lower c) text_lower) eqn:E.
    + split; [done|]. intros H. rewrite H in E; [done|]. apply elem_of_cons. by left.
    + rewrite IH. split.
      * intros H c' [->|Hc']%elem_of_cons; [done|by apply H].
      * intros H c' Hc'. apply H, elem_of_cons. by right.
Qed.

(** X2.  For a Catalog and a text in ASCII, the teacher entity is a
    teacher name of the Catalog, as written there, that the text
    contains up to case; it is absent exactly when
    the text contains no teacher name of the Catalog. *)
Theorem teacher_entity_sound_complete (data : list course_rec) (text : string) :
  Shape.ascii_catalog data = true →
  Str.isascii text = true →
  ∃ ents : Chatbot.entities,
    Chatbot.extract_entities data text = Some ents ∧
    (∀ r, Chatbot.get ents "teacher" = Some r →
       (∃ c, c ∈ data ∧ teacher c = r) ∧
       Str.contains (Str.lower r) (Str.lower text) = true) ∧
    (Chatbot.get ents "teacher" = None ↔
       ∀ c, c ∈ data → Str.contains (Str.lower (teacher c)) (Str.lower text) = false).
Proof.
  intros _ _.
  destruct (extract_entities_total data text) as (d & s & He).
  eexists. split; [exact He|].
  unfold Chatbot.get. rewrite lookup_insert_ne by done. rewrite lookup_insert_eq.
  cbn [default]. split.
  - intros r [Hin Hc]%match_from_list_Some. split; [|done].
    apply names_of_elem, list_elem_of_fmap in Hin as (c & -> & Hc'). by exists c.
  - etrans; [apply match_from_list_None|]. split.
    + intros H c Hc. apply H, names_of_elem, list_elem_of_fmap. by exists c.
    + intros H n Hn. apply names_of_elem, list_elem_of_fmap in Hn as (c & -> & Hc).
      by apply H.
Qed.

(** "courses of dr. a" against the example Catalog. *)
Lemma teacher_entity_sound_complete_witness :
  ∃ ents : Chatbot.entities,
    Chatbot.extract_entities catalog_ex "courses of dr. a" = Some ents ∧
    (∀ r, Chatbot.get ents "teacher" = Some r →
       (∃ c, c ∈ catalog_ex ∧ teacher c = r) ∧
       Str.contains (Str.lower r) (Str.lower "courses of dr. a") = true) ∧
    (Chatbot.get ents "teacher" = None ↔
       ∀ c, c ∈ catalog_ex →
         Str.contains (Str.lower (teacher c)) (Str.lower "courses of dr. a") = false).
Proof.
  apply (teacher_entity_sound_complete catalog_ex "courses of dr. a").
  - reflexivity.
  - reflexivity.
Defined.

(** ** Intents and the entities they need *)

Ltac not_in_list H :=
  repeat (apply elem_of_cons in H as [H|H]; [discriminate H|]);
  by apply elem_of_nil in H.

Ltac in_list :=
  repeat first [ apply list_elem_of_here | apply list_elem_of_further ].

(** X3.  [detect_intent] returns one of the eleven intents, and an intent
    that needs an entity only when the entity is there: a single-course
    intent needs a course code; a lookup intent needs its own entity and
    is given only when there is no course code. *)
Theorem detect_intent_needs_entity (text : string) (ents : Chatbot.entities) :
  Chatbot.detect_intent text ents ∈ Shape.intents ∧
  (Chatbot.detect_intent text ents ∈ Spec.single_course_intents →
     Str.truthy (Chatbot.get ents "course_code") = true) ∧
  (∀ kind, Chatbot.detect_intent text ents = Spec.intent_of kind →
     Str.truthy (Chatbot.get ents (Spec.entity_of kind)) = true ∧
     Str.truthy (Chatbot.get ents "course_code") = false).
Proof.
  unfold Chatbot.detect_intent.
  destruct (Str.any_in ["help"; "commands"; "what can you do"] _).
  { split; [unfold Shape.intents; in_list|].
    split; [intros H; not_in_list H|by intros []]. }
  destruct (_ || _).
  { split; [unfold Shape.intents; in_list|].
    split; [intros H; not_in_list H|by intros []]. }
  destruct (Str.truthy (Chatbot.get ents "course_code")) eqn:Ec.
  { repeat match goal with |- context [if ?b then _ else _] => destruct b end;
      (split; [unfold Shape.intents; in_list|]);
      (split; [done|by intros []]). }
  destruct (Str.truthy (Chatbot.get ents "teacher")) eqn:Et; cbn [andb].
  { destruct (Str.any_in _ _).
    { split; [unfold Shape.intents; in_list|].
      split; [intros H; not_in_list H|by intros []]. }
    repeat match goal with |- context [if ?b then _ else _] => destruct b eqn:? end;
      (split; [unfold Shape.intents; in_list|]);
      (split; [intros H; not_in_list H|]);
      intros []; try done;
      repeat match goal with H : _ && _ = true |- _ =>
        apply andb_true_iff in H as [? ?] end; by intros. }
  repeat match goal with |- context [if ?b then _ else _] => destruct b eqn:? end;
    (split; [unfold Shape.intents; in_list|]);
    (split; [intros H; not_in_list H|]);
    intros []; try done;
    repeat match goal with H : _ && _ = true |- _ =>
      apply andb_true_iff in H as [? ?] end; by intros.
Qed.

(** ** What a request sends to the Graph Index *)

Section RequestLogFacts.
Variable data : list course_rec.
Context {G : Type}.

Lemma get_course_in_data o c :
  Chatbot._get_course data o = Some c → c ∈ data.
Proof.
  destruct o as [[|a s]|]; try done. unfold Chatbot._get_course.
  by intros [? _]%by_code_Some.
Qed.

Lemma resolved_in_data rows : Forall (fun c => c ∈ data) (Spec.resolved data rows).
Proof.
  induction rows as [|r rows IH]; [constructor|].
  rewrite resolved_cons.
  destruct (Chatbot.by_code data !! Str.upper (Chatbot.code r)) as [c|] eqn:E; [|done].
  constructor; [|done]. by apply by_code_Some in E as [? _].
Qed.

Lemma upserts_follow_probe rows :
  Forall (Shape.follows_probe data) (Chatbot.EvUpsert <$> Spec.resolved data rows).
Proof.
  apply Forall_fmap. eapply Forall_impl; [apply resolved_in_data|]. by intros c Hc.
Qed.

(** The log of a lookup intent whose entity is present, index healthy. *)
Lemma lookup_log (k : Chatbot.GraphIndex G) kind ents x g log :
  fst (fst (Chatbot.health k g)) = true →
  Chatbot.get ents (Spec.entity_of kind) = Some x → x ≠ "" →
  ∃ rest,
    snd (snd (Chatbot.build_reply data (Some (Chatbot.logged k)) (Spec.intent_of kind)
                ents (g, log)))
    = log ++ Chatbot.EvHealth :: rest ∧ Forall (Shape.follows_probe data) rest.
Proof.
  intros Hh Hget Hx.
  rewrite (build_reply_lookup data _ kind ents x _ Hget Hx).
  rewrite status_logged. destruct (Chatbot.health k g) as [[ok e] g1].
  simpl in Hh. subst ok. cbn [fst snd]. rewrite kg_lookup_logged.
  destruct (Spec.rows_or _ _) as [|r rows] eqn:E.
  - exists [Spec.event_of kind x]. cbn [snd]. split; [by rewrite <- app_assoc|].
    constructor; [by destruct kind|constructor].
  - exists (Spec.event_of kind x :: (Chatbot.EvUpsert <$> Spec.resolved data (r :: rows))).
    cbn [snd]. rewrite upsert_resolved_logged. split; [by rewrite <- !app_assoc|].
    constructor; [by destruct kind|apply upserts_follow_probe].
Qed.

End RequestLogFacts.

(** X4.  Whatever the intent, the entities and the answers of the index,
    a request probes the health of the index exactly once, before any
    other call, and every upsert it sends is of a record of the Catalog. *)
Theorem request_log (data : list course_rec) {G : Type} (k : Chatbot.GraphIndex G)
    (intent : string) (ents : Chatbot.entities) (g : G) (log : list Chatbot.event) :
  ∃ rest,
    snd (snd (Chatbot.build_reply data (Some (Chatbot.logged k)) intent ents (g, log)))
    = log ++ Chatbot.EvHealth :: rest ∧
    Forall (Shape.follows_probe data) rest.
Proof.
  destruct (fst (fst (Chatbot.health k g))) eqn:Hh; cycle 1.
  { exists []. split; [|constructor]. by rewrite unhealthy_probe_only. }
  destruct (String.eqb_spec intent "teacher_courses") as [->|N1].
  { destruct (Chatbot.get ents "teacher") as [[|a s]|] eqn:E.
    2: { by apply (lookup_log data k Spec.ByTeacher ents (String a s)). }
    all: exists []; split; [|constructor];
      unfold Chatbot.build_reply; unfold Chatbot.bind at 1; rewrite status_logged;
      cbn [String.eqb Ascii.eqb Bool.eqb fst snd]; by rewrite E. }
  destruct (String.eqb_spec intent "dept_courses") as [->|N2].
  { destruct (Chatbot.get ents "dept") as [[|a s]|] eqn:E.
    2: { by apply (lookup_log data k Spec.ByDept ents (String a s)). }
    all: exists []; split; [|constructor];
      unfold Chatbot.build_reply; unfold Chatbot.bind at 1; rewrite status_logged;
      cbn [String.eqb Ascii.eqb Bool.eqb fst snd]; by rewrite E. }
  destruct (String.eqb_spec intent "semester_courses") as [->|N3].
  { destruct (Chatbot.get ents "semester") as [[|a s]|] eqn:E.
    2: { by apply (lookup_log data k Spec.BySemester ents (String a s)). }
    all: exists []; split; [|constructor];
      unfold Chatbot.build_reply; unfold Chatbot.bind at 1; rewrite status_logged;
      cbn [String.eqb Ascii.eqb Bool.eqb fst snd]; by rewrite E. }
  apply String.eqb_neq in N1, N2, N3.
  unfold Chatbot.build_reply. unfold Chatbot.bind at 1. rewrite status_logged.
  destruct (Chatbot.health k g) as [[ok e] g1]. simpl in Hh. subst ok.
  cbn [fst snd negb]. rewrite N1, N2, N3.
  destruct (String.eqb intent "help"); [by exists []; split; [|constructor]|].
  destruct (String.eqb intent "graph_show").
  { exists [Chatbot.EvSummary]. unfold Chatbot.bind. cbn [Chatbot.logged Chatbot.summary].
    unfold Chatbot.record_call.
    destruct (Chatbot.summary k g1) as [[[[n m]|] err] g2];
      [destruct (Str.truthy err)|];
      (split; [cbn [Chatbot.ret snd]; by rewrite <- app_assoc|repeat constructor]). }
  repeat match goal with |- context [String.eqb intent ?s] =>
    destruct (String.eqb intent s) end;
    try (by exists []; split; [|constructor]);
    destruct (Chatbot._get_course data (Chatbot.get ents "course_code")) as [c|] eqn:Ec;
    try (by exists []; split; [|constructor]);
    (exists [Chatbot.EvUpsert c]; unfold Chatbot.bind; rewrite try_upsert_logged;
     split; [cbn [Chatbot.ret snd]; by rewrite <- app_assoc|];
     constructor; [by eapply get_course_in_data|constructor]).
Qed.

(** ** Course codes are canonical *)

Lemma upper_char_fixed c :
  Str.is_upper c = true ∨ Str.is_digit c = true → Str.upper_char c = c.
Proof. destruct c as [[] [] [] [] [] [] [] []]; vm_compute; intros [|]; congruence. Qed.

Lemma starts_code_canonical pv s c :
  Spec.starts_code pv s c → Shape.canonical_code c.
Proof.
  intros (l1 & l2 & l3 & sep & d1 & d2 & d3 & post & _ & -> & H1 & H2 & H3 & _
          & H4 & H5 & H6 & _).
  by exists l1, l2, l3, d1, d2, d3.
Qed.

(** X5.  For a text in ASCII, the course code entity is always in
    canonical form, three upper-case letters followed by three digits,
    and extraction gives it
    back when applied to it. *)
Theorem course_code_canonical (data : list course_rec) (text : string) :
  Str.isascii text = true →
  ∃ ents : Chatbot.entities,
    Chatbot.extract_entities data text = Some ents ∧
    ∀ c, Chatbot.get ents "course_code" = Some c →
      Shape.canonical_code c ∧
      ∃ ents' : Chatbot.entities,
        Chatbot.extract_entities data c = Some ents' ∧
        Chatbot.get ents' "course_code" = Some c.
Proof.
  intros _.
  destruct (extract_entities_total data text) as (d & s & He).
  eexists. split; [exact He|]. intros c.
  unfold Chatbot.get at 1. rewrite lookup_insert_eq. cbn [default].
  rewrite extract_course_code_scan. intros (pre & (s' & _ & Hs) & _)%scan_code_Some.
  pose proof (starts_code_canonical _ _ _ Hs) as Hc.
  split; [exact Hc|].
  destruct (extract_entities_total data c) as (d' & s2 & He').
  eexists. split; [exact He'|].
  unfold Chatbot.get. rewrite lookup_insert_eq. cbn [default].
  rewrite extract_course_code_scan.
  destruct Hc as (l1 & l2 & l3 & d1 & d2 & d3 & -> & H1 & H2 & H3 & H4 & H5 & H6).
  cbn [Str.upper Str.map].
  rewrite !upper_char_fixed by auto.
  cbn [Spec.scan_code].
  assert (E : Spec.code_here None
            (String l1 (String l2 (String l3 (String d1 (String d2 (String d3 ""))))))
          = Some (String l1 (String l2 (String l3 (String d1 (String d2 (String d3 ""))))))).
  { apply code_here_spec. exists l1, l2, l3, "", d1, d2, d3, "".
    repeat split; try done. by left. }
  by rewrite E.
Qed.

(** "credit of cse 411?" against the example Catalog. *)
Lemma course_code_canonical_witness :
  ∃ ents : Chatbot.entities,
    Chatbot.extract_entities catalog_ex "credit of cse 411?" = Some ents ∧
    ∀ c, Chatbot.get ents "course_code" = Some c →
      Shape.canonical_code c ∧
      ∃ ents' : Chatbot.entities,
        Chatbot.extract_entities catalog_ex c = Some ents' ∧
        Chatbot.get ents' "course_code" = Some c.
Proof.
  apply (course_code_canonical catalog_ex "credit of cse 411?").
  reflexivity.
Defined.

(** ** Department extraction *)

Section DeptFacts.

Lemma append_length a b : String.length (a +:+ b) = String.length a + String.length b.
Proof. induction a as [|x a IH]; [done|]. rewrite append_cons. simpl. by rewrite IH. Qed.

Lemma substring_prefix g r : String.substring 0 (String.length g) (g +:+ r) = g.
Proof.
  induction g as [|x g IH]; [by destruct r|].
  rewrite append_cons. simpl. by rewrite IH.
Qed.

(** The text consumed up to a later state is what stands before the rest. *)
Lemma consumed_app st st' g :
  Re.rest st = g +:+ Re.rest st' → Re.consumed st st' = g.
Proof.
  intros H. unfold Re.consumed. rewrite H, append_length.
  replace (String.length g + String.length (Re.rest st') - String.length (Re.rest st'))
    with (String.length g) by lia.
  apply substring_prefix.
Qed.

Lemma map_append f a b : Str.map f (a +:+ b) = Str.map f a +:+ Str.map f b.
Proof.
  induction a as [|x a IH]; [done|].
  rewrite append_cons. cbn [Str.map]. by rewrite IH, append_cons.
Qed.

Lemma append_inj_length a a' b b' :
  String.length a = String.length a' → a +:+ b = a' +:+ b' → a = a' ∧ b = b'.
Proof.
  revert a'. induction a as [|x a IH]; intros [|x' a'] Hl H; try done.
  rewrite !append_cons in H. injection H as -> H. simpl in Hl.
  destruct (IH a') as [-> ->]; [lia|done|done].
Qed.

Lemma upper_char_idemp c : Str.upper_char (Str.upper_char c) = Str.upper_char c.
Proof. destruct c as [[] [] [] [] [] [] [] []]; reflexivity. Qed.

Lemma upper_idemp s : Str.upper (Str.upper s) = Str.upper s.
Proof.
  induction s as [|a s IH]; [done|].
  change (String (Str.upper_char (Str.upper_char a)) (Str.upper (Str.upper s))
          = String (Str.upper_char a) (Str.upper s)).
  by rewrite upper_char_idemp, IH.
Qed.

Lemma map_length f s : String.length (Str.map f s) = String.length s.
Proof. induction s as [|a s IH]; [done|]. simpl. by rewrite IH. Qed.

(** A part of an upper-cased text is in upper case. *)
Lemma upper_part text pre g post :
  Str.upper text = pre +:+ g +:+ post → Str.upper g = g.
Proof.
  intros H. pose proof (upper_idemp text) as Hi. rewrite H in Hi.
  unfold Str.upper in Hi. rewrite !map_append in Hi.
  apply append_inj_length in Hi as [_ Hi]; [|apply map_length].
  by apply append_inj_length in Hi as [Hi _]; [|apply map_length].
Qed.

(** A match of a literal consumes the literal, up to case under
    IGNORECASE, and captures nothing. *)
Lemma lit_consumed ic n st st' :
  st' ∈ Re.ends (Re.lit ic n) st →
  ∃ g, Re.rest st = g +:+ Re.rest st' ∧
       (if ic then Str.lower g = Str.lower n else g = n) ∧
       Re.caps st' = Re.caps st.
Proof.
  revert st. induction n as [|c w IH]; intros st.
  - simpl. intros ->%list_elem_of_singleton. exists "". by destruct ic.
  - cbn [Re.lit Re.ends Re.chr]. intros (st1 & H2 & H1)%list_elem_of_bind.
    destruct (Re.rest st) as [|x s2]; [by apply elem_of_nil in H1|].
    destruct ic.
    + destruct (Ascii.eqb_spec (Str.lower_char x) (Str.lower_char c)) as [E|];
        [|by apply elem_of_nil in H1].
      apply list_elem_of_singleton in H1. subst st1.
      apply IH in H2 as (g & Hr & Hg & Hc). simpl in Hr, Hc.
      exists (String x g). split; [by rewrite append_cons, Hr|]. split; [|done].
      change (String (Str.lower_char x) (Str.lower g)
              = String (Str.lower_char c) (Str.lower w)).
      by rewrite E, Hg.
    + destruct (Ascii.eqb_spec x c) as [E|]; [|by apply elem_of_nil in H1].
      apply list_elem_of_singleton in H1. subst st1.
      apply IH in H2 as (g & Hr & Hg & Hc). simpl in Hr, Hc.
      exists (String x g). split; [by rewrite append_cons, Hr|]. by subst.
Qed.

Lemma alts_lit_in n ns st st' :
  st' ∈ Re.ends (Re.alts (Re.lit true n) (Re.lit true <$> ns)) st →
  ∃ n', n' ∈ n :: ns ∧ st' ∈ Re.ends (Re.lit true n') st.
Proof.
  revert n. induction ns as [|n2 ns IH]; intros n.
  - simpl. intros H. exists n. split; [apply elem_of_cons; by left|done].
  - rewrite fmap_cons. cbn [Re.alts Re.ends]. intros [H|H]%elem_of_app.
    + exists n. split; [apply elem_of_cons; by left|done].
    + apply IH in H as (n' & Hn' & H). exists n'. split; [|done].
      apply elem_of_cons. by right.
Qed.

(** A search result is a match at some position of the text. *)
Lemma search_from_at r pv s mt :
  Re.search_from r pv s = Some mt →
  ∃ pre s', s = pre +:+ s' ∧ Re.match_at r (Spec.last_char pv pre) s' = Some mt.
Proof.
  revert pv. induction s as [|c s IH]; intros pv; simpl.
  - destruct (Re.match_at r pv "") eqn:E; [|done]. intros [= <-]. by exists "", "".
  - destruct (Re.match_at r pv (String c s)) eqn:E.
    + intros [= <-]. by exists "", (String c s).
    + intros (pre & s' & -> & H)%IH. by exists (String c pre), s'.
Qed.

Variable data : list course_rec.

(** What [dept_re] matches: a department name of the Catalog, up to case,
    standing in the text. *)
Lemma dept_re_match re u mt :
  Chatbot.dept_re data = Some re → Re.search re u = Some mt →
  ∃ g n pre post, Re.group mt 1 = Some g ∧ n ∈ Chatbot.dept_names data ∧
                  Str.lower g = Str.lower n ∧ u = pre +:+ g +:+ post.
Proof.
  intros Hre (pre & s' & -> & Hm)%search_from_at.
  assert (∃ n ns, n :: ns = Chatbot.dept_names data ∧
            re = Re.Seq Re.WordB
                   (Re.Seq (Re.Grp 1 (Re.alts (Re.lit true n) (Re.lit true <$> ns)))
                      Re.WordB)) as (n & ns & Hn & ->).
  { unfold Chatbot.dept_re in Hre.
    destruct (Chatbot.dept_names data) as [|n ns]; [done|].
    destruct n as [|a n]; [destruct ns; [done|]|]; injection Hre as <-; by eexists _, _. }
  rewrite match_at_ends in Hm. cbn [Re.ends] in Hm.
  match type of Hm with context [Re.set_cap 0 ?st0 <$> ?l] =>
    destruct l as [|st1 l'] eqn:E; [done|];
    assert (Hin : st1 ∈ st1 :: l') by (apply elem_of_cons; by left);
    rewrite <- E in Hin; clear E
  end.
  rewrite fmap_cons in Hm. injection Hm as <-.
  apply list_elem_of_bind in Hin as (st0 & Hin & H0).
  destruct (Re.at_boundary _); [|by apply elem_of_nil in H0].
  apply list_elem_of_singleton in H0. subst st0.
  apply list_elem_of_bind in Hin as (st2 & Hin & H2).
  destruct (Re.at_boundary st2); [|by apply elem_of_nil in Hin].
  apply list_elem_of_singleton in Hin. subst st1.
  apply list_elem_of_fmap in H2 as (st3 & -> & H3).
  apply alts_lit_in in H3 as (n' & Hn' & H3).
  apply lit_consumed in H3 as (g & Hr & Hg & Hc).
  exists g, n', pre, (Re.rest st3). split; [|split; [|split]].
  - unfold Re.group. cbn [Re.set_cap Re.caps]. rewrite lookup_insert_ne by done.
    rewrite lookup_insert_eq. f_equal. by apply consumed_app.
  - by rewrite <- Hn.
  - done.
  - simpl in Hr. by rewrite Hr.
Qed.

(** The department entity, when there is one. *)
Lemma extract_dept_catalog text d :
  Chatbot.extract_dept data (Str.upper text) = Some (Some d) →
  (∃ c, c ∈ data ∧ d = Str.upper (dept c)) ∧
  ∃ pre post, Str.upper text = pre +:+ d +:+ post.
Proof.
  unfold Chatbot.extract_dept.
  destruct (Chatbot.dept_re data) as [re|] eqn:Ere; [|done].
  destruct (Re.search re (Str.upper text)) as [mt|] eqn:E; [|done].
  destruct (dept_re_match re _ mt Ere E) as (g & n & pre & post & -> & Hn & Hg & Hu).
  simpl. intros [= <-].
  rewrite (upper_part _ _ _ _ Hu). split; [|by exists pre, post].
  apply names_of_elem, list_elem_of_fmap in Hn as (c & -> & Hc).
  exists c. split; [done|].
  rewrite <- (upper_part _ _ _ _ Hu). by apply upper_eq_iff_lower_eq.
Qed.

End DeptFacts.

(** X6.  For a Catalog and a text in ASCII, the department entity is the
    upper-cased department code of a record of the Catalog, and it stands
    in the upper-cased text. *)
Theorem dept_entity_from_catalog (data : list course_rec) (text : string) :
  Shape.ascii_catalog data = true →
  Str.isascii text = true →
  ∃ ents : Chatbot.entities,
    Chatbot.extract_entities data text = Some ents ∧
    ∀ d, Chatbot.get ents "dept" = Some d →
      (∃ c, c ∈ data ∧ d = Str.upper (dept c)) ∧
      ∃ pre post, Str.upper text = pre +:+ d +:+ post.
Proof.
  intros _ _. unfold Chatbot.extract_entities.
  destruct (extract_dept_total data (Str.upper text)) as [dv Hd].
  destruct (extract_semester_total text) as [sv Hs].
  rewrite Hd, Hs. eexists. split; [reflexivity|].
  intros d. unfold Chatbot.get.
  rewrite lookup_insert_ne by done. rewrite lookup_insert_ne by done.
  rewrite lookup_insert_eq. intros E. change (dv = Some d) in E. subst dv.
  by apply extract_dept_catalog.
Qed.

(** "courses of the eee department" against the example Catalog. *)
Lemma dept_entity_from_catalog_witness :
  ∃ ents : Chatbot.entities,
    Chatbot.extract_entities catalog_ex "courses of the eee department" = Some ents ∧
    ∀ d, Chatbot.get ents "dept" = Some d →
      (∃ c, c ∈ catalog_ex ∧ d = Str.upper (dept c)) ∧
      ∃ pre post, Str.upper "courses of the eee department" = pre +:+ d +:+ post.
Proof.
  apply (dept_entity_from_catalog catalog_ex "courses of the eee department").
  - reflexivity.
  - reflexivity.
Defined.

(** ** A recognised teacher or department has courses *)

Section RecognisedFacts.
Variable data : list course_rec.

Lemma truthy_Some o : Str.truthy o = true → ∃ x, o = Some x ∧ x ≠ "".
Proof. destruct o as [[|a s]|]; try done. intros _. by exists (String a s). Qed.

(** A lookup intent is detected only with its entity. *)
Lemma detect_lookup_entity text ents kind :
  Chatbot.detect_intent text ents = Spec.intent_of kind →
  ∃ x, Chatbot.get ents (Spec.entity_of kind) = Some x ∧ x ≠ "".
Proof.
  intros H. apply truthy_Some. revert H. unfold Chatbot.detect_intent.
  repeat match goal with |- context [if ?b then _ else _] => destruct b eqn:? end;
    destruct kind; try done; intros _;
    repeat match goal with H : _ && _ = true |- _ =>
      apply andb_true_iff in H as [? ?] end; done.
Qed.

Lemma teacher_entity_in_catalog text ents r :
  Chatbot.extract_entities data text = Some ents →
  Chatbot.get ents "teacher" = Some r → ∃ c, c ∈ data ∧ teacher c = r.
Proof.
  destruct (extract_entities_total data text) as (d & s & He). rewrite He.
  intros [= <-]. unfold Chatbot.get.
  rewrite lookup_insert_ne by done. rewrite lookup_insert_eq.
  intros [Hin _]%match_from_list_Some.
  apply names_of_elem, list_elem_of_fmap in Hin as (c & -> & Hc). by exists c.
Qed.

Lemma dept_entity_in_catalog text ents d :
  Chatbot.extract_entities data text = Some ents →
  Chatbot.get ents "dept" = Some d → ∃ c, c ∈ data ∧ d = Str.upper (dept c).
Proof.
  unfold Chatbot.extract_entities.
  destruct (extract_dept_total data (Str.upper text)) as [dv Hd].
  destruct (extract_semester_total text) as [sv Hs].
  rewrite Hd, Hs. intros [= <-]. unfold Chatbot.get.
  rewrite lookup_insert_ne by done. rewrite lookup_insert_ne by done.
  rewrite lookup_insert_eq. intros E. change (dv = Some d) in E. subst dv.
  by apply extract_dept_catalog in Hd as [? _].
Qed.

Lemma catalog_rows_teacher c :
  c ∈ data → Spec.catalog_rows data Spec.ByTeacher (teacher c) ≠ [].
Proof.
  intros Hc H. apply fmap_nil_inv in H.
  assert (Hin : c ∈ filter (fun c' => teacher c' = teacher c) data)
    by by apply list_elem_of_filter.
  rewrite H in Hin. by apply elem_of_nil in Hin.
Qed.

Lemma catalog_rows_dept c :
  c ∈ data → Spec.catalog_rows data Spec.ByDept (Str.upper (dept c)) ≠ [].
Proof.
  intros Hc H. apply fmap_nil_inv in H.
  assert (Hin : c ∈ filter (fun c' => Spec.eq_nocase (dept c') (Str.upper (dept c))) data).
  { apply list_elem_of_filter. split; [|done].
    unfold Spec.eq_nocase. by rewrite lower_upper. }
  rewrite H in Hin. by apply elem_of_nil in Hin.
Qed.

End RecognisedFacts.

(** X7.  For a Catalog and an utterance in ASCII: when the utterance is
    classified as a teacher or a department lookup, the reply lists at
    least one course code, whatever the index
    answers: the entity was recognised from the Catalog, so the Catalog
    scan finds at least the record it came from.  (A semester, which is
    recognised by its form alone, can give the no-courses reply.) *)
Theorem recognised_lookup_lists_courses (data : list course_rec) {G : Type}
    (kg : option (Chatbot.GraphIndex G)) (text : string) (g g' : G)
    (reply : string) (ents : Chatbot.entities) (kind : Spec.lookup_kind) :
  Shape.ascii_catalog data = true →
  Str.isascii text = true →
  kind ≠ Spec.BySemester →
  Chatbot.process data kg text g = Some ((reply, Spec.intent_of kind, ents), g') →
  ∃ x codes,
    Chatbot.get ents (Spec.entity_of kind) = Some x ∧ codes ≠ [] ∧
    reply = Spec.listing kind x codes
              +:+ Spec.advisory kg (fst (fst (Chatbot._kg_status kg g))).
Proof.
  intros _ _ Hk. unfold Chatbot.process.
  destruct (Chatbot.extract_entities data text) as [ents0|] eqn:He; [|done]. simpl.
  destruct (Chatbot.build_reply data kg _ ents0 g) as [reply0 g0] eqn:Hb.
  intros [= -> Hi -> ->].
  destruct (detect_lookup_entity text ents kind Hi) as (x & Hget & Hx).
  rewrite Hi in Hb. rewrite (build_reply_lookup data kg kind ents x g Hget Hx) in Hb.
  destruct (Chatbot._kg_status kg g) as [[ok e] g1].
  destruct (Chatbot.kg_lookup _ _ _ _) as [found g2]. cbn [fst snd] in *.
  assert (Hrows : Spec.rows_or found (Spec.catalog_rows data kind x) ≠ []).
  { destruct found as [|r found]; [|done]. cbn [Spec.rows_or].
    destruct kind; [| |done].
    - destruct (teacher_entity_in_catalog data text ents x He Hget) as (c & Hc & <-).
      by apply catalog_rows_teacher.
    - destruct (dept_entity_in_catalog data text ents x He Hget) as (c & Hc & ->).
      by apply catalog_rows_dept. }
  destruct (Spec.rows_or found (Spec.catalog_rows data kind x)) as [|r rows]; [done|].
  injection Hb as <- _.
  exists x, (Chatbot.code <$> r :: rows). split; [done|]. split; [done|]. done.
Qed.

(** A department named in words, its courses answered from the Catalog. *)
Lemma recognised_lookup_lists_courses_witness :
  ∃ x codes,
    Chatbot.get (<["course_code" := None]> (<["teacher" := None]>
                  (<["dept" := Some "EEE"]> (<["semester" := None]> ∅)))) "dept" = Some x ∧
    codes ≠ [] ∧
    "EEE department er courses: EEE201. (Courses in EEE department: EEE201.) Neo4j down, dataset result dekhacchi."
    = Spec.listing Spec.ByDept x codes +:+ Chatbot.warning_text.
Proof.
  apply (recognised_lookup_lists_courses catalog_ex (Some (fixed_kg false [] None))
           "courses of the eee department" 0 1 _ _ Spec.ByDept).
  - reflexivity.
  - reflexivity.
  - done.
  - vm_compute. reflexivity.
Defined.

(** ** Semesters are canonical *)

Lemma append_nil_r' s : s +:+ "" = s.
Proof. induction s as [|a s IH]; [done|]. by rewrite append_cons, IH. Qed.

Section SemesterFacts.

Local Abbreviation chars := list_ascii_of_string.

Lemma plus_ends_consumed p s cs st' :
  st' ∈ Re.plus_ends p s cs →
  ∃ ws, s = ws +:+ Re.rest st' ∧ ws ≠ "" ∧ forallb p (chars ws) = true ∧
        Re.caps st' = cs.
Proof.
  revert st'. induction s as [|c s IH]; intros st'; simpl.
  - by intros ?%elem_of_nil.
  - destruct (p c) eqn:Ep; [|by intros ?%elem_of_nil].
    intros [H|H]%elem_of_app.
    + apply IH in H as (ws & -> & _ & Hws & Hc).
      exists (String c ws). split; [done|]. split; [done|]. split; [|done].
      simpl. by rewrite Ep.
    + apply list_elem_of_singleton in H. subst st'. exists (String c "").
      split; [done|]. split; [done|]. split; [|done]. simpl. by rewrite Ep.
Qed.

Lemma cls_end p st st' :
  st' ∈ Re.ends (Re.Cls p) st →
  ∃ c, Re.rest st = String c (Re.rest st') ∧ p c = true ∧ Re.caps st' = Re.caps st.
Proof.
  simpl. destruct (Re.rest st) as [|c s]; [by intros ?%elem_of_nil|].
  destruct (p c) eqn:Ep; [|by intros ?%elem_of_nil].
  intros ->%list_elem_of_singleton. by exists c.
Qed.

Lemma rep4_end p st st' :
  st' ∈ Re.ends (Re.rep 4 (Re.Cls p)) st →
  ∃ d1 d2 d3 d4,
    Re.rest st = String d1 (String d2 (String d3 (String d4 (Re.rest st')))) ∧
    p d1 = true ∧ p d2 = true ∧ p d3 = true ∧ p d4 = true ∧
    Re.caps st' = Re.caps st.
Proof.
  unfold Re.rep, Nat.iter. cbn [nat_rect].
  change (Re.ends (Re.Seq ?a ?b) ?s) with (Re.ends a s ≫= Re.ends b).
  intros (s1 & H & (d1 & E1 & P1 & C1)%cls_end)%list_elem_of_bind.
  change (Re.ends (Re.Seq ?a ?b) ?s) with (Re.ends a s ≫= Re.ends b) in H.
  apply list_elem_of_bind in H as (s2 & H & (d2 & E2 & P2 & C2)%cls_end).
  change (Re.ends (Re.Seq ?a ?b) ?s) with (Re.ends a s ≫= Re.ends b) in H.
  apply list_elem_of_bind in H as (s3 & H & (d3 & E3 & P3 & C3)%cls_end).
  change (Re.ends (Re.Seq ?a ?b) ?s) with (Re.ends a s ≫= Re.ends b) in H.
  apply list_elem_of_bind in H as (s4 & H & (d4 & E4 & P4 & C4)%cls_end).
  apply list_elem_of_singleton in H. subst s4.
  exists d1, d2, d3, d4. rewrite E1, E2, E3, E4. repeat split; try done. congruence.
Qed.

Lemma alpha_lower_char y : Str.is_alpha (Str.lower_char y) = Str.is_alpha y.
Proof. destruct y as [[] [] [] [] [] [] [] []]; reflexivity. Qed.

Lemma alpha_not_space y : Str.is_alpha y = true → Str.is_space y = false.
Proof. destruct y as [[] [] [] [] [] [] [] []]; by vm_compute. Qed.

Lemma digit_not_space' y : Str.is_digit y = true → negb (Str.is_space y) = true.
Proof. intros H. by rewrite (digit_not_space y H). Qed.

(** A text equal up to case to a word of letters is made of letters and
    has the same title-cased form. *)
Lemma nocase_letters g w :
  Str.lower g = Str.lower w → forallb Str.is_alpha (chars w) = true →
  forallb Str.is_alpha (chars g) = true ∧
  ∀ b, Str.title_from b g = Str.title_from b w.
Proof.
  revert w. induction g as [|x g IH]; intros [|c w]; try done.
  intros H. injection H as Hx Hg. simpl.
  intros [Hc Hw]%andb_true_iff.
  destruct (IH w Hg Hw) as [Hag Ht].
  assert (Hax : Str.is_alpha x = true)
    by by rewrite <- alpha_lower_char, Hx, alpha_lower_char.
  split; [by rewrite Hax|]. intros b. rewrite Hax, Hc.
  rewrite <- (upper_lower_char x), <- (upper_lower_char c), Hx. by rewrite Ht.
Qed.

Lemma split_from_word cur t rest :
  forallb (fun c => negb (Str.is_space c)) (chars t) = true →
  Str.split_from cur (t +:+ rest) = Str.split_from (rev (chars t) ++ cur) rest.
Proof.
  revert cur. induction t as [|c t IH]; intros cur; [done|].
  rewrite append_cons. cbn [list_ascii_of_string forallb rev Str.split_from].
  intros [Hc Ht]%andb_true_iff.
  apply negb_true_iff in Hc. rewrite Hc. rewrite IH by done.
  by rewrite <- app_assoc.
Qed.

Lemma split_from_spaces ws rest :
  forallb Str.is_space (chars ws) = true →
  Str.split_from [] (ws +:+ rest) = Str.split_from [] rest.
Proof.
  induction ws as [|c ws IH]; [done|].
  rewrite append_cons. cbn [list_ascii_of_string forallb Str.split_from].
  intros [Hc Hw]%andb_true_iff.
  rewrite Hc. by apply IH.
Qed.

Lemma string_of_rev_rev t : string_of_list_ascii (rev (rev (chars t))) = t.
Proof. by rewrite rev_involutive, string_of_list_ascii_of_string. Qed.

(** Splitting a word, some whitespace and a second word. *)
Lemma split_two_words t ws u :
  t ≠ "" → ws ≠ "" → u ≠ "" →
  forallb (fun c => negb (Str.is_space c)) (chars t) = true →
  forallb Str.is_space (chars ws) = true →
  forallb (fun c => negb (Str.is_space c)) (chars u) = true →
  Str.split (t +:+ ws +:+ u) = [t; u].
Proof.
  intros Ht Hws Hu Pt Pws Pu. unfold Str.split.
  rewrite split_from_word by done. rewrite app_nil_r.
  destruct ws as [|w ws]; [done|]. cbn [list_ascii_of_string forallb] in Pws.
  apply andb_true_iff in Pws as [Pw Pws].
  rewrite append_cons. cbn [Str.split_from]. rewrite Pw.
  rewrite split_from_spaces by done.
  rewrite <- (append_nil_r' u), split_from_word by done.
  rewrite app_nil_r. cbn [Str.split_from]. rewrite append_nil_r'.
  assert (Hrev : ∀ v, v ≠ "" → rev (chars v) ≠ []).
  { intros v Hv E. apply Hv. rewrite <- (string_of_rev_rev v). by rewrite E. }
  rewrite !string_of_rev_rev.
  destruct (rev (chars t)) eqn:Et; [by apply Hrev in Et|].
  destruct (rev (chars u)) eqn:Eu; [by apply Hrev in Eu|].
  done.
Qed.

Lemma seasons_letters season :
  season ∈ Shape.seasons →
  forallb Str.is_alpha (chars season) = true ∧ Str.title season = season ∧ season ≠ "".
Proof.
  unfold Shape.seasons. intros H.
  repeat (apply elem_of_cons in H as [->|H]; [by vm_compute|]).
  by apply elem_of_nil in H.
Qed.

(** The parts of a semester match: a season up to case, captured as group
    1, some whitespace, four digits. *)
Lemma semester_end st st1 :
  st1 ∈ Re.ends SEMESTER_RE st →
  ∃ season g1 ws d1 d2 d3 d4,
    season ∈ Shape.seasons ∧ Str.lower g1 = Str.lower season ∧
    ws ≠ "" ∧ forallb Str.is_space (chars ws) = true ∧
    Str.is_digit d1 = true ∧ Str.is_digit d2 = true ∧
    Str.is_digit d3 = true ∧ Str.is_digit d4 = true ∧
    Re.rest st
    = (g1 +:+ ws +:+ String d1 (String d2 (String d3 (String d4 "")))) +:+ Re.rest st1 ∧
    Re.caps st1 !! 1 = Some g1.
Proof.
  unfold SEMESTER_RE.
  change (Re.alts (Re.lit true "Spring") _)
    with (Re.alts (Re.lit true "Spring")
            (Re.lit true <$> ["Summer"; "Fall"; "Autumn"; "Winter"])).
  remember (Re.alts _ _) as A eqn:EA.
  remember (Re.rep 4 _) as R4 eqn:ER.
  cbn [Re.ends].
  intros (st0 & H & H0)%list_elem_of_bind.
  destruct (Re.at_boundary st); [|by apply elem_of_nil in H0].
  apply list_elem_of_singleton in H0. subst st0.
  apply list_elem_of_bind in H as (st2 & H & H2).
  apply list_elem_of_fmap in H2 as (st3 & -> & H3).
  subst A. apply alts_lit_in in H3 as (season & Hs & H3).
  apply lit_consumed in H3 as (g1 & Hr & Hg & Hc).
  apply list_elem_of_bind in H as (st4 & H & H4).
  apply plus_ends_consumed in H4 as (ws & Hr4 & Hws & Pws & Hc4).
  apply list_elem_of_bind in H as (st5 & H & H5).
  subst R4. apply rep4_end in H5 as (d1 & d2 & d3 & d4 & Hr5 & P1 & P2 & P3 & P4 & Hc5).
  destruct (Re.at_boundary st5); [|by apply elem_of_nil in H].
  apply list_elem_of_singleton in H. subst st1.
  exists season, g1, ws, d1, d2, d3, d4.
  repeat split; try done.
  - cbn [Re.set_cap Re.rest] in Hr4. rewrite Hr, Hr4, Hr5.
    rewrite !append_assoc. reflexivity.
  - rewrite Hc5, Hc4. cbn [Re.set_cap Re.caps]. rewrite lookup_insert_eq.
    f_equal. by apply consumed_app.
Qed.

(** The semester entity, when there is one. *)
Lemma extract_semester_canonical text s :
  Chatbot.extract_semester text = Some (Some s) → Shape.canonical_semester s.
Proof.
  unfold Chatbot.extract_semester.
  destruct (Re.search SEMESTER_RE text) as [mt|] eqn:E; [|done].
  apply search_from_match in E as (pv & s0 & Hm).
  rewrite match_at_ends in Hm. cbn [Re.ends] in Hm.
  destruct (Re.ends SEMESTER_RE (Re.MState pv s0 ∅)) as [|st1 l] eqn:El; [done|].
  rewrite fmap_cons in Hm. injection Hm as <-.
  assert (Hin : st1 ∈ Re.ends SEMESTER_RE (Re.MState pv s0 ∅))
    by (rewrite El; apply elem_of_cons; by left).
  apply semester_end in Hin
    as (season & g1 & ws & d1 & d2 & d3 & d4 & Hs & Hg & Hws & Pws
        & P1 & P2 & P3 & P4 & Hr & Hc).
  destruct (seasons_letters season Hs) as (Pa & Ht & Hne).
  destruct (nocase_letters g1 season Hg Pa) as [Pg Htitle].
  unfold Re.group. cbn [Re.set_cap Re.caps].
  rewrite (lookup_insert_ne _ 0 1) by done. rewrite Hc, lookup_insert_eq.
  rewrite (consumed_app _ _ _ Hr). simpl.
  rewrite split_two_words; try done.
  - simpl. intros [= <-]. exists season, d1, d2, d3, d4.
    repeat split; try done. unfold Str.title. rewrite Htitle. fold (Str.title season).
    by rewrite Ht.
  - intros ->. destruct season; [done|]. discriminate Hg.
  - clear -Pg. induction (chars g1) as [|c l IH]; [done|].
    simpl in *. apply andb_true_iff in Pg as [Pc Pl].
    by rewrite (alpha_not_space c Pc), IH.
  - simpl. by rewrite !digit_not_space'.
Qed.

End SemesterFacts.

(** X8.  For a text in ASCII, the semester entity is always in canonical
    form: one of the seasons Spring, Summer, Fall, Autumn, Winter,
    written that way
    whatever the case in the text, one space, and a year of four digits. *)
Theorem semester_entity_canonical (data : list course_rec) (text : string) :
  Str.isascii text = true →
  ∃ ents : Chatbot.entities,
    Chatbot.extract_entities data text = Some ents ∧
    ∀ s, Chatbot.get ents "semester" = Some s → Shape.canonical_semester s.
Proof.
  intros _. unfold Chatbot.extract_entities.
  destruct (extract_dept_total data (Str.upper text)) as [dv Hd].
  destruct (extract_semester_total text) as [sv Hs].
  rewrite Hd, Hs. eexists. split; [reflexivity|].
  intros s. unfold Chatbot.get.
  do 3 (rewrite lookup_insert_ne by done). rewrite lookup_insert_eq.
  intros E. change (sv = Some s) in E. subst sv.
  exact (extract_semester_canonical text s Hs).
Qed.

(** "courses offered in fALL 2024" against the example Catalog. *)
Lemma semester_entity_canonical_witness :
  ∃ ents : Chatbot.entities,
    Chatbot.extract_entities catalog_ex "courses offered in fALL 2024" = Some ents ∧
    ∀ s, Chatbot.get ents "semester" = Some s → Shape.canonical_semester s.
Proof.
  apply (semester_entity_canonical catalog_ex "courses offered in fALL 2024").
  reflexivity.
Defined.

(** ** The object across calls *)

Section SettledFacts.
Context {W D S Q : Type}.
Variable neo : KG.Neo4j W D S Q.

Lemma settled_refl (self : KG.KnowledgeGraph D) : settled self self.
Proof. by repeat split. Qed.

Lemma settled_trans (a b c : KG.KnowledgeGraph D) :
  settled a b → settled b c → settled a c.
Proof.
  intros (U1 & V1 & P1 & B1 & D1) (U2 & V2 & P2 & B2 & D2).
  repeat split; try congruence. intros d Hd. by apply D2, D1.
Qed.

Lemma keeps_ret {A} (a : A) : keeps (W:=W) (D:=D) (KG.ret a).
Proof. intros st. apply settled_refl. Qed.

Lemma keeps_raise {A} e : keeps (W:=W) (D:=D) (KG.raise (A:=A) e).
Proof. intros st. apply settled_refl. Qed.

Lemma keeps_call {A} (f : W → KG.outcome A * W) : keeps (D:=D) (KG.call f).
Proof. intros [self w]. unfold KG.call. destruct (f w). apply settled_refl. Qed.

Lemma keeps_get_self : keeps (W:=W) (D:=D) KG.get_self.
Proof. intros st. apply settled_refl. Qed.

Lemma keeps_bind {A B} (c : KG.M (D:=D) (W:=W) A) (k : A → KG.M B) :
  keeps c → (∀ a, keeps (k a)) → keeps (KG.bind c k).
Proof.
  intros Hc Hk st. unfold KG.bind. pose proof (Hc st) as H1.
  destruct (c st) as [[a|e] st']; [|done].
  eapply settled_trans; [exact H1|]. apply Hk.
Qed.

Lemma keeps_try_except {A} (c : KG.M (D:=D) (W:=W) A) h :
  keeps c → (∀ e, keeps (h e)) → keeps (KG.try_except c h).
Proof.
  intros Hc Hh st. unfold KG.try_except. pose proof (Hc st) as H1.
  destruct (c st) as [[a|e] st']; [done|].
  eapply settled_trans; [exact H1|]. apply Hh.
Qed.

Lemma keeps_index row k : keeps (W:=W) (D:=D) (KG.index row k).
Proof. unfold KG.index. destruct (row !! k); [apply keeps_ret|apply keeps_raise]. Qed.

Lemma keeps_collect {A B} (f : A → KG.M (D:=D) (W:=W) B) xs :
  (∀ x, keeps (f x)) → keeps (KG.collect f xs).
Proof.
  intros Hf. induction xs as [|x xs IH]; [apply keeps_ret|].
  cbn [KG.collect]. apply keeps_bind; [done|]. intros y.
  apply keeps_bind; [done|]. intros ys. apply keeps_ret.
Qed.

(** Connecting sets the driver only when there is none. *)
Lemma keeps_connect : keeps (KG.connect neo).
Proof.
  intros [self w]. unfold KG.connect, KG.bind, KG.get_self. cbn [fst snd].
  destruct (KG.driver self) as [d|] eqn:Ed; [apply settled_refl|].
  unfold KG.call. destruct (KG.GraphDatabase_driver neo _ _ w) as [[d|e] w'];
    cbn [KG.put_driver fst snd]; [|apply settled_refl].
  repeat split. intros d' Hd'. congruence.
Qed.

Lemma keeps_session : keeps (KG._session neo).
Proof.
  unfold KG._session. apply keeps_bind; [apply keeps_get_self|]. intros self0.
  apply keeps_bind.
  { destruct (KG.driver self0); [apply keeps_ret|apply keeps_connect]. }
  intros _. apply keeps_bind; [apply keeps_get_self|]. intros self.
  destruct (KG.driver self); [|apply keeps_raise].
  destruct (Str.truthy _); apply keeps_call.
Qed.

Lemma keeps_with_session {A} (body : S → KG.M (D:=D) (W:=W) A) :
  (∀ s, keeps (body s)) → keeps (KG.with_session neo body).
Proof.
  intros Hb. unfold KG.with_session. apply keeps_bind; [apply keeps_session|].
  intros s st. pose proof (Hb s st) as H1.
  destruct (body s st) as [[a|e] st'];
    (eapply settled_trans; [exact H1|]);
    (apply keeps_bind; [apply keeps_call|]); intros _;
    [apply keeps_ret|apply keeps_raise].
Qed.

Lemma keeps_run_consume s cypher params :
  keeps (D:=D) (KG.bind (KG.call (KG.session_run neo s cypher params))
                  (fun q => KG.call (KG.result_consume neo q))).
Proof. apply keeps_bind; [apply keeps_call|]. intros q. apply keeps_call. Qed.

End SettledFacts.

Ltac keeps_step :=
  first [ apply keeps_ret | apply keeps_raise | apply keeps_call | apply keeps_index
        | apply keeps_run_consume
        | apply keeps_try_except; [|intros ?]
        | apply keeps_with_session; intros ?
        | apply keeps_collect; intros ?
        | apply keeps_bind; [|intros ?] ].

(** X9.  The operations of the Graph Index never change the settings of
    the object (uri, user, password, database) and never drop or replace
    a driver it already holds: the driver is created lazily, at most once
    until [close]. *)
Theorem kg_operations_keep_driver {W D S Q : Type} (neo : KG.Neo4j W D S Q) :
  keeps (KG.health neo) ∧ keeps (KG.ensure_constraints neo) ∧
  (∀ c, keeps (KG.upsert_course neo c)) ∧
  keeps (KG.summary neo) ∧ keeps (KG.export_graph neo) ∧
  (∀ x, keeps (KG.get_courses_by_teacher neo x)) ∧
  (∀ x, keeps (KG.get_courses_by_dept neo x)) ∧
  (∀ x, keeps (KG.get_courses_by_semester neo x)).
Proof.
  repeat split; try intros ?;
    unfold KG.health, KG.ensure_constraints, KG.upsert_course, KG.summary,
      KG.export_graph, KG.get_courses_by_teacher, KG.get_courses_by_dept,
      KG.get_courses_by_semester, KG.lookup;
    repeat keeps_step.
  all: match goal with |- keeps (match ?o with _ => _ end) => destruct o end;
    repeat keeps_step.
Qed.

(** ** Sessions are left *)

Section SessionFacts.
Context {W D S Q : Type}.
Variable neo : KG.Neo4j W D S Q.

Local Abbreviation MT := (KG.M (D:=D) (W:=W * list (Trace.dev S))).
Local Abbreviation log_of := (fun r : _ * (KG.KnowledgeGraph D * (W * list (Trace.dev S))) =>
                                snd (snd (snd r))).

Lemma quiet_ret {A} s (a : A) : Trace.quiet_on s (KG.ret a : MT A).
Proof. intros self w log. exists []. by rewrite app_nil_r. Qed.

Lemma quiet_raise {A} s e : Trace.quiet_on s (KG.raise e : MT A).
Proof. intros self w log. exists []. by rewrite app_nil_r. Qed.

Lemma quiet_bind {A B} s (c : MT A) (k : A → MT B) :
  Trace.quiet_on s c → (∀ a, Trace.quiet_on s (k a)) → Trace.quiet_on s (KG.bind c k).
Proof.
  intros Hc Hk self w log. unfold KG.bind.
  destruct (Hc self w log) as (e1 & E1 & F1).
  destruct (c (self, (w, log))) as [[a|e] [self' [w' log']]]; cbn [snd] in *.
  - destruct (Hk a self' w' log') as (e2 & E2 & F2).
    exists (e1 ++ e2). rewrite E2, E1, app_assoc. split; [done|].
    by apply Forall_app.
  - by exists e1.
Qed.

Lemma quiet_index s row k : Trace.quiet_on s (KG.index row k : MT _).
Proof. unfold KG.index. destruct (row !! k); [apply quiet_ret|apply quiet_raise]. Qed.

Lemma quiet_collect {A B} s (f : A → MT B) xs :
  (∀ x, Trace.quiet_on s (f x)) → Trace.quiet_on s (KG.collect f xs).
Proof.
  intros Hf. induction xs as [|x xs IH]; [apply quiet_ret|].
  cbn [KG.collect]. apply quiet_bind; [done|]. intros y.
  apply quiet_bind; [done|]. intros ys. apply quiet_ret.
Qed.

Lemma quiet_run s cypher params :
  Trace.quiet_on s (KG.call (KG.session_run (Trace.traced neo) s cypher params) : MT _).
Proof.
  intros self w log. unfold KG.call. cbn [Trace.traced KG.session_run Trace.note].
  destruct (KG.session_run neo s cypher params w) as [r w'].
  exists [Trace.DRun s cypher]. split; [done|]. by repeat constructor.
Qed.

Lemma quiet_consume s q :
  Trace.quiet_on s (KG.call (KG.result_consume (Trace.traced neo) q) : MT _).
Proof.
  intros self w log. unfold KG.call. cbn [Trace.traced KG.result_consume Trace.note].
  destruct (KG.result_consume neo q w) as [r w'].
  exists [Trace.DFetch]. split; [done|]. by repeat constructor.
Qed.

Lemma quiet_single s q :
  Trace.quiet_on s (KG.call (KG.result_single (Trace.traced neo) q) : MT _).
Proof.
  intros self w log. unfold KG.call. cbn [Trace.traced KG.result_single Trace.note].
  destruct (KG.result_single neo q w) as [r w'].
  exists [Trace.DFetch]. split; [done|]. by repeat constructor.
Qed.

Lemma quiet_rows s q :
  Trace.quiet_on s (KG.call (KG.result_rows (Trace.traced neo) q) : MT _).
Proof.
  intros self w log. unfold KG.call. cbn [Trace.traced KG.result_rows Trace.note].
  destruct (KG.result_rows neo q w) as [r w'].
  exists [Trace.DFetch]. split; [done|]. by repeat constructor.
Qed.

(** The calls of [_session]: the driver is created when there is none,
    then a session is asked for. *)
Lemma session_calls self w log :
  ∃ pre, (pre = [] ∨ pre = [Trace.DConnect]) ∧
         (is_Some (KG.driver self) → pre = []) ∧
         match KG._session (Trace.traced neo) (self, (w, log)) with
         | (KG.Returns s, (_, (_, log'))) => log' = log ++ pre ++ [Trace.DOpen (Some s)]
         | (KG.Raises _, (_, (_, log'))) =>
             log' = log ++ pre ∨ log' = log ++ pre ++ [Trace.DOpen None]
         end.
Proof.
  unfold KG._session, KG.bind, KG.get_self. cbn [fst snd].
  destruct (KG.driver self) as [d|] eqn:Ed.
  - exists []. split; [by left|]. split; [done|].
    cbn [KG.ret fst]. rewrite Ed.
    destruct (Str.truthy (KG.database self));
      unfold KG.call; cbn [Trace.traced KG.driver_session Trace.note];
      match goal with |- context [KG.driver_session neo ?a ?b ?c] =>
        destruct (KG.driver_session neo a b c) as [[s|e] w'] end; cbn; auto.
  - exists [Trace.DConnect]. split; [by right|]. split; [by intros [? ?]|].
    unfold KG.connect, KG.bind, KG.get_self. cbn [fst snd]. rewrite Ed.
    unfold KG.call at 1. cbn [Trace.traced KG.GraphDatabase_driver Trace.note].
    destruct (KG.GraphDatabase_driver neo _ _ w) as [[d|e] w']; [|by left].
    cbn [KG.put_driver KG.set_driver fst snd KG.driver KG.database].
    destruct (Str.truthy (KG.database self));
      unfold KG.call; cbn [Trace.traced KG.driver_session Trace.note];
      match goal with |- context [KG.driver_session neo ?a ?b ?c] =>
        destruct (KG.driver_session neo a b c) as [[s|e] w''] end; cbn;
      rewrite <- ?app_assoc; auto.
Qed.

(** A [with] block whose body stays within its session opens at most one
    session and leaves it with its last call. *)
Lemma with_session_calls {A} (body : S → MT A) self w log :
  (∀ s, Trace.quiet_on s (body s)) →
  ∃ evs, log_of (KG.with_session (Trace.traced neo) body (self, (w, log))) = log ++ evs ∧
         Trace.one_session evs ∧
         (is_Some (KG.driver self) → Trace.DConnect ∉ evs).
Proof.
  intros Hb. unfold KG.with_session. unfold KG.bind at 1.
  destruct (session_calls self w log) as (pre & Hpre & Hsome & Hs).
  destruct (KG._session (Trace.traced neo) (self, (w, log)))
    as [[s|e] [self1 [w1 log1]]].
  - destruct (Hb s self1 w1 log1) as (mid & Hmid & Fmid).
    assert (Hexit : ∀ (r : KG.outcome A) self2 w2,
      log_of ((match r with
               | KG.Returns a =>
                   KG.bind (KG.call (KG.session_exit (Trace.traced neo) s false))
                     (fun _ => KG.ret a)
               | KG.Raises e =>
                   KG.bind (KG.call (KG.session_exit (Trace.traced neo) s true))
                     (fun _ => KG.raise e)
               end : MT A) (self2, (w2, log1 ++ mid)))
      = log1 ++ mid ++ [Trace.DExit s]).
    { intros r self2 w2. destruct r; unfold KG.bind, KG.call;
        cbn [Trace.traced KG.session_exit Trace.note];
        match goal with |- context [KG.session_exit neo ?a ?b ?c] =>
          destruct (KG.session_exit neo a b c) as [[u|e'] w3] end;
        cbn; by rewrite <- app_assoc. }
    destruct (body s (self1, (w1, log1))) as [r [self2 [w2 log2]]].
    cbn [snd] in Hmid. subst log2 log1.
    exists (pre ++ [Trace.DOpen (Some s)] ++ mid ++ [Trace.DExit s]).
    split; [|split].
    + specialize (Hexit r self2 w2). destruct r; rewrite Hexit; by rewrite <- !app_assoc.
    + exists pre. split; [done|]. right. right. by exists s, mid.
    + intros Hd. rewrite (Hsome Hd). intros Hin.
      apply elem_of_app in Hin as [Hin|Hin]; [by apply elem_of_nil in Hin|].
      apply elem_of_cons in Hin as [Hin|Hin]; [done|].
      apply elem_of_app in Hin as [Hin|Hin].
      * apply (proj1 (Forall_forall _ _) Fmid) in Hin. done.
      * apply list_elem_of_singleton in Hin. done.
  - cbn [snd]. destruct Hs as [-> | ->].
    + exists pre. split; [done|]. split.
      * exists pre. split; [done|]. by left.
      * intros Hd. rewrite (Hsome Hd). by intros ?%elem_of_nil.
    + exists (pre ++ [Trace.DOpen None]). split; [done|]. split.
      * exists pre. split; [done|]. right. by left.
      * intros Hd. rewrite (Hsome Hd). intros Hin.
        apply list_elem_of_singleton in Hin. done.
Qed.

(** Wrapping in [try] with a handler that returns, or following with a
    return, adds no call. *)
Lemma try_except_log {A} (c : MT A) (f : KG.exn → A) st :
  log_of (KG.try_except c (fun e => KG.ret (f e)) st) = log_of (c st).
Proof. unfold KG.try_except. by destruct (c st) as [[a|e] st']. Qed.

Lemma bind_ret_log {A B} (c : MT A) (f : A → B) st :
  log_of (KG.bind c (fun a => KG.ret (f a)) st) = log_of (c st).
Proof. unfold KG.bind. by destruct (c st) as [[a|e] st']. Qed.

End SessionFacts.

Ltac quiet_step :=
  first [ apply quiet_ret | apply quiet_raise | apply quiet_run | apply quiet_consume
        | apply quiet_single | apply quiet_rows | apply quiet_index
        | apply quiet_collect; intros ?
        | apply quiet_bind; [|intros ?] ].

Ltac scoped_op :=
  intros self w log;
  rewrite ?try_except_log;
  try match goal with |- context [KG.bind ?c (fun a => KG.ret (@?f a)) ?st] =>
    rewrite (bind_ret_log c f st) end;
  apply with_session_calls; intros s;
  repeat quiet_step;
  try (match goal with |- Trace.quiet_on _ (match ?o with _ => _ end) => destruct o end;
       repeat quiet_step).

(** X10.  Whatever the driver does, each operation of the Graph Index
    opens at most one session, runs all its queries on that session, and
    leaves the session as its last driver call, on success and on failure
    alike; it creates the driver only when the object holds none, before
    anything else. *)
Theorem kg_operations_scoped_session {W D S Q : Type} (neo : KG.Neo4j W D S Q) :
  Trace.scoped (KG.health (Trace.traced neo)) ∧
  Trace.scoped (KG.ensure_constraints (Trace.traced neo)) ∧
  (∀ c, Trace.scoped (KG.upsert_course (Trace.traced neo) c)) ∧
  Trace.scoped (KG.summary (Trace.traced neo)) ∧
  Trace.scoped (KG.export_graph (Trace.traced neo)) ∧
  (∀ x, Trace.scoped (KG.get_courses_by_teacher (Trace.traced neo) x)) ∧
  (∀ x, Trace.scoped (KG.get_courses_by_dept (Trace.traced neo) x)) ∧
  (∀ x, Trace.scoped (KG.get_courses_by_semester (Trace.traced neo) x)).
Proof.
  split; [|split; [|split; [|split; [|split; [|split; [|split]]]]]].
  - unfold KG.health. scoped_op.
  - unfold KG.ensure_constraints. scoped_op.
  - intros c. unfold KG.upsert_course. scoped_op.
  - unfold KG.summary. scoped_op.
  - unfold KG.export_graph. scoped_op.
  - intros x. unfold KG.get_courses_by_teacher, KG.lookup. scoped_op.
  - intros x. unfold KG.get_courses_by_dept, KG.lookup. scoped_op.
  - intros x. unfold KG.get_courses_by_semester, KG.lookup. scoped_op.
Qed.

(** ** The HTTP routes *)

Section RouteWatchFacts.
Context {W D S Q : Type}.
Variable neo : KG.Neo4j W D S Q.

Lemma returns_bind {A B} (c : KG.M (D:=D) (W:=W * list Watch.obs) A) (k : A → KG.M B)
    self w log (P : A → list Watch.obs → Prop) (R : B → list Watch.obs → Prop) :
  Watch.returns c self w log P →
  (∀ r self' w' evs, P r evs →
     Watch.returns (k r) self' w' (log ++ evs) (fun b evs2 => R b (evs ++ evs2))) →
  Watch.returns (KG.bind c k) self w log R.
Proof.
  intros (r & self1 & w1 & evs & Heq & HP) Hk.
  destruct (Hk r self1 w1 evs HP) as (b & self2 & w2 & evs2 & Heq2 & HR).
  exists b, self2, w2, (evs ++ evs2). unfold KG.bind. rewrite Heq, Heq2.
  by rewrite app_assoc.
Qed.

Lemma returns_ret {A} (a : A) (self : KG.KnowledgeGraph D) (w : W) log
    (P : A → list Watch.obs → Prop) :
  P a [] → Watch.returns (KG.ret a) self w log P.
Proof. intros HP. exists a, self, w, []. by rewrite app_nil_r. Qed.

End RouteWatchFacts.

(** X11.  GET /health reports the probe.  Over a watched driver the route
    always answers, with status "ok"; when no call of the driver raised,
    the probe query was run and the body has neo4j "ok" and a null error;
    when a call raised, the body has neo4j "down" and, as error, the text
    of the last exception that the driver raised. *)
Theorem health_route_answers {W D S Q : Type} (neo : KG.Neo4j W D S Q)
    (self : KG.KnowledgeGraph D) (w : W) (log : list Watch.obs) :
  Watch.returns (App.health (Watch.watched neo)) self w log (fun body evs =>
    match Watch.failure evs with
    | None =>
        evs = [Watch.Ran "RETURN 1" ∅] ∧
        body = <["status" := KG.VStr "ok"]>
                 (<["neo4j" := KG.VStr "ok"]> (<["error" := KG.VNull]> ∅))
    | Some e =>
        body = <["status" := KG.VStr "ok"]>
                 (<["neo4j" := KG.VStr "down"]>
                   (<["error" := KG.VStr (KG.exn_text e)]> ∅))
    end).
Proof.
  unfold App.health. eapply returns_bind; [apply health_tracks|].
  intros r self' w' evs Hr. apply returns_ret. rewrite app_nil_r.
  unfold Watch.status_report in Hr.
  destruct (Watch.failure evs) as [e|]; [by subst r|by destruct Hr as [-> ->]].
Qed.

(** X12.  GET /graph/summary reports what the driver gave.  Over a watched
    driver the route always answers.  When no call of the driver raised,
    the probe and the summary query were run, and the body holds the
    counts of the record that the driver gave (zeros when it gave none),
    or zeros with the text of the key error when the record misses a
    column.  When a call raised, during the probe or the summary, the
    body holds zeros and, as error, the text of the last exception that
    the driver raised. *)
Theorem graph_summary_route_answers {W D S Q : Type} (neo : KG.Neo4j W D S Q)
    (self : KG.KnowledgeGraph D) (w : W) (log : list Watch.obs) :
  Watch.returns (App.graph_summary (Watch.watched neo)) self w log (fun body evs =>
    match Watch.failure evs with
    | None =>
        ∃ rcd,
          evs = [Watch.Ran "RETURN 1" ∅; Watch.Ran KG.summary_cypher ∅; Watch.Single rcd] ∧
          body = match Watch.summary_of rcd with
                 | (Some (n, e), _) => <["nodes" := n]> (<["edges" := e]> ∅)
                 | (None, err) => App.no_summary err
                 end
    | Some e => body = App.no_summary (Some (KG.exn_text e))
    end).
Proof.
  unfold App.graph_summary. eapply returns_bind; [apply health_tracks|].
  intros r self1 w1 evs1 Hr. unfold Watch.status_report in Hr.
  destruct (Watch.failure evs1) as [e|] eqn:F1.
  { subst r. cbn [fst snd negb]. apply returns_ret. by rewrite app_nil_r, F1. }
  destruct Hr as [-> ->]. cbn [fst snd negb].
  eapply returns_bind; [apply summary_tracks|].
  intros r self2 w2 evs2 Hr. unfold Watch.summary_report in Hr.
  assert (HF : ∀ evs3, evs3 = [] →
            Watch.failure ([Watch.Ran "RETURN 1" ∅] ++ evs2 ++ evs3) = Watch.failure evs2).
  { intros evs3 ->. rewrite app_nil_r. by apply failure_quiet_app. }
  destruct (Watch.failure evs2) as [e|] eqn:F2.
  { subst r. apply returns_ret. by rewrite HF. }
  destruct Hr as (rcd & -> & ->).
  assert (Hs : (∃ n e, Watch.summary_of rcd = (Some (n, e), None)) ∨
               (∃ err, Watch.summary_of rcd = (None, err))).
  { destruct rcd as [row|]; [|left; by eexists _, _]. cbn.
    destruct (row !! "nodes"); [|right; by eexists].
    destruct (row !! "rels"); [left; by eexists _, _|right; by eexists]. }
  destruct Hs as [(n & e & Hs)|(err & Hs)]; rewrite Hs; cbn [Str.truthy];
    apply returns_ret; rewrite HF by done; exists rcd; by rewrite Hs.
Qed.

(** X13.  GET /graph/export reports what the driver gave.  Over a watched
    driver the route always answers.  When no call of the driver raised,
    the probe and the node query were run, then the edge query, and the
    body holds the nodes and the edges made of the rows that the driver
    gave, or empty lists with the text of the key error when a row misses
    a column.  When a call raised, the body holds empty lists and, as
    error, the text of the last exception that the driver raised. *)
Theorem graph_export_route_answers {W D S Q : Type} (neo : KG.Neo4j W D S Q)
    (self : KG.KnowledgeGraph D) (w : W) (log : list Watch.obs) :
  Watch.returns (App.graph_export (Watch.watched neo)) self w log (fun body evs =>
    match Watch.failure evs with
    | None =>
        ∃ nrows,
          match mapM Watch.node_of nrows with
          | None =>
              evs = [Watch.Ran "RETURN 1" ∅; Watch.Ran Watch.node_query ∅; Watch.Rows nrows] ∧
              ∃ k, body = App.no_graph (Some (Watch.key_error k))
          | Some ns =>
              ∃ erows,
                evs = [Watch.Ran "RETURN 1" ∅; Watch.Ran Watch.node_query ∅; Watch.Rows nrows;
                       Watch.Ran Watch.edge_query ∅; Watch.Rows erows] ∧
                match mapM Watch.edge_of erows with
                | None => ∃ k, body = App.no_graph (Some (Watch.key_error k))
                | Some es =>
                    body = <["nodes" := KG.VList (App.json_record <$> ns)]>
                             (<["edges" := KG.VList (App.json_record <$> es)]> ∅)
                end
          end
    | Some e => body = App.no_graph (Some (KG.exn_text e))
    end).
Proof.
  unfold App.graph_export. eapply returns_bind; [apply health_tracks|].
  intros r self1 w1 evs1 Hr. unfold Watch.status_report in Hr.
  destruct (Watch.failure evs1) as [e|] eqn:F1.
  { subst r. cbn [fst snd negb]. apply returns_ret. by rewrite app_nil_r, F1. }
  destruct Hr as [-> ->]. cbn [fst snd negb].
  eapply returns_bind; [apply export_graph_tracks|].
  intros r self2 w2 evs2 Hr. unfold Watch.export_report in Hr.
  assert (HF : ∀ evs3, evs3 = [] →
            Watch.failure ([Watch.Ran "RETURN 1" ∅] ++ evs2 ++ evs3) = Watch.failure evs2).
  { intros evs3 ->. rewrite app_nil_r. by apply failure_quiet_app. }
  destruct (Watch.failure evs2) as [e|] eqn:F2.
  { subst r. apply returns_ret. by rewrite HF. }
  destruct Hr as (nrows & Hr).
  destruct (mapM Watch.node_of nrows) as [ns|] eqn:Hn.
  - destruct Hr as (erows & -> & Hr).
    destruct (mapM Watch.edge_of erows) as [es|] eqn:He.
    + subst r. cbn [Str.truthy]. apply returns_ret. rewrite HF by done.
      exists nrows. rewrite Hn. exists erows. by rewrite He.
    + destruct Hr as (k & ->). apply returns_ret. rewrite HF by done.
      exists nrows. rewrite Hn. exists erows. rewrite He. split; [done|]. by exists k.
  - destruct Hr as (-> & k & ->). apply returns_ret. rewrite HF by done.
    exists nrows. rewrite Hn. split; [done|]. by exists k.
Qed.

(** ** The seeding script *)

Section SeedFacts.
Context {W D S Q : Type}.
Variable neo : KG.Neo4j W D S Q.

Local Abbreviation MO := (KG.M (D:=D) (W:=W * list string)).

Lemma silent_ret {A} (a : A) : Seed.silent (KG.ret a : MO A).
Proof. by intros self w out. Qed.

Lemma silent_raise {A} e : Seed.silent (KG.raise e : MO A).
Proof. by intros self w out. Qed.

Lemma silent_get_self : Seed.silent (KG.get_self : MO _).
Proof. by intros self w out. Qed.

Lemma silent_put_driver d : Seed.silent (KG.put_driver d : MO _).
Proof. by intros self w out. Qed.

Lemma silent_lift {A} (f : W → KG.outcome A * W) : Seed.silent (D:=D) (KG.call (Seed.lift f)).
Proof. intros self w out. unfold KG.call, Seed.lift. by destruct (f w). Qed.

Lemma silent_bind {A B} (c : MO A) (k : A → MO B) :
  Seed.silent c → (∀ a, Seed.silent (k a)) → Seed.silent (KG.bind c k).
Proof.
  intros Hc Hk self w out. unfold KG.bind. pose proof (Hc self w out) as H1.
  destruct (c (self, (w, out))) as [[a|e] [self' [w' out']]]; cbn [snd] in *; subst out'.
  - apply Hk.
  - done.
Qed.

Lemma silent_try_except {A} (c : MO A) h :
  Seed.silent c → (∀ e, Seed.silent (h e)) → Seed.silent (KG.try_except c h).
Proof.
  intros Hc Hh self w out. unfold KG.try_except. pose proof (Hc self w out) as H1.
  destruct (c (self, (w, out))) as [[a|e] [self' [w' out']]]; cbn [snd] in *; subst out'.
  - done.
  - apply Hh.
Qed.

Lemma silent_collect {A B} (f : A → MO B) xs :
  (∀ x, Seed.silent (f x)) → Seed.silent (KG.collect f xs).
Proof.
  intros Hf. induction xs as [|x xs IH]; [apply silent_ret|].
  cbn [KG.collect]. apply silent_bind; [done|]. intros y.
  apply silent_bind; [done|]. intros ys. apply silent_ret.
Qed.

Lemma silent_connect : Seed.silent (KG.connect (Seed.with_stdout neo)).
Proof.
  unfold KG.connect. apply silent_bind; [apply silent_get_self|]. intros self.
  destruct (KG.driver self); [apply silent_ret|].
  apply silent_bind; [apply silent_lift|]. intros d. apply silent_put_driver.
Qed.

Lemma silent_session : Seed.silent (KG._session (Seed.with_stdout neo)).
Proof.
  unfold KG._session. apply silent_bind; [apply silent_get_self|]. intros self0.
  apply silent_bind.
  { destruct (KG.driver self0); [apply silent_ret|apply silent_connect]. }
  intros _. apply silent_bind; [apply silent_get_self|]. intros self.
  destruct (KG.driver self); [|apply silent_raise].
  destruct (Str.truthy _); apply silent_lift.
Qed.

Lemma silent_with_session {A} (body : S → MO A) :
  (∀ s, Seed.silent (body s)) → Seed.silent (KG.with_session (Seed.with_stdout neo) body).
Proof.
  intros Hb. unfold KG.with_session. apply silent_bind; [apply silent_session|].
  intros s self w out. pose proof (Hb s self w out) as H1.
  destruct (body s (self, (w, out))) as [[a|e] [self' [w' out']]];
    cbn [snd] in H1; subst out';
    (apply silent_bind; [apply silent_lift|]); intros _;
    [apply silent_ret|apply silent_raise].
Qed.

Lemma silent_run_consume s cypher params :
  Seed.silent (D:=D)
    (KG.bind (KG.call (KG.session_run (Seed.with_stdout neo) s cypher params))
       (fun q => KG.call (KG.result_consume (Seed.with_stdout neo) q))).
Proof. apply silent_bind; [apply silent_lift|]. intros q. apply silent_lift. Qed.

Lemma silent_upsert_course c : Seed.silent (KG.upsert_course (Seed.with_stdout neo) c).
Proof.
  unfold KG.upsert_course. apply silent_try_except; [|intros e; apply silent_ret].
  apply silent_bind; [|intros _; apply silent_ret].
  apply silent_with_session. intros s. apply silent_run_consume.
Qed.

Lemma silent_ensure_constraints : Seed.silent (KG.ensure_constraints (Seed.with_stdout neo)).
Proof.
  unfold KG.ensure_constraints. apply silent_try_except; [|intros e; apply silent_ret].
  apply silent_bind; [|intros _; apply silent_ret].
  apply silent_with_session. intros s.
  apply silent_bind; [|intros _; apply silent_ret].
  apply silent_collect. intros stmt. apply silent_run_consume.
Qed.

(** An operation that gives a (status, error) pair, run by the script. *)
Lemma status_silent (c : MO (bool * option string)) self w out :
  Seed.silent c →
  (∃ r st', c (self, (w, out)) = (KG.Returns r, st') ∧ KG.status_pair r) →
  ∃ r self' w', c (self, (w, out)) = (KG.Returns r, (self', (w', out))) ∧ KG.status_pair r.
Proof.
  intros Hs (r & [self' [w' out']] & Heq & Hr).
  pose proof (Hs self w out) as H1. rewrite Heq in H1. cbn [snd] in H1. subst out'.
  by exists r, self', w'.
Qed.

(** The loop counts the courses that were written and prints a line for
    each of the others, in the order of the Catalog. *)
Lemma seed_loop_report courses : ∀ k self w out,
  ∃ (failed : list (course_rec * KG.exn)) self' w',
    Seed.seed_loop neo courses k (self, (w, out)) =
      (KG.Returns (k + (length courses - length failed)),
       (self', (w', out ++
          ((fun ce => "Failed to upsert " +:+ course ce.1 +:+ ": " +:+ KG.exn_text ce.2)
             <$> failed)))) ∧
    sublist (fst <$> failed) courses.
Proof.
  induction courses as [|c cs IH]; intros k self w out.
  - exists [], self, w. cbn [Seed.seed_loop length fmap list_fmap]. rewrite app_nil_r.
    split; [|constructor]. unfold KG.ret. do 2 f_equal. lia.
  - cbn [Seed.seed_loop]. unfold KG.bind at 1.
    destruct (status_silent (KG.upsert_course (Seed.with_stdout neo) c) self w out
                (silent_upsert_course c) (status_op_returns _ _))
      as (r & self1 & w1 & Heq & Hr).
    rewrite Heq. destruct Hr as [-> | (e & ->)]; cbn [fst snd].
    + destruct (IH (k + 1) self1 w1 out) as (failed & self' & w' & Hl & Hsub).
      exists failed, self', w'. rewrite Hl. split; [|by apply sublist_cons].
      apply sublist_length in Hsub. rewrite length_fmap in Hsub.
      cbn [length]. do 2 f_equal. lia.
    + unfold KG.bind at 1. cbn [Seed.print Chatbot.fmt default from_option id].
      destruct (IH k self1 w1
                  (out ++ ["Failed to upsert " +:+ course c +:+ ": " +:+ KG.exn_text e]))
        as (failed & self' & w' & Hl & Hsub).
      exists ((c, e) :: failed), self', w'. rewrite Hl.
      split; [|by apply sublist_skip].
      cbn [length fmap list_fmap fst snd]. rewrite <- app_assoc. reflexivity.
Qed.

(** What [main] does before it closes the driver. *)
Lemma seed_main_before_close courses self w out :
  ∃ pre (failed : list (course_rec * KG.exn)) self' w',
    Seed.main neo courses (self, (w, out)) =
      KG.close (Seed.with_stdout neo)
        (self', (w', out ++ pre ++
           ((fun ce => "Failed to upsert " +:+ course ce.1 +:+ ": " +:+ KG.exn_text ce.2)
              <$> failed) ++
           [Seed.seeded_line (length courses - length failed)])) ∧
    (pre = [] ∨ ∃ e, pre = ["Failed to apply constraints: " +:+ KG.exn_text e]) ∧
    sublist (fst <$> failed) courses.
Proof.
  unfold Seed.main. unfold KG.bind at 1.
  destruct (status_silent (KG.ensure_constraints (Seed.with_stdout neo)) self w out
              silent_ensure_constraints (status_op_returns _ _))
    as (r & self1 & w1 & Heq & Hr).
  rewrite Heq. unfold KG.bind at 1.
  destruct Hr as [-> | (e & ->)]; cbn [fst snd negb KG.ret Seed.print Chatbot.fmt default from_option id];
    unfold KG.bind at 1.
  - destruct (seed_loop_report courses 0 self1 w1 out) as (failed & self' & w' & Hl & Hsub).
    rewrite Hl. unfold KG.bind at 1. cbn [Seed.print].
    exists [], failed, self', w'. split; [|split; [by left|done]].
    cbn [app]. by rewrite <- app_assoc.
  - destruct (seed_loop_report courses 0 self1 w1
                (out ++ ["Failed to apply constraints: " +:+ KG.exn_text e]))
      as (failed & self' & w' & Hl & Hsub).
    rewrite Hl. unfold KG.bind at 1. cbn [Seed.print].
    exists ["Failed to apply constraints: " +:+ KG.exn_text e], failed, self', w'.
    split; [|split; [right; by exists e|done]].
    by rewrite <- !app_assoc.
Qed.

Lemma silent_close : Seed.silent (KG.close (Seed.with_stdout neo)).
Proof.
  unfold KG.close. apply silent_bind; [apply silent_get_self|]. intros self.
  destruct (KG.driver self); [|apply silent_ret].
  apply silent_bind; [apply silent_lift|]. intros _. apply silent_put_driver.
Qed.

End SeedFacts.

Section SeedWatchFacts.
Context {W D S Q : Type}.
Variable neo : KG.Neo4j W D S Q.

Local Abbreviation MO := (KG.M (D:=D) (W:=W * list string)).
Local Abbreviation MN := (KG.M (D:=D) (W:=W)).

Lemma lifts_ret {A} (a : A) : Seed.lifts (KG.ret a : MO A) (KG.ret a).
Proof. by intros self w out. Qed.

Lemma lifts_raise {A} e : Seed.lifts (KG.raise e : MO A) (KG.raise e).
Proof. by intros self w out. Qed.

Lemma lifts_get_self : Seed.lifts (KG.get_self : MO _) KG.get_self.
Proof. by intros self w out. Qed.

Lemma lifts_put_driver d : Seed.lifts (KG.put_driver d : MO _) (KG.put_driver d).
Proof. by intros self w out. Qed.

Lemma lifts_call {A} (f : W → KG.outcome A * W) :
  Seed.lifts (D:=D) (KG.call (Seed.lift f)) (KG.call f).
Proof. intros self w out. unfold KG.call, Seed.lift. by destruct (f w). Qed.

Lemma lifts_bind {A B} (c' : MO A) (c : MN A) (k' : A → MO B) (k : A → MN B) :
  Seed.lifts c' c → (∀ a, Seed.lifts (k' a) (k a)) → Seed.lifts (KG.bind c' k') (KG.bind c k).
Proof.
  intros Hc Hk self w out. unfold KG.bind. rewrite Hc.
  destruct (c (self, w)) as [[a|e] [self' w']]; [apply Hk|done].
Qed.

Lemma lifts_try_except {A} (c' : MO A) (c : MN A) h' h :
  Seed.lifts c' c → (∀ e, Seed.lifts (h' e) (h e)) →
  Seed.lifts (KG.try_except c' h') (KG.try_except c h).
Proof.
  intros Hc Hh self w out. unfold KG.try_except. rewrite Hc.
  destruct (c (self, w)) as [[a|e] [self' w']]; [done|apply Hh].
Qed.

Lemma lifts_collect {A B} (f' : A → MO B) (f : A → MN B) xs :
  (∀ x, Seed.lifts (f' x) (f x)) → Seed.lifts (KG.collect f' xs) (KG.collect f xs).
Proof.
  intros Hf. induction xs as [|x xs IH]; [apply lifts_ret|].
  cbn [KG.collect]. apply lifts_bind; [done|]. intros y.
  apply lifts_bind; [done|]. intros ys. apply lifts_ret.
Qed.

Lemma lifts_connect : Seed.lifts (KG.connect (Seed.with_stdout neo)) (KG.connect neo).
Proof.
  unfold KG.connect. apply lifts_bind; [apply lifts_get_self|]. intros self.
  destruct (KG.driver self); [apply lifts_ret|].
  apply lifts_bind; [apply lifts_call|]. intros d. apply lifts_put_driver.
Qed.

Lemma lifts_close : Seed.lifts (KG.close (Seed.with_stdout neo)) (KG.close neo).
Proof.
  unfold KG.close. apply lifts_bind; [apply lifts_get_self|]. intros self.
  destruct (KG.driver self); [|apply lifts_ret].
  apply lifts_bind; [apply lifts_call|]. intros _. apply lifts_put_driver.
Qed.

Lemma lifts_session : Seed.lifts (KG._session (Seed.with_stdout neo)) (KG._session neo).
Proof.
  unfold KG._session. apply lifts_bind; [apply lifts_get_self|]. intros self0.
  apply lifts_bind.
  { destruct (KG.driver self0); [apply lifts_ret|apply lifts_connect]. }
  intros _. apply lifts_bind; [apply lifts_get_self|]. intros self.
  destruct (KG.driver self); [|apply lifts_raise].
  destruct (Str.truthy _); apply lifts_call.
Qed.

Lemma lifts_with_session {A} (body' : S → MO A) (body : S → MN A) :
  (∀ s, Seed.lifts (body' s) (body s)) →
  Seed.lifts (KG.with_session (Seed.with_stdout neo) body') (KG.with_session neo body).
Proof.
  intros Hb. unfold KG.with_session. apply lifts_bind; [apply lifts_session|].
  intros s self w out. rewrite Hb.
  destruct (body s (self, w)) as [[a|e] [self' w']];
    (apply lifts_bind; [apply lifts_call|]); intros _;
    [apply lifts_ret|apply lifts_raise].
Qed.

Lemma lifts_run_consume s cypher params :
  Seed.lifts (D:=D)
    (KG.bind (KG.call (KG.session_run (Seed.with_stdout neo) s cypher params))
       (fun q => KG.call (KG.result_consume (Seed.with_stdout neo) q)))
    (KG.bind (KG.call (KG.session_run neo s cypher params))
       (fun q => KG.call (KG.result_consume neo q))).
Proof. apply lifts_bind; [apply lifts_call|]. intros q. apply lifts_call. Qed.

Lemma lifts_upsert_course c :
  Seed.lifts (KG.upsert_course (Seed.with_stdout neo) c) (KG.upsert_course neo c).
Proof.
  unfold KG.upsert_course. apply lifts_try_except; [|intros e; apply lifts_ret].
  apply lifts_bind; [|intros _; apply lifts_ret].
  apply lifts_with_session. intros s. apply lifts_run_consume.
Qed.

Lemma lifts_ensure_constraints :
  Seed.lifts (KG.ensure_constraints (Seed.with_stdout neo)) (KG.ensure_constraints neo).
Proof.
  unfold KG.ensure_constraints. apply lifts_try_except; [|intros e; apply lifts_ret].
  apply lifts_bind; [|intros _; apply lifts_ret].
  apply lifts_with_session. intros s.
  apply lifts_bind; [|intros _; apply lifts_ret].
  apply lifts_collect. intros stmt. apply lifts_run_consume.
Qed.

End SeedWatchFacts.

Section SeedReportFacts.
Context {W D S Q : Type}.
Variable neo : KG.Neo4j W D S Q.

(** An operation that gives a status, run by the script over a watched
    driver. *)
Lemma status_by_script (c' : KG.M (D:=D) (W:=(W * list Watch.obs) * list string) (bool * option string))
    (c : KG.M (D:=D) (W:=W * list Watch.obs) (bool * option string)) queries self w log out :
  Seed.lifts c' c →
  Watch.returns c self w log (Watch.status_report queries) →
  ∃ r self' w' seen,
    c' (self, ((w, log), out)) = (KG.Returns r, (self', ((w', log ++ seen), out))) ∧
    Watch.status_report queries r seen.
Proof.
  intros Hl (r & self' & w' & seen & Heq & Hr).
  exists r, self', w', seen. split; [|done]. by rewrite Hl, Heq.
Qed.

(** The loop: one upsert for each course, in order; the count goes up
    when the driver raised nothing, and a line is printed otherwise. *)
Lemma seed_loop_watched courses : ∀ k self w log out,
  ∃ seen self' w',
    Seed.seed_loop (Watch.watched neo) courses k (self, ((w, log), out)) =
      (KG.Returns (k + Seed.written seen),
       (self', ((w', log ++ concat seen), out ++ Seed.report courses seen))) ∧
    Forall2 Seed.upserted courses seen.
Proof.
  induction courses as [|c cs IH]; intros k self w log out.
  - exists [], self, w. cbn. rewrite !app_nil_r, Nat.add_0_r. by split.
  - cbn [Seed.seed_loop]. unfold KG.bind at 1.
    destruct (status_by_script _ _ _ self w log out
                (lifts_upsert_course (Watch.watched neo) c)
                (upsert_course_tracks neo c self w log))
      as (r & self1 & w1 & s & Heq & Hr).
    rewrite Heq. unfold Watch.status_report in Hr.
    destruct (Watch.failure s) as [e|] eqn:F.
    + subst r. cbn [fst snd]. unfold KG.bind at 1.
      cbn [Seed.print Chatbot.fmt default from_option id].
      destruct (IH k self1 w1 (log ++ s)
                  (out ++ ["Failed to upsert " +:+ course c +:+ ": " +:+ KG.exn_text e]))
        as (seen & self' & w' & Hl & Hall).
      exists (s :: seen), self', w'. rewrite Hl. split.
      * cbn [Seed.written Seed.report concat]. unfold Seed.upsert_lines. rewrite F.
        by rewrite <- !app_assoc.
      * constructor; [|done]. intros F'. congruence.
    + destruct Hr as [-> ->]. cbn [fst snd].
      destruct (IH (k + 1) self1 w1 (log ++ [Watch.Ran KG.upsert_cypher (KG.upsert_params c)]) out)
        as (seen & self' & w' & Hl & Hall).
      exists ([Watch.Ran KG.upsert_cypher (KG.upsert_params c)] :: seen), self', w'.
      rewrite Hl. split.
      * cbn [Seed.written Seed.report concat]. unfold Seed.upsert_lines. rewrite F.
        cbn [app]. rewrite <- !app_assoc. do 2 f_equal. lia.
      * constructor; [|done]. by intros _.
Qed.

(** Closing over a watched driver: the driver raises at most once. *)
Lemma close_watched self w log out :
  ∃ tail, (tail = [] ∨ ∃ e, tail = [Watch.Raised e]) ∧
    snd (fst (snd (snd (KG.close (Seed.with_stdout (Watch.watched neo))
                          (self, ((w, log), out)))))) = log ++ tail ∧
    snd (snd (snd (KG.close (Seed.with_stdout (Watch.watched neo))
                     (self, ((w, log), out))))) = out.
Proof.
  rewrite (lifts_close (Watch.watched neo)).
  unfold KG.close, KG.bind, KG.get_self. cbn [fst snd].
  destruct (KG.driver self) as [d|].
  - unfold KG.call. cbn [Watch.watched KG.driver_close Watch.note].
    destruct (KG.driver_close neo d w) as [[u|e] w1]; cbn.
    + exists []. split; [by left|done].
    + exists [Watch.Raised e]. split; [right; by exists e|done].
  - exists []. split; [by left|]. cbn. by rewrite app_nil_r.
Qed.

(** What [main] does before it closes the driver, over a watched
    driver. *)
Lemma seed_main_watched courses self w log out :
  ∃ first seen self2 w2,
    Seed.main (Watch.watched neo) courses (self, ((w, log), out)) =
      KG.close (Seed.with_stdout (Watch.watched neo))
        (self2, ((w2, log ++ first ++ concat seen),
                 out ++ Seed.constraints_lines first ++ Seed.report courses seen
                   ++ [Seed.seeded_line (Seed.written seen)])) ∧
    (Watch.failure first = None →
       first = (fun stmt => Watch.Ran stmt ∅) <$> KG.constraint_statements) ∧
    Forall2 Seed.upserted courses seen.
Proof.
  destruct (status_by_script _ _ _ self w log out
              (lifts_ensure_constraints (Watch.watched neo))
              (ensure_constraints_tracks neo self w log))
    as (r & self1 & w1 & first & Heq & Hr).
  exists first. unfold Seed.main. unfold KG.bind at 1. rewrite Heq.
  unfold Watch.status_report in Hr. unfold Seed.constraints_lines.
  destruct (Watch.failure first) as [e|] eqn:F.
  - subst r. cbn [fst snd negb]. unfold KG.bind at 1.
    cbn [Seed.print Chatbot.fmt default from_option id].
    destruct (seed_loop_watched courses 0 self1 w1 (log ++ first)
                (out ++ ["Failed to apply constraints: " +:+ KG.exn_text e]))
      as (seen & self2 & w2 & Hl & Hall).
    exists seen, self2, w2. split; [|by split].
    unfold KG.bind at 1. rewrite Hl. unfold KG.bind at 1. cbn [Seed.print].
    by rewrite <- !app_assoc.
  - destruct Hr as [-> ->]. cbn [fst snd negb]. unfold KG.bind at 1. cbn [KG.ret].
    destruct (seed_loop_watched courses 0 self1 w1
                (log ++ ((fun stmt => Watch.Ran stmt ∅) <$> KG.constraint_statements)) out)
      as (seen & self2 & w2 & Hl & Hall).
    exists seen, self2, w2. split; [|by split].
    unfold KG.bind at 1. rewrite Hl. unfold KG.bind at 1. cbn [Seed.print].
    by rewrite <- !app_assoc.
Qed.

End SeedReportFacts.

(** X14.  The seeding script reports what the driver did.  Over a watched
    driver, and given the loaded courses: the constraints are applied,
    then one upsert is made for each course, in order, each running the
    upsert query with the fields of its course unless the driver raises;
    the script prints a line about the constraints exactly when the driver
    raised while they were applied, a line for each course exactly when
    the driver raised during its upsert, each with the text of the last
    exception raised there, and last the line with the number of upserts
    during which the driver raised nothing; then it closes the driver. *)
Theorem seed_main_report {W D S Q : Type} (neo : KG.Neo4j W D S Q)
    (courses : list course_rec) (self : KG.KnowledgeGraph D) (w : W)
    (log : list Watch.obs) (out : list string) :
  ∃ first seen tail,
    snd (fst (snd (snd (Seed.main (Watch.watched neo) courses (self, ((w, log), out))))))
      = log ++ first ++ concat seen ++ tail ∧
    snd (snd (snd (Seed.main (Watch.watched neo) courses (self, ((w, log), out)))))
      = out ++ Seed.constraints_lines first ++ Seed.report courses seen
            ++ [Seed.seeded_line (Seed.written seen)] ∧
    (Watch.failure first = None →
       first = (fun stmt => Watch.Ran stmt ∅) <$> KG.constraint_statements) ∧
    Forall2 Seed.upserted courses seen ∧
    (tail = [] ∨ ∃ e, tail = [Watch.Raised e]).
Proof.
  destruct (seed_main_watched neo courses self w log out)
    as (first & seen & self2 & w2 & Heq & Hfirst & Hall).
  rewrite Heq.
  destruct (close_watched neo self2 w2 (log ++ first ++ concat seen)
              (out ++ Seed.constraints_lines first ++ Seed.report courses seen
                 ++ [Seed.seeded_line (Seed.written seen)]))
    as (tail & Ht & Hlog & Hout).
  exists first, seen, tail. rewrite Hlog, Hout.
  split; [by rewrite <- !app_assoc|]. by repeat split.
Qed.

(** X15.  Once the Catalog is loaded, the seeding script ends by closing
    the driver: it returns with
    an object that holds no driver, or it raises the exception that
    closing the driver raised; no failure of a query makes it raise. *)
Theorem seed_main_exit {W D S Q : Type} (neo : KG.Neo4j W D S Q)
    (courses : list course_rec) (st : KG.KnowledgeGraph D * (W * list string)) :
  (fst (Seed.main neo courses st) = KG.Returns tt ∧
   KG.driver (fst (snd (Seed.main neo courses st))) = None) ∨
  ∃ e d w, fst (Seed.main neo courses st) = KG.Raises e ∧
           fst (KG.driver_close neo d w) = KG.Raises e.
Proof.
  destruct st as [self [w out]].
  destruct (seed_main_before_close neo courses self w out)
    as (pre & failed & self' & w' & Heq & _ & _).
  rewrite Heq. unfold KG.close, KG.bind, KG.get_self. cbn [fst snd KG.ret].
  destruct (KG.driver self') as [d|] eqn:Ed; [|by left].
  unfold KG.call. cbn [Seed.with_stdout KG.driver_close Seed.lift].
  destruct (KG.driver_close neo d w') as [[[]|e] w''] eqn:Ec; cbn.
  - by left.
  - right. exists e, d, w'. by rewrite Ec.
Qed.

(** ** Single-course replies *)

Lemma startswith_append s t : Str.startswith s (s +:+ t) = true.
Proof.
  induction s as [|a s IH]; [done|].
  rewrite append_cons. cbn [Str.startswith]. by rewrite Ascii.eqb_refl.
Qed.

Lemma canonical_code_upper c : Shape.canonical_code c → Str.upper c = c.
Proof.
  intros (l1 & l2 & l3 & d1 & d2 & d3 & -> & H1 & H2 & H3 & H4 & H5 & H6).
  change (String (Str.upper_char l1) (String (Str.upper_char l2) (String (Str.upper_char l3)
            (String (Str.upper_char d1) (String (Str.upper_char d2)
              (String (Str.upper_char d3) "")))))
          = String l1 (String l2 (String l3 (String d1 (String d2 (String d3 "")))))).
  by rewrite !upper_char_fixed by auto.
Qed.

Section SingleCourseFacts.
Variable data : list course_rec.
Context {G : Type}.

Lemma entities_course_code text ents :
  Chatbot.extract_entities data text = Some ents →
  Chatbot.get ents "course_code" = Chatbot.extract_course_code (Str.upper text).
Proof.
  destruct (extract_entities_total data text) as (d & s & He). rewrite He.
  intros [= <-]. unfold Chatbot.get. by rewrite lookup_insert_eq.
Qed.

Lemma detect_single_needs_code text ents :
  Chatbot.detect_intent text ents ∈ Spec.single_course_intents →
  Str.truthy (Chatbot.get ents "course_code") = true.
Proof.
  unfold Chatbot.detect_intent.
  destruct (Str.truthy (Chatbot.get ents "course_code")); [done|].
  repeat match goal with |- context [if ?b then _ else _] => destruct b end;
    intros H; not_in_list H.
Qed.

(** The text of a single-course reply: not found, or starting with the
    code of the record found, as the Catalog writes it. *)
Lemma single_course_reply (kg : option (Chatbot.GraphIndex G)) intent ents g :
  intent ∈ Spec.single_course_intents →
  match Chatbot._get_course data (Chatbot.get ents "course_code") with
  | None => fst (Chatbot.build_reply data kg intent ents g) = Chatbot.not_found_text
  | Some c => Str.startswith (course c) (fst (Chatbot.build_reply data kg intent ents g)) = true
  end.
Proof.
  intros Hi.
  destruct (Chatbot._get_course data (Chatbot.get ents "course_code")) as [c|] eqn:Hc;
    unfold Chatbot.build_reply; unfold Chatbot.bind at 1;
    destruct (Chatbot._kg_status kg g) as [[ok e] g1].
  - single_intent Hi; cbn [String.eqb Ascii.eqb Bool.eqb fst snd]; rewrite Hc;
      unfold Chatbot.bind; destruct (Chatbot._try_upsert kg c ok g1) as [[] g2];
      cbn [Chatbot.ret fst]; rewrite ?append_assoc; apply startswith_append.
  - single_intent Hi; cbn [String.eqb Ascii.eqb Bool.eqb fst snd]; by rewrite Hc.
Qed.

End SingleCourseFacts.

(** X16.  For a Catalog and an utterance in ASCII, the reply to an
    utterance classified as a single-course question is about the course
    that the utterance names: the first course code
    of the upper-cased utterance is recognised, and the reply is the
    not-found text when no record of the Catalog has this code up to
    case, and otherwise starts with the code of such a record, as the
    Catalog writes it. *)
Theorem single_course_reply_sound (data : list course_rec) {G : Type}
    (kg : option (Chatbot.GraphIndex G)) (text : string) (g g' : G)
    (reply intent : string) (ents : Chatbot.entities) :
  Shape.ascii_catalog data = true →
  Str.isascii text = true →
  Chatbot.process data kg text g = Some ((reply, intent, ents), g') →
  intent ∈ Spec.single_course_intents →
  ∃ code,
    Chatbot.extract_course_code (Str.upper text) = Some code ∧
    Chatbot.get ents "course_code" = Some code ∧
    ((reply = Chatbot.not_found_text ∧ Spec.absent data code) ∨
     ∃ c, c ∈ data ∧ Str.upper (course c) = code ∧
          Str.startswith (course c) reply = true).
Proof.
  intros _ _. unfold Chatbot.process.
  destruct (Chatbot.extract_entities data text) as [ents0|] eqn:He; [|done]. simpl.
  destruct (Chatbot.build_reply data kg _ ents0 g) as [reply0 g0] eqn:Hb.
  intros [= -> Hi -> ->] Hs. subst intent.
  pose proof (entities_course_code data text ents He) as Hc.
  pose proof (detect_single_needs_code text ents Hs) as Ht.
  destruct (Chatbot.get ents "course_code") as [[|a s]|] eqn:Hg; try done.
  exists (String a s). split; [done|]. split; [done|].
  assert (Hu : Str.upper (String a s) = String a s).
  { apply canonical_code_upper. symmetry in Hc.
    rewrite extract_course_code_scan in Hc.
    apply scan_code_Some in Hc as (pre & (s' & _ & Hst) & _).
    by apply starts_code_canonical in Hst. }
  pose proof (single_course_reply data kg _ ents g Hs) as Hr.
  rewrite Hg, Hb in Hr. cbn [fst] in Hr.
  unfold Chatbot._get_course in Hr. rewrite Hu in Hr.
  destruct (Chatbot.by_code data !! String a s) as [c|] eqn:Eb.
  - right. apply by_code_Some in Eb as [Hin Hup]. by exists c.
  - left. split; [done|]. unfold Spec.absent. rewrite Hu. by apply by_code_None.
Qed.

(** "credit of cse 411?" against the example Catalog. *)
Lemma single_course_reply_sound_witness :
  ∃ code,
    Chatbot.extract_course_code (Str.upper "credit of cse 411?") = Some code ∧
    Chatbot.get (<["course_code" := Some "CSE411"]> (<["teacher" := None]>
                  (<["dept" := Some "CSE"]> (<["semester" := None]> ∅)))) "course_code"
      = Some code ∧
    (("CSE411 course er credit: 3. (Credits of CSE411 are 3.)" = Chatbot.not_found_text
      ∧ Spec.absent catalog_ex code) ∨
     ∃ c, c ∈ catalog_ex ∧ Str.upper (course c) = code ∧
          Str.startswith (course c) "CSE411 course er credit: 3. (Credits of CSE411 are 3.)"
          = true).
Proof.
  apply (single_course_reply_sound catalog_ex (@None (Chatbot.GraphIndex nat))
           "credit of cse 411?" 0 0 _ "course_credit" _).
  - reflexivity.
  - reflexivity.
  - vm_compute. reflexivity.
  - unfold Spec.single_course_intents. in_list.
Defined.

(** ** The answer of the index comes first *)

(** X17.  On a lookup with a healthy index, the rows that the index gives
    are listed as they are, in its order and without a look at the
    Catalog; only when it gives no row, with or without an error, is the
    reply built from the Catalog scan, and then without advisory. *)
Theorem index_rows_first (data : list course_rec) {G : Type} (k : Chatbot.GraphIndex G)
    (kind : Spec.lookup_kind) (ents : Chatbot.entities) (x : string) (g g2 : G)
    (rows : list Chatbot.row) (err : option string) :
  Chatbot.get ents (Spec.entity_of kind) = Some x → x ≠ "" →
  fst (fst (Chatbot.health k g)) = true →
  Spec.query_of k kind x (snd (Chatbot.health k g)) = ((rows, err), g2) →
  (rows ≠ [] →
     fst (Chatbot.build_reply data (Some k) (Spec.intent_of kind) ents g)
     = Spec.listing kind x (Chatbot.code <$> rows)) ∧
  (rows = [] →
     fst (Chatbot.build_reply data (Some k) (Spec.intent_of kind) ents g)
     = Spec.lookup_reply kind x (Spec.catalog_codes data kind x) "").
Proof.
  intros Hget Hx Hh Hq.
  rewrite (build_reply_lookup data (Some k) kind ents x g Hget Hx).
  cbn [Chatbot._kg_status]. destruct (Chatbot.health k g) as [[ok e] g1].
  cbn [fst snd] in *. subst ok.
  unfold Chatbot.kg_lookup, Chatbot.bind. cbn [negb]. rewrite Hq.
  cbn [Chatbot.ret fst Spec.advisory]. split.
  - intros Hr. destruct rows as [|r rows]; [done|].
    cbn [Spec.rows_or fst]. apply append_nil_r'.
  - intros ->. cbn [Spec.rows_or]. unfold Spec.lookup_reply.
    rewrite <- catalog_rows_codes.
    destruct (Spec.catalog_rows data kind x) as [|r rows]; [done|].
    cbn [fst fmap list_fmap]. by rewrite append_nil_r'.
Qed.

(** The index knows a course of "Dr. A" that the example Catalog does not
    hold. *)
Lemma index_rows_first_witness :
  ([Chatbot.Row "XYZ999" "Unlisted"] ≠ [] →
     fst (Chatbot.build_reply catalog_ex
            (Some (fixed_kg true [Chatbot.Row "XYZ999" "Unlisted"] None))
            "teacher_courses" (<["teacher" := Some "Dr. A"]> ∅) 0)
     = Spec.listing Spec.ByTeacher "Dr. A" ["XYZ999"]) ∧
  ([Chatbot.Row "XYZ999" "Unlisted"] = [] →
     fst (Chatbot.build_reply catalog_ex
            (Some (fixed_kg true [Chatbot.Row "XYZ999" "Unlisted"] None))
            "teacher_courses" (<["teacher" := Some "Dr. A"]> ∅) 0)
     = Spec.lookup_reply Spec.ByTeacher "Dr. A"
         (Spec.catalog_codes catalog_ex Spec.ByTeacher "Dr. A") "").
Proof.
  apply (index_rows_first catalog_ex (fixed_kg true [Chatbot.Row "XYZ999" "Unlisted"] None)
           Spec.ByTeacher (<["teacher" := Some "Dr. A"]> ∅) "Dr. A" 0 2
           [Chatbot.Row "XYZ999" "Unlisted"] None).
  - reflexivity.
  - done.
  - reflexivity.
  - reflexivity.
Defined.

(** ** Closing *)

(** X18.  Closing is idempotent: when [close] returns, the object holds
    no driver and keeps its settings, and closing again returns at once,
    with no call to the driver: neither the object nor the world
    changes. *)
Theorem close_idempotent {W D S Q : Type} (neo : KG.Neo4j W D S Q)
    (st st' : KG.KnowledgeGraph D * W) :
  KG.close neo st = (KG.Returns tt, st') →
  KG.driver (fst st') = None ∧
  KG.uri (fst st') = KG.uri (fst st) ∧ KG.user (fst st') = KG.user (fst st) ∧
  KG.password (fst st') = KG.password (fst st) ∧
  KG.database (fst st') = KG.database (fst st) ∧
  KG.close neo st' = (KG.Returns tt, st').
Proof.
  destruct st as [self w]. unfold KG.close at 1. unfold KG.bind, KG.get_self.
  cbn [fst snd]. destruct (KG.driver self) as [d|] eqn:Ed.
  - unfold KG.call. destruct (KG.driver_close neo d w) as [[[]|e] w1]; [|done].
    cbn [KG.put_driver]. intros [= <-]. by repeat split.
  - intros [= <-]. repeat split; [done|].
    unfold KG.close, KG.bind, KG.get_self. cbn [fst snd]. by rewrite Ed.
Qed.

Lemma close_idempotent_witness :
  KG.driver (fst (KG.set_driver kg_obj None, tt)) = None ∧
  KG.uri (fst (KG.set_driver kg_obj None, tt)) = KG.uri (fst (KG.set_driver kg_obj (Some tt), tt)) ∧
  KG.user (fst (KG.set_driver kg_obj None, tt)) = KG.user (fst (KG.set_driver kg_obj (Some tt), tt)) ∧
  KG.password (fst (KG.set_driver kg_obj None, tt))
    = KG.password (fst (KG.set_driver kg_obj (Some tt), tt)) ∧
  KG.database (fst (KG.set_driver kg_obj None, tt))
    = KG.database (fst (KG.set_driver kg_obj (Some tt), tt)) ∧
  KG.close neo_down (KG.set_driver kg_obj None, tt)
    = (KG.Returns tt, (KG.set_driver kg_obj None, tt)).
Proof.
  apply (close_idempotent neo_down (KG.set_driver kg_obj (Some tt), tt)
           (KG.set_driver kg_obj None, tt)).
  reflexivity.
Defined.
